(** * CloudTrail plugin: the event source of [pkg/cloudtrail/source.go]

    A shallow embedding of the pull-based event source of the CloudTrail
    plugin: the record splitter, the download scheduler, the queue poll,
    the pull state machine, the key lister and the S3 prefix classification,
    and, after the definitions, the properties the specification states
    about them.

    Go values are modelled as follows.
    - [string] is Rocq's [string] (a sequence of 8-bit characters),
      [[]byte] is [list byte]; [string(b)] and [[]byte(s)] are the two
      conversions of the standard library.
    - [int] is [Z]. Every [int] of this file is a length, an index below a
      length or a brace depth bounded by a length, so no operation wraps.
      [uint32] is [Z] reduced modulo [2^32] where the source converts.
    - A call that fails returns a value of [error]; an index or a type
      assertion that Go would abort on yields the outcome [Panic].
    - Library functions whose code is not part of the plugin (gzip, the JSON
      decoders, [time.Parse], [time.Format], [ParseInterval]) are the fields
      of the class [Externals]; the answers of the network and of the file system
      during one call are the fields of the record [IO]. *)

From stdpp Require Import base tactics option list strings gmap.
From Stdlib Require Import ZArith Lia Strings.Byte Strings.Ascii Strings.String.
From Stdlib Require Import DecimalString.

Local Open Scope Z_scope.

(** ** Bytes *)

Abbreviation bytes := (list byte).

Definition b_of (s : string) : bytes := list_byte_of_string s.
Definition s_of (b : bytes) : string := string_of_list_byte b.

Definition lbrace : byte := "{"%byte.
Definition rbrace : byte := "}"%byte.
Definition dquote : byte := x22.
Definition backslash : byte := x5c.

Definition len {A} (l : list A) : Z := Z.of_nat (List.length l).

(** [s[lo:hi]] for [0 <= lo <= hi <= len s]. *)
Definition slice {A} (s : list A) (lo hi : Z) : list A :=
  take (Z.to_nat (hi - lo)) (drop (Z.to_nat lo) s).

(** ** Record splitter *)

Module Splitter.

(** The variables of the loop of [extractRecordStrings]. *)
Record scan := Scan {
  indentation : Z;
  entryStart : Z;
  res : list bytes
}.

(** One iteration of [for pos, char := range jsonStr]. *)
Definition step (jsonStr : bytes) (pos : Z) (char : byte) (s : scan) : scan :=
  if Byte.eqb char lbrace then
    Scan (indentation s + 1)
         (if indentation s =? 1 then pos else entryStart s)
         (res s)
  else if Byte.eqb char rbrace then
    let indentation' := indentation s - 1 in
    if indentation' =? 1 then
      if pos <? len jsonStr - 1 then
        Scan indentation' (entryStart s)
             (res s ++ [slice jsonStr (entryStart s) (pos + 1)])
      else Scan indentation' (entryStart s) (res s)
    else Scan indentation' (entryStart s) (res s)
  else s.

(** The iterations over the bytes [rest], the first of which is at [pos]. *)
Fixpoint scanFrom (jsonStr rest : bytes) (pos : Z) (s : scan) : scan :=
  match rest with
  | [] => s
  | char :: rest' => scanFrom jsonStr rest' (pos + 1) (step jsonStr pos char s)
  end.

(** [extractRecordStrings(jsonStr, res)]: the result is the new [*res]. *)
Definition extractRecordStrings (jsonStr : bytes) (res0 : list bytes) : list bytes :=
  res (scanFrom jsonStr jsonStr 0 (Scan 0 0 res0)).

(** The envelope [{"Records":[obj_1,...,obj_K]}]. *)
Definition envelopeHead : bytes :=
  [lbrace; dquote] ++ b_of "Records" ++ [dquote] ++ b_of ":[".

Fixpoint joinComma (objs : list bytes) : bytes :=
  match objs with
  | [] => []
  | [o] => o
  | o :: objs' => o ++ b_of "," ++ joinComma objs'
  end.

Definition envelope (objs : list bytes) : bytes :=
  envelopeHead ++ joinComma objs ++ b_of "]}".

(** Brace counting, as the splitter sees a byte string: [closes d s] holds
    when [s], read with [d] braces open, closes all of them and the last one
    with its last byte. *)
Fixpoint closes (d : nat) (s : bytes) : bool :=
  match s with
  | [] => false
  | c :: s' =>
      if Byte.eqb c lbrace then closes (S d) s'
      else if Byte.eqb c rbrace then
        match d with
        | O => match s' with [] => true | _ => false end
        | S d' => closes d' s'
        end
      else closes d s'
  end.

(** [obj] starts with an opening brace whose matching closing brace, counting
    every brace byte, is the last byte of [obj]. *)
Definition braceMatched (obj : bytes) : bool :=
  match obj with
  | c :: s => Byte.eqb c lbrace && closes 0 s
  | [] => false
  end.

Definition braceFree (s : bytes) : bool :=
  forallb (fun c => negb (Byte.eqb c lbrace) && negb (Byte.eqb c rbrace)) s.

(** [s] opens and closes braces in pairs: read with any number of braces
    open, it leaves as many open. *)
Definition bal (s : bytes) : Prop :=
  forall d rest, closes d (s ++ rest) = closes d rest.

End Splitter.

(** ** JSON values

    The values of [fastjson] and of [encoding/json], and the compact text of
    a value. Every text [render v] is well-formed JSON: it is what the
    specification calls a well-formed object when [v] is an object. *)

Module Json.

#[local] Set Warnings "-register-all".

Inductive json :=
| JNull
| JTrue
| JFalse
| JNumber (n : Z)
| JString (s : string)
| JArray (elems : list json)
| JObject (kvs : list (string * json)).

Definition isObject (v : json) : bool :=
  match v with JObject _ => true | _ => false end.

Definition hexDigit (n : N) : byte :=
  nth (N.to_nat n) (b_of "0123456789abcdef") "0"%byte.

(** The text of one character inside a string literal. *)
Definition escByte (c : byte) : bytes :=
  if Byte.eqb c dquote then [backslash; dquote]
  else if Byte.eqb c backslash then [backslash; backslash]
  else if (Byte.to_N c <? 32)%N then
    [backslash] ++ b_of "u00" ++
    [hexDigit (Byte.to_N c / 16); hexDigit (Byte.to_N c mod 16)]
  else [c].

Definition quote (s : string) : bytes :=
  [dquote] ++ flat_map escByte (b_of s) ++ [dquote].

Definition renderZ (n : Z) : bytes :=
  b_of (NilZero.string_of_int (Z.to_int n)).

Fixpoint render (v : json) : bytes :=
  match v with
  | JNull => b_of "null"
  | JTrue => b_of "true"
  | JFalse => b_of "false"
  | JNumber n => renderZ n
  | JString s => quote s
  | JArray elems =>
      b_of "[" ++ Splitter.joinComma (map render elems) ++ b_of "]"
  | JObject kvs =>
      [lbrace] ++
      Splitter.joinComma
        (map (fun kv => quote (fst kv) ++ b_of ":" ++ render (snd kv)) kvs) ++
      [rbrace]
  end.

(** Induction over JSON values, with the hypothesis for every element of an
    array and every member of an object. *)
Section JsonInd.
Variable P : json -> Prop.
Hypothesis HNull : P JNull.
Hypothesis HTrue : P JTrue.
Hypothesis HFalse : P JFalse.
Hypothesis HNumber : forall n, P (JNumber n).
Hypothesis HString : forall s, P (JString s).
Hypothesis HArray : forall elems, Forall P elems -> P (JArray elems).
Hypothesis HObject : forall kvs, Forall (fun kv => P (snd kv)) kvs -> P (JObject kvs).

Fixpoint json_nested_ind (v : json) : P v :=
  match v with
  | JNull => HNull
  | JTrue => HTrue
  | JFalse => HFalse
  | JNumber n => HNumber n
  | JString s => HString s
  | JArray elems =>
      HArray elems
        ((fix all (l : list json) : Forall P l :=
            match l with
            | [] => List.Forall_nil P
            | x :: l' => List.Forall_cons P x l' (json_nested_ind x) (all l')
            end) elems)
  | JObject kvs =>
      HObject kvs
        ((fix all (l : list (string * json)) : Forall (fun kv => P (snd kv)) l :=
            match l with
            | [] => List.Forall_nil _
            | kv :: l' => List.Forall_cons _ kv l' (json_nested_ind (snd kv)) (all l')
            end) kvs)
  end.
End JsonInd.

(** No key and no string value of [v] holds a brace. *)
Fixpoint stringsBraceFree (v : json) : bool :=
  match v with
  | JString s => Splitter.braceFree (b_of s)
  | JArray elems => forallb stringsBraceFree elems
  | JObject kvs =>
      forallb (fun kv => Splitter.braceFree (b_of (fst kv)) && stringsBraceFree (snd kv)) kvs
  | _ => true
  end.

End Json.

(** ** Strings

    The functions of the packages [strings] and [path/filepath] that the
    source calls, over the characters of a string. *)

Module Strings.

Abbreviation chars := (list ascii).

Definition chars_of (s : string) : chars := list_ascii_of_string s.
Definition of_chars (l : chars) : string := string_of_list_ascii l.

(** [strings.Index(s, sep)] for a separator of one character: the index of
    its first occurrence, or [-1]. *)
Fixpoint indexFrom (sep : ascii) (l : chars) (i : Z) : Z :=
  match l with
  | [] => -1
  | c :: l' => if Ascii.eqb c sep then i else indexFrom sep l' (i + 1)
  end.

Definition Index (s : string) (sep : ascii) : Z := indexFrom sep (chars_of s) 0.

(** [s[lo:hi]] and [s[lo:]] on strings, for indexes in range. *)
Definition substr (s : string) (lo hi : Z) : string :=
  of_chars (slice (chars_of s) lo hi).

Definition from (s : string) (lo : Z) : string :=
  of_chars (drop (Z.to_nat lo) (chars_of s)).

(** [strings.Split(s, sep)] for a separator of one character: the pieces
    between the separators, one more than there are separators. *)
Fixpoint splitChars (sep : ascii) (l : chars) : list chars :=
  match l with
  | [] => [[]]
  | c :: l' =>
      if Ascii.eqb c sep then [] :: splitChars sep l'
      else
        match splitChars sep l' with
        | piece :: pieces => (c :: piece) :: pieces
        | [] => [[c]]
        end
  end.

Definition Split (s : string) (sep : ascii) : list string :=
  map of_chars (splitChars sep (chars_of s)).

(** White space of [unicode.IsSpace] among the characters below 128. The
    strings that reach [TrimSpace] in [openS3] hold digits, spaces and
    commas only. *)
Definition isSpace (c : ascii) : bool :=
  Ascii.eqb c " " || ((9 <=? nat_of_ascii c)%nat && (nat_of_ascii c <=? 13)%nat).

Fixpoint trimLeft (l : chars) : chars :=
  match l with
  | c :: l' => if isSpace c then trimLeft l' else l
  | [] => []
  end.

Definition trimRight (l : chars) : chars := rev (trimLeft (rev l)).

Definition TrimSpace (s : string) : string :=
  of_chars (trimRight (trimLeft (chars_of s))).

(** A text between double quotes, as the format [\"%s\"] prints it. *)
Definition quoted (s : string) : string :=
  String (ascii_of_byte dquote) (s ++ String (ascii_of_byte dquote) EmptyString).

(** [strings.HasSuffix]. *)
Definition HasSuffix (s suffix : string) : bool :=
  let l := chars_of s in
  let m := chars_of suffix in
  (List.length m <=? List.length l)%nat
  && String.eqb (of_chars (drop (List.length l - List.length m) l)) suffix.

(** [filepath.Ext(path)]: the suffix of the last element of [path] that
    starts at its last dot, or the empty string. [scanExt] reads the path
    from its end, [acc] being the part already read. *)
Fixpoint scanExt (reversed : chars) (acc : chars) : chars :=
  match reversed with
  | [] => []
  | c :: rest =>
      if Ascii.eqb c "/" then []
      else if Ascii.eqb c "." then c :: acc
      else scanExt rest (c :: acc)
  end.

Definition Ext (path : string) : string :=
  of_chars (scanExt (rev (chars_of path)) []).

End Strings.

(** ** Regular expressions

    The patterns of the source are written in the syntax of [regexp]; here
    they are terms of [re]. [matches] decides whether a whole text belongs
    to the language of an expression, by derivatives; [MatchString] and
    [FindStringSubmatch] place the anchors. *)

Module Regexp.
Import Strings.

Inductive re :=
| Void
| Eps
| Chr (p : ascii -> bool)
| Cat (r1 r2 : re)
| Alt (r1 r2 : re)
| Star (r : re)
| Group (r : re).

Fixpoint nullable (r : re) : bool :=
  match r with
  | Void | Chr _ => false
  | Eps | Star _ => true
  | Cat r1 r2 => nullable r1 && nullable r2
  | Alt r1 r2 => nullable r1 || nullable r2
  | Group r1 => nullable r1
  end.

Fixpoint deriv (c : ascii) (r : re) : re :=
  match r with
  | Void | Eps => Void
  | Chr p => if p c then Eps else Void
  | Cat r1 r2 =>
      if nullable r1 then Alt (Cat (deriv c r1) r2) (deriv c r2)
      else Cat (deriv c r1) r2
  | Alt r1 r2 => Alt (deriv c r1) (deriv c r2)
  | Star r1 => Cat (deriv c r1) (Star r1)
  | Group r1 => deriv c r1
  end.

Fixpoint matches (r : re) (l : chars) : bool :=
  match l with
  | [] => nullable r
  | c :: l' => matches (deriv c r) l'
  end.

(** The language of an expression. *)
Inductive Match : re -> chars -> Prop :=
| MEps : Match Eps []
| MChr p c : p c = true -> Match (Chr p) [c]
| MCat r1 r2 l1 l2 : Match r1 l1 -> Match r2 l2 -> Match (Cat r1 r2) (l1 ++ l2)
| MAltL r1 r2 l : Match r1 l -> Match (Alt r1 r2) l
| MAltR r1 r2 l : Match r2 l -> Match (Alt r1 r2) l
| MStar0 r : Match (Star r) []
| MStarS r l1 l2 : Match r l1 -> Match (Star r) l2 -> Match (Star r) (l1 ++ l2)
| MGroup r l : Match r l -> Match (Group r) l.

(** A text made of characters of one class. *)
Definition allChars (p : ascii -> bool) (l : chars) : Prop :=
  Forall (fun c => p c = true) l.

(** The syntax of the patterns. *)
Definition lit (s : string) : re :=
  foldr (fun c r => Cat (Chr (Ascii.eqb c)) r) Eps (chars_of s).

Definition Opt (r : re) : re := Alt r Eps.
Definition Plus (r : re) : re := Cat r (Star r).

Fixpoint power (n : nat) (r : re) : re :=
  match n with
  | O => Eps
  | S n' => Cat r (power n' r)
  end.

Fixpoint upTo (n : nat) (r : re) : re :=
  match n with
  | O => Eps
  | S n' => Opt (Cat r (upTo n' r))
  end.

(** [r{lo,hi}]. *)
Definition Rep (r : re) (lo hi : nat) : re := Cat (power lo r) (upTo (hi - lo) r).

Definition digit (c : ascii) : bool :=
  (48 <=? nat_of_ascii c)%nat && (nat_of_ascii c <=? 57)%nat.

Definition lowerOrDigit (c : ascii) : bool :=
  digit c || ((97 <=? nat_of_ascii c)%nat && (nat_of_ascii c <=? 122)%nat).

Definition notUnderscore (c : ascii) : bool := negb (Ascii.eqb c "_").

(** [.]: every character but the line feed. *)
Definition dot (c : ascii) : bool := negb (Ascii.eqb c "010").

(** A pattern: an expression between an optional [^] and an optional [$]. *)
Record regexp := Regexp {
  anchoredStart : bool;
  body : re;
  anchoredEnd : bool
}.

Fixpoint tails {A} (l : list A) : list (list A) :=
  match l with
  | [] => [[]]
  | _ :: l' => l :: tails l'
  end.

Definition prefixes {A} (l : list A) : list (list A) :=
  map (@rev A) (tails (rev l)).

(** [re.MatchString(s)]: some part of [s], placed as the anchors say,
    belongs to the language. *)
Definition MatchString (p : regexp) (s : string) : bool :=
  existsb
    (fun t =>
       if anchoredEnd p then matches (body p) t
       else existsb (matches (body p)) (prefixes t))
    (if anchoredStart p then [chars_of s] else tails (chars_of s)).

(** The backtracking search that gives the submatch of the leftmost-first
    match: [k] is what remains to be matched after [r], and the group
    records the characters it has read. The iterations of a star each read a
    character at least, so [length l] of them are enough. *)
Fixpoint search (r : re) (l : chars) (cap : option chars)
    (k : chars -> option chars -> option (option chars)) : option (option chars) :=
  match r with
  | Void => None
  | Eps => k l cap
  | Chr p =>
      match l with
      | c :: l' => if p c then k l' cap else None
      | [] => None
      end
  | Cat r1 r2 => search r1 l cap (fun l' cap' => search r2 l' cap' k)
  | Alt r1 r2 =>
      match search r1 l cap k with
      | Some found => Some found
      | None => search r2 l cap k
      end
  | Star r1 =>
      (fix iterate (n : nat) (l : chars) (cap : option chars) : option (option chars) :=
         match n with
         | O => k l cap
         | S n' =>
             match search r1 l cap
                     (fun l' cap' =>
                        if (List.length l' <? List.length l)%nat
                        then iterate n' l' cap' else None) with
             | Some found => Some found
             | None => k l cap
             end
         end) (List.length l) l cap
  | Group r1 =>
      search r1 l cap
        (fun l' _ => k l' (Some (take (List.length l - List.length l') l)))
  end.

(** [re.FindStringSubmatch(s)[1]] for a pattern without anchors and with
    one group: the group of the match that starts leftmost, [None] when
    nothing matches. *)
Fixpoint findFrom (r : re) (l : chars) : option (option chars) :=
  match search r l None (fun _ cap => Some cap) with
  | Some found => Some found
  | None =>
      match l with
      | [] => None
      | _ :: l' => findFrom r l'
      end
  end.

Definition FindStringSubmatch (p : regexp) (s : string) : option string :=
  match findFrom (body p) (chars_of s) with
  | Some (Some group) => Some (of_chars group)
  | Some None => Some EmptyString
  | None => None
  end.

(** A class of characters does not go on into [b]. *)
Definition stops (p : ascii -> bool) (b : chars) : Prop :=
  match b with
  | [] => True
  | c :: _ => p c = false
  end.

End Regexp.

(** ** Errors and outcomes *)

(** The two sentinel errors of the plugin SDK, and every other [error]
    value, which carries its message. *)
Inductive error :=
| ErrTimeout
| ErrEOF
| ErrOther (msg : string).

(** The answer of a fallible call of a library or of the world: a value, or
    an error with its message. No such call returns a sentinel of the SDK. *)
Inductive result (A : Type) :=
| OK (a : A)
| Failed (msg : string).
Arguments OK {A} a.
Arguments Failed {A} msg.

(** How a call of [func (...) error] ends: it returns [nil], it returns an
    error, or the program panics. *)
Inductive outcome :=
| Nil
| Err (err : error)
| Panic.

Definition uint32 (n : Z) : Z := n mod 2 ^ 32.
Definition uint64 (n : Z) : Z := n mod 2 ^ 64.

(** The value of an arithmetic result of type [int], 64 bits wide on the
    platforms the plugin is built for, after wrap-around. *)
Definition int64 (n : Z) : Z := (n + 2 ^ 63) mod 2 ^ 64 - 2 ^ 63.

(** [l[i]] for a Go [int] index; [None] where Go panics. *)
Definition index {A} (l : list A) (i : Z) : option A :=
  if i <? 0 then None else l !! Z.to_nat i.

Definition itoa (n : Z) : string := NilZero.string_of_int (Z.to_int n).

(** ** The world outside the plugin *)

(** Library functions and the declarations of the plugin that live outside
    [source.go]. [gzip_NewReader] tells whether the header is accepted and
    [gzip_ReadAll] gives the inflated stream; [time_Parse] is
    [time.Parse(time.RFC3339, s)] followed by [UnixNano]; the three
    [json_Unmarshal] functions decode into [map[string]interface{}], into
    [events.S3Event] (the bucket name and object key of each record) and into
    [snsMessage]. *)
Class Externals := {
  gzip_NewReader : bytes -> bool;
  gzip_ReadAll : bytes -> option bytes;
  fastjson_Parse : string -> option Json.json;
  time_Parse : string -> option Z;
  json_Unmarshal_map : string -> result (gmap string Json.json);
  json_Unmarshal_S3Event : string -> result (list (string * string));
  json_Unmarshal_snsMessage : string -> result (string * list string);
  Time : Type;
  time_IsZero : Time -> bool;
  time_Format : string -> Time -> string;
  ParseInterval : string -> result (Time * Time);
  PluginName : string;
  RFC3339Simple : string
}.

(** The answers of the queue, of the bucket, of the file system and of the
    event writer during one call. *)
Record IO := {
  sqs_ReceiveMessage : result (list string);
  sqs_DeleteMessage : option string;
  s3_Download : string -> string -> result bytes;
  ioutil_ReadFile : string -> result bytes;
  evt_Write : bytes -> Z * option string
}.

(** ** Session state *)

Module Source.
Export Strings.

Inductive OpenMode := fileMode | s3Mode | sqsMode.

Record fileInfo := FileInfo {
  name : string;
  isCompressed : bool
}.

Record s3State := S3State {
  bucket : string;
  client : bool;
  DownloadBufs : list bytes;
  lastDownloadedFileNum : Z;
  nFilledBufs : Z;
  curBuf : Z
}.

Record PluginConfig := {
  S3DownloadConcurrency : Z;
  SQSDelete : bool;
  UseS3SNS : bool;
  S3Interval : string;
  S3AccountList : string
}.

Record PluginInstance := Instance {
  openMode : OpenMode;
  config : PluginConfig;
  files : list fileInfo;
  curFileNum : Z;
  evtJSONStrings : list bytes;
  evtJSONListPos : Z;
  s3 : s3State
}.

(** The event a pull writes into: [SetTimestamp] and [Writer().Write]. *)
Record event := Event {
  timestamp : option Z;
  written : bytes
}.

Definition OpenMode_eqb (a b : OpenMode) : bool :=
  match a, b with
  | fileMode, fileMode | s3Mode, s3Mode | sqsMode, sqsMode => true
  | _, _ => false
  end.

(** Field updates. *)
Definition set_files (f : list fileInfo) (c : PluginInstance) : PluginInstance :=
  Instance (openMode c) (config c) f (curFileNum c) (evtJSONStrings c)
           (evtJSONListPos c) (s3 c).
Definition set_curFileNum (n : Z) (c : PluginInstance) : PluginInstance :=
  Instance (openMode c) (config c) (files c) n (evtJSONStrings c)
           (evtJSONListPos c) (s3 c).
Definition set_evtJSONStrings (l : list bytes) (c : PluginInstance) : PluginInstance :=
  Instance (openMode c) (config c) (files c) (curFileNum c) l
           (evtJSONListPos c) (s3 c).
Definition set_evtJSONListPos (n : Z) (c : PluginInstance) : PluginInstance :=
  Instance (openMode c) (config c) (files c) (curFileNum c) (evtJSONStrings c)
           n (s3 c).
Definition set_s3 (s : s3State) (c : PluginInstance) : PluginInstance :=
  Instance (openMode c) (config c) (files c) (curFileNum c) (evtJSONStrings c)
           (evtJSONListPos c) s.
Definition set_openMode (m : OpenMode) (c : PluginInstance) : PluginInstance :=
  Instance m (config c) (files c) (curFileNum c) (evtJSONStrings c)
           (evtJSONListPos c) (s3 c).

Definition set_bucket (b : string) (s : s3State) : s3State :=
  S3State b (client s) (DownloadBufs s) (lastDownloadedFileNum s) (nFilledBufs s) (curBuf s).
Definition set_DownloadBufs (l : list bytes) (s : s3State) : s3State :=
  S3State (bucket s) (client s) l (lastDownloadedFileNum s) (nFilledBufs s) (curBuf s).
Definition set_lastDownloadedFileNum (n : Z) (s : s3State) : s3State :=
  S3State (bucket s) (client s) (DownloadBufs s) n (nFilledBufs s) (curBuf s).
Definition set_nFilledBufs (n : Z) (s : s3State) : s3State :=
  S3State (bucket s) (client s) (DownloadBufs s) (lastDownloadedFileNum s) n (curBuf s).
Definition set_curBuf (n : Z) (s : s3State) : s3State :=
  S3State (bucket s) (client s) (DownloadBufs s) (lastDownloadedFileNum s) (nFilledBufs s) n.

(** [initS3]: the buffer array is made once, with one slot per concurrent
    download; [make] panics on a negative length. *)
Definition initS3 (p : PluginInstance) : option PluginInstance :=
  if client (s3 p) then Some p
  else if S3DownloadConcurrency (config p) <? 0 then None
  else Some (set_s3 (S3State (bucket (s3 p)) true
                       (replicate (Z.to_nat (S3DownloadConcurrency (config p))) [])
                       (lastDownloadedFileNum (s3 p)) (nFilledBufs (s3 p))
                       (curBuf (s3 p))) p).

End Source.

(** ** Downloader, queue poll and event producer *)

Module Producer.
Import Source Json.

Section WithExternals.
Context {X : Externals}.

(** [fastjson]'s [Value.Get(key)] and [Value.GetStringBytes(key)]: the
    first member of an object with that key, and its bytes when it is a
    string, [nil] otherwise. The keys used here are no array indexes, so an
    array has no such member. *)
Definition Get (v : json) (key : string) : option json :=
  match v with
  | JObject kvs => snd <$> List.find (fun kv => String.eqb (fst kv) key) kvs
  | _ => None
  end.

Definition GetStringBytes (v : json) (key : string) : option bytes :=
  match Get v key with
  | Some (JString s) => Some (b_of s)
  | _ => None
  end.

(** The body of the loop over [s3Event.Records] in [getMoreSQSFiles];
    [None] when [initS3] panics. *)
Fixpoint addS3Records (records : list (string * string)) (s3Init : bool)
    (lastBucket : string) (oCtx : PluginInstance) : option PluginInstance :=
  match records with
  | [] => Some oCtx
  | (bucketName, key) :: records' =>
      let entered := negb s3Init || negb (String.eqb bucketName lastBucket) in
      let oCtx1 :=
        if entered then
          let c := set_s3 (set_bucket bucketName (s3 oCtx)) oCtx in
          if negb s3Init then initS3 c else Some c
        else Some oCtx in
      match oCtx1 with
      | None => None
      | Some c =>
          let c' := set_files (files c ++ [FileInfo key (HasSuffix key ".json.gz")]) c in
          addS3Records records' (s3Init || entered) bucketName c'
      end
  end.

(** The loop over [notification.Keys]. *)
Definition addKeys (keys : list string) (oCtx : PluginInstance) : PluginInstance :=
  set_files (files oCtx ++ map (fun key => FileInfo key (HasSuffix key ".json.gz")) keys) oCtx.

Definition getMoreSQSFiles (io : IO) (oCtx : PluginInstance) : outcome * PluginInstance :=
  match sqs_ReceiveMessage io with
  | Failed msg => (Err (ErrOther msg), oCtx)
  | OK [] => (Nil, oCtx)
  | OK (body :: _) =>
      match (if SQSDelete (config oCtx) then sqs_DeleteMessage io else None) with
      | Some msg => (Err (ErrOther msg), oCtx)
      | None =>
          match json_Unmarshal_map body with
          | Failed msg => (Err (ErrOther msg), oCtx)
          | OK sqsMsg =>
              match sqsMsg !! "Type" with
              | None =>
                  (Err (ErrOther "received SQS message that did not have a Type property"), oCtx)
              | Some (JString messageType) =>
                  if negb (String.eqb messageType "Notification") then
                    (Err (ErrOther "received SQS message that was not a SNS Notification"), oCtx)
                  else
                    match sqsMsg !! "Message" with
                    | Some (JString message) =>
                        if UseS3SNS (config oCtx) then
                          match json_Unmarshal_S3Event message with
                          | Failed msg => (Err (ErrOther msg), oCtx)
                          | OK records =>
                              match addS3Records records false "" oCtx with
                              | Some oCtx' => (Nil, oCtx')
                              | None => (Panic, oCtx)
                              end
                          end
                        else
                          match json_Unmarshal_snsMessage message with
                          | Failed msg => (Err (ErrOther msg), oCtx)
                          | OK (notificationBucket, keys) =>
                              match initS3 (set_s3 (set_bucket notificationBucket (s3 oCtx)) oCtx) with
                              | Some oCtx' => (Nil, addKeys keys oCtx')
                              | None => (Panic, oCtx)
                              end
                          end
                    | _ => (Panic, oCtx)
                    end
              | Some _ => (Panic, oCtx)
              end
          end
      end
  end.

(** What [readNextFileS3] and [readFileLocal] give back. *)
Inductive fetched :=
| Bytes (b : bytes)
| FetchErr (err : error)
| FetchPanic.

(** One wave of [s3Download] goroutines: the file of slot [j] is written
    into [DownloadBufs[j]], a failure is sent to the error channel instead.
    The slots are distinct, so the order of the goroutines does not matter
    for the buffers; the errors are listed in slot order. [None] when a
    slot is outside the buffer array. *)
Fixpoint s3DownloadAll (io : IO) (bucketName : string) (batch : list fileInfo)
    (j : nat) (bufs : list bytes) : option (list bytes * list string) :=
  match batch with
  | [] => Some (bufs, [])
  | f :: batch' =>
      match s3_Download io bucketName (name f) with
      | Failed msg =>
          match s3DownloadAll io bucketName batch' (S j) bufs with
          | Some (bufs', errs) => Some (bufs', msg :: errs)
          | None => None
          end
      | OK body =>
          if (j <? List.length bufs)%nat then
            s3DownloadAll io bucketName batch' (S j) (<[j := body]> bufs)
          else None
      end
  end.

(** [readNextFileS3]. The error received from the channel is one of the
    errors sent; the model takes the one of the lowest slot. *)
Definition readNextFileS3 (io : IO) (oCtx : PluginInstance) : fetched * PluginInstance :=
  let st := s3 oCtx in
  if curBuf st <? nFilledBufs st then
    let oCtx' := set_s3 (set_curBuf (curBuf st + 1) st) oCtx in
    match index (DownloadBufs st) (curBuf st) with
    | Some b => (Bytes b, oCtx')
    | None => (FetchPanic, oCtx')
    end
  else if S3DownloadConcurrency (config oCtx) <? 0 then (FetchPanic, oCtx)
  else
    let k := lastDownloadedFileNum st in
    let n := Z.min (S3DownloadConcurrency (config oCtx)) (len (files oCtx) - k) in
    let st1 := set_nFilledBufs n st in
    if (k <? 0) || (n <? 0) then (FetchPanic, set_s3 st1 oCtx)
    else
      match s3DownloadAll io (bucket st) (slice (files oCtx) k (k + n)) 0 (DownloadBufs st) with
      | None => (FetchPanic, set_s3 st1 oCtx)
      | Some (bufs, e :: _) => (FetchErr (ErrOther e), set_s3 (set_DownloadBufs bufs st1) oCtx)
      | Some (bufs, []) =>
          let st2 := set_curBuf 1 (set_lastDownloadedFileNum (k + n) (set_DownloadBufs bufs st1)) in
          match index bufs 0 with
          | Some b => (Bytes b, set_s3 st2 oCtx)
          | None => (FetchPanic, set_s3 st2 oCtx)
          end
      end.

Definition readFileLocal (io : IO) (fileName : string) : fetched :=
  match ioutil_ReadFile io fileName with
  | OK b => Bytes b
  | Failed msg => FetchErr (ErrOther msg)
  end.

(** [nextEvent], the [switch oCtx.openMode] that reads the file. *)
Definition fetchFile (io : IO) (file : fileInfo) (oCtx : PluginInstance)
    : fetched * PluginInstance :=
  match openMode oCtx with
  | s3Mode | sqsMode => readNextFileS3 io oCtx
  | fileMode => (readFileLocal io (name file), oCtx)
  end.

(** A block of [nextEvent] either returns from the function or falls through
    to the code after it. *)
Inductive flow :=
| Return (o : outcome) (oCtx : PluginInstance)
| Continue (oCtx : PluginInstance).

(** [nextEvent], the block [if oCtx.curFileNum >= uint32(len(oCtx.files))]. *)
Definition moreFiles (io : IO) (oCtx : PluginInstance) : flow :=
  if curFileNum oCtx >=? uint32 (len (files oCtx)) then
    match openMode oCtx with
    | sqsMode =>
        match getMoreSQSFiles io oCtx with
        | (Nil, oCtx') =>
            if curFileNum oCtx' >=? uint32 (len (files oCtx')) then
              Return (Err ErrTimeout) oCtx'
            else Continue oCtx'
        | (o, oCtx') => Return o oCtx'
        end
    | _ => Return (Err ErrEOF) oCtx
    end
  else Continue oCtx.

(** The inflation of a compressed file; both failures give [ErrTimeout]. *)
Definition gunzip (tmpStr : bytes) : option bytes :=
  if gzip_NewReader tmpStr then gzip_ReadAll tmpStr else None.

(** [nextEvent], the body of
    [if oCtx.evtJSONListPos >= len(oCtx.evtJSONStrings)]: the next file is
    opened and split into records. *)
Definition openNextFile (io : IO) (oCtx : PluginInstance) : flow :=
  match moreFiles io oCtx with
  | Return o c => Return o c
  | Continue c =>
      match index (files c) (curFileNum c) with
      | None => Return Panic c
      | Some file =>
          let c1 := set_curFileNum (uint32 (curFileNum c + 1)) c in
          let '(r, c2) := fetchFile io file c1 in
          match r with
          | FetchPanic => Return Panic c2
          | FetchErr err => Return (Err err) c2
          | Bytes tmpStr =>
              match (if isCompressed file then gunzip tmpStr else Some tmpStr) with
              | None => Return (Err ErrTimeout) c2
              | Some tmpStr' =>
                  Continue
                    (set_evtJSONListPos 0
                       (set_evtJSONStrings (Splitter.extractRecordStrings tmpStr' []) c2))
              end
          end
      end
  end.

(** [nextEvent], from [// Extract the next record] to the end. *)
Definition nextRecord (io : IO) (oCtx : PluginInstance) (evt : event)
    : outcome * PluginInstance * event :=
  if negb (len (evtJSONStrings oCtx) =? 0) then
    match index (evtJSONStrings oCtx) (evtJSONListPos oCtx) with
    | None => (Panic, oCtx, evt)
    | Some evtData =>
        let c := set_evtJSONListPos (evtJSONListPos oCtx + 1) oCtx in
        match fastjson_Parse (s_of evtData) with
        | None => (Err ErrTimeout, c, evt)
        | Some cr =>
            match GetStringBytes cr "eventTime" with
            | None => (Err ErrTimeout, c, evt)
            | Some timeVal =>
                match time_Parse (s_of timeVal) with
                | None => (Err ErrTimeout, c, evt)
                | Some t1 =>
                    let evt1 := Event (Some (uint64 t1)) (written evt) in
                    match GetStringBytes cr "eventType" with
                    | None => (Err ErrTimeout, c, evt1)
                    | Some typeVal =>
                        if String.eqb (s_of typeVal) "AwsCloudTrailInsight" then
                          (Err ErrTimeout, c, evt1)
                        else
                          let '(n, err) := evt_Write io evtData in
                          let evt2 := Event (timestamp evt1) (written evt1 ++ slice evtData 0 n) in
                          match err with
                          | Some e => (Err (ErrOther e), c, evt2)
                          | None =>
                              if n <? len evtData then
                                (Err (ErrOther ("cloudwatch message too long: "
                                                ++ itoa (len evtData) ++ ", but "
                                                ++ itoa n ++ " were written")), c, evt2)
                              else (Nil, c, evt2)
                          end
                    end
                end
            end
        end
    end
  else (Err ErrTimeout, oCtx, evt).

(** [nextEvent], the statement
    [if oCtx.evtJSONListPos >= len(oCtx.evtJSONStrings) { ... }]: the next
    file is opened only once the records of the previous one are consumed. *)
Definition fillBuffer (io : IO) (oCtx : PluginInstance) : flow :=
  if evtJSONListPos oCtx >=? len (evtJSONStrings oCtx)
  then openNextFile io oCtx else Continue oCtx.

(** [nextEvent], the core event production function. *)
Definition nextEvent (io : IO) (oCtx : PluginInstance) (evt : event)
    : outcome * PluginInstance * event :=
  match fillBuffer io oCtx with
  | Return o c => (o, c, evt)
  | Continue c => nextRecord io c evt
  end.

(** An error other than the two sentinels ends the session. *)
Definition fatal (o : outcome) : bool :=
  match o with
  | Err (ErrOther _) => true
  | _ => false
  end.









(** A sequence of pulls, each with the answers of the world during it and
    the event it writes into: the outcomes and the final state. *)
Fixpoint pulls (calls : list (IO * event)) (oCtx : PluginInstance)
    : list outcome * PluginInstance :=
  match calls with
  | [] => ([], oCtx)
  | (io, evt) :: calls' =>
      let '(o, c, _) := nextEvent io oCtx evt in
      let '(os, c') := pulls calls' c in
      (o :: os, c')
  end.

(** What the poll and the downloads leave alone. *)
Definition sameCursor (c c' : PluginInstance) : Prop :=
  openMode c' = openMode c /\ config c' = config c
  /\ curFileNum c' = curFileNum c
  /\ evtJSONStrings c' = evtJSONStrings c
  /\ evtJSONListPos c' = evtJSONListPos c.

(** Every pull of [calls] polls the queue, and the poll succeeds and adds
    no file. *)
Fixpoint emptyPolls (calls : list (IO * event)) (oCtx : PluginInstance) : Prop :=
  match calls with
  | [] => True
  | (io, _) :: calls' =>
      (getMoreSQSFiles io oCtx).1 = Nil
      /\ files (getMoreSQSFiles io oCtx).2 = files oCtx
      /\ emptyPolls calls' (getMoreSQSFiles io oCtx).2
  end.

(** A sequence of calls of [readNextFileS3]. *)
Fixpoint reads (ios : list IO) (oCtx : PluginInstance)
    : list fetched * PluginInstance :=
  match ios with
  | [] => ([], oCtx)
  | io :: ios' =>
      let '(r, c) := readNextFileS3 io oCtx in
      let '(rs, c') := reads ios' c in
      (r :: rs, c')
  end.

End WithExternals.
End Producer.

(** ** Source resolver and key lister *)

Module Lister.
Import Source Regexp.

Local Notation "r1 +++ r2" := (Cat r1 r2) (at level 60, right associativity).
Local Infix "@" := String.append (at level 60, right associativity).

(** [.*_CloudTrail_[^_]+_([^_]+)Z_] *)
Definition filepathRE : regexp :=
  Regexp false
    (Star (Chr dot) +++ lit "_CloudTrail_" +++ Plus (Chr notUnderscore) +++ lit "_"
     +++ Group (Plus (Chr notUnderscore)) +++ lit "Z_")
    false.

(** [^(?: *\d{12} *,?)*$] *)
Definition accountListRE : regexp :=
  Regexp true
    (Star (Star (lit " ") +++ Rep (Chr digit) 12 12 +++ Star (lit " ") +++ Opt (lit ",")))
    true.

(** [/AWSLogs/(?:o-[a-z0-9]{10,32}/)?\d{12}/?$] *)
Definition awsLogsRE : regexp :=
  Regexp false
    (lit "/AWSLogs/" +++ Opt (lit "o-" +++ Rep (Chr lowerOrDigit) 10 32 +++ lit "/")
     +++ Rep (Chr digit) 12 12 +++ Opt (lit "/"))
    true.

(** [/AWSLogs(?:/o-[a-z0-9]{10,32})?/?$] *)
Definition awsLogsOrgRE : regexp :=
  Regexp false
    (lit "/AWSLogs" +++ Opt (lit "/o-" +++ Rep (Chr lowerOrDigit) 10 32) +++ Opt (lit "/"))
    true.

Record listOrigin := ListOrigin {
  prefix : string;
  startAfter : option string
}.

(** The errors of the S3 client, as [openS3] tells them apart. *)
Inductive awsError :=
| APIError (code message : string)
| OperationError (service unwrapped : string)
| OtherError (text : string).

Inductive listing (A : Type) :=
| Listed (a : A)
| ListFailed (err : awsError).
Arguments Listed {A} a.
Arguments ListFailed {A} err.

(** The answers of the bucket while it is listed: the pages of keys under a
    prefix and after a key, and the common prefixes one level below a
    prefix, page by page and as the single page that [ListObjectsV2]
    returns. *)
Record S3 := {
  objectPages : string -> string -> option string -> list (listing (list string));
  commonPrefixPages : string -> string -> list (listing (list string));
  ListObjectsV2 : string -> string -> listing (list string)
}.

(** [chunkListOrigin]. The loop runs while more than [chunkSize] elements
    remain after [prev]; [rest] is [orgList[prev:]]. *)
Fixpoint chunkLoop {A} (fuel : nat) (rest : list A) (chunkSize : nat) : list (list A) :=
  match fuel with
  | O => [rest]
  | S fuel' =>
      if (chunkSize <? List.length rest)%nat
      then take chunkSize rest :: chunkLoop fuel' (drop chunkSize rest) chunkSize
      else [rest]
  end.

(** [divided] is made with [(len(orgList)+chunkSize-1)/chunkSize] slots,
    computed in [int]: the sum wraps around when it exceeds the largest
    [int], and the quotient is rounded towards zero. [None] where the
    function panics: [make] with a negative length, or a store into
    [divided] at an index that is not below its length. A slot that is not
    stored into stays [nil]. *)
Definition chunkListOrigin {A} (orgList : list A) (chunkSize : Z)
    : option (list (list A)) :=
  if (len orgList =? 0) || (chunkSize <? 1) then Some []
  else
    let n := Z.quot (int64 (len orgList + chunkSize - 1)) chunkSize in
    if n <? 0 then None
    else
      let chunks := chunkLoop (List.length orgList) orgList (Z.to_nat chunkSize) in
      if n <? len chunks then None
      else Some (chunks ++ replicate (Z.to_nat (n - len chunks)) []).

(** [listKeys], the body of the loop over [page.Contents]: the file a key
    gives, or [None] where the loop continues without appending. *)
Definition acceptKey (startTS endTS path : string) : option fileInfo :=
  let inWindow :=
    if negb (String.eqb startTS "") then
      match FindStringSubmatch filepathRE path with
      | Some pathTS =>
          if String.ltb pathTS startTS then false
          else if negb (String.eqb endTS "") && String.ltb endTS pathTS then false
          else true
      | None => true
      end
    else true in
  if inWindow then
    let isCompressed := HasSuffix path ".json.gz" in
    if negb (String.eqb (Ext path) ".json") && negb isCompressed then None
    else Some (FileInfo path isCompressed)
  else None.

(** [listKeys] over the pages of one listing: the files appended, and the
    error sent to the error channel when a page fails. *)
Fixpoint listKeys (pages : list (listing (list string))) (startTS endTS : string)
    (fs : list fileInfo) : list fileInfo * option awsError :=
  match pages with
  | [] => (fs, None)
  | ListFailed err :: _ => (fs, Some err)
  | Listed contents :: pages' =>
      listKeys pages' startTS endTS (fs ++ omap (acceptKey startTS endTS) contents)
  end.

(** The keys that [listKeys] reads: those of the pages before the first
    page that fails. *)
Fixpoint enumerated (pages : list (listing (list string))) : list string :=
  match pages with
  | [] => []
  | ListFailed _ :: _ => []
  | Listed contents :: pages' => contents ++ enumerated pages'
  end.

(** The extension filter alone: the file a key with the extension of plain
    or compressed JSON gives. *)
Definition byExtension (path : string) : option fileInfo :=
  if String.eqb (Ext path) ".json" || HasSuffix path ".json.gz"
  then Some (FileInfo path (HasSuffix path ".json.gz")) else None.

(** The timestamp embedded in the file name of a key. *)
Definition embeddedTS (path : string) : option string :=
  FindStringSubmatch filepathRE path.

(** The key of a CloudTrail log file,
    [.../AccountID_CloudTrail_RegionName_YYYYMMDDTHHmmZ_UniqueString.json.gz]:
    [stem] is the directory and the account, [unique] the unique string
    with the extension. *)
Definition trailKey (stem region ts unique : string) : string :=
  stem @ "_CloudTrail_" @ region @ "_" @ ts @ "Z_" @ unique.

(** A text without underscore, a text that is not empty and holds no
    underscore, a text without line feed, and the number of underscores of
    a text. *)
Definition plain (s : string) : bool := forallb notUnderscore (chars_of s).
Definition segment (s : string) : bool := negb (String.eqb s "") && plain s.
Definition oneLine (s : string) : bool := forallb dot (chars_of s).
Definition underscores (l : chars) : nat :=
  List.length (List.filter (Ascii.eqb "_") l).

(** The pattern of the file names after its leading [.*]. *)
Definition stampRE : re :=
  Cat (lit "_CloudTrail_")
    (Cat (Plus (Chr notUnderscore))
       (Cat (lit "_") (Cat (Group (Plus (Chr notUnderscore))) (lit "Z_")))).

(** No part of the key has the form of the pattern of the file names. *)
Definition unstamped (path : string) : Prop :=
  forall pre t post, chars_of path = pre ++ t ++ post -> ~ Match (body filepathRE) t.

(** The shapes of the locators: a 12-digit account, the identifier of an
    organization after [o-], a prefix that ends in the directory of an
    account, optionally below the directory of an organization, a prefix
    that ends in the directory of an organization, and an allow-list of
    accounts separated by commas, each between any number of spaces. *)
Definition isAccount (a : string) : bool :=
  (List.length (chars_of a) =? 12)%nat && forallb digit (chars_of a).

Definition isOrgId (o : string) : bool :=
  (10 <=? List.length (chars_of o))%nat && (List.length (chars_of o) <=? 32)%nat
  && forallb lowerOrDigit (chars_of o).

Definition accountPrefix (pre : string) (org : option string) (acct : string) : string :=
  pre @ "/AWSLogs/"
  @ match org with Some o => "o-" @ o @ "/" | None => EmptyString end
  @ acct.

Definition orgPrefix (pre o : string) : string := pre @ "/AWSLogs/o-" @ o.

Definition trailing (slash : bool) : string := if slash then "/" else EmptyString.

Fixpoint spaces (n : nat) : string :=
  match n with
  | O => EmptyString
  | S n' => String " " (spaces n')
  end.

Definition account (item : nat * string * nat) : string := snd (fst item).

Definition padded (item : nat * string * nat) : string :=
  spaces (fst (fst item)) @ account item @ spaces (snd item).

Definition allowList (items : list (nat * string * nat)) : string :=
  String.concat "," (map padded items).

Section WithExternals.
Context {X : Externals}.

(** The message [openS3] makes of a listing error. *)
Definition friendly (what : string) (err : awsError) : string :=
  match err with
  | APIError code message => PluginName @ " plugin error: " @ code @ ": " @ message
  | OperationError service unwrapped =>
      PluginName @ " plugin error: " @ service @ ": " @ unwrapped
  | OtherError text => PluginName @ " plugin error: failed to list " @ what @ ": " @ text
  end.

Definition withSlash (p : string) : string :=
  if negb (HasSuffix p "/") then p @ "/" else p.

(** [openS3], the loop over the pages of account prefixes. *)
Fixpoint accountPrefixes (pages : list (listing (list string))) (acc : list string)
    : result (list string) :=
  match pages with
  | [] => OK acc
  | ListFailed err :: _ => Failed (friendly "accounts" err)
  | Listed commonPrefixes :: pages' =>
      accountPrefixes pages'
        (acc ++ map (fun path => path @ "CloudTrail/")
                    (filter (fun path => MatchString awsLogsRE path = true) commonPrefixes))
  end.

(** [openS3], from [intervalPrefix := prefix] to the end of the
    classification: the value of [intervalPrefixList]. *)
Definition intervalPrefixes (w : S3) (bucketName pfx s3AccountList : string)
    : result (list string) :=
  if MatchString awsLogsRE pfx then
    OK [withSlash pfx @ "CloudTrail/"]
  else if MatchString awsLogsOrgRE pfx then
    let intervalPrefix := withSlash pfx in
    if negb (String.eqb s3AccountList "") then
      let accountListArray := map TrimSpace (Split s3AccountList ",") in
      if len accountListArray <=? 0 then
        Failed (PluginName @ " invalid account list: " @ quoted s3AccountList)
      else
        OK (map (fun account => intervalPrefix @ account @ "/CloudTrail/")
                accountListArray)
    else accountPrefixes (commonPrefixPages w bucketName intervalPrefix) []
  else OK [pfx].

(** [openS3], the loop that lists the regions below each prefix that ends
    in [/CloudTrail/]; a listing that fails adds nothing. *)
Definition regionParams (w : S3) (bucketName : string)
    (intervalPrefixList : list string) (startTime : Time) : list listOrigin :=
  flat_map
    (fun intervalPrefix =>
       if HasSuffix intervalPrefix "/CloudTrail/" then
         match ListObjectsV2 w bucketName intervalPrefix with
         | Listed commonPrefixes =>
             map (fun cp =>
                    ListOrigin cp
                      (if negb (time_IsZero startTime)
                       then Some (cp @ time_Format "2006/01/02/" startTime)
                       else None))
                 commonPrefixes
         | ListFailed _ => []
         end
       else [])
    intervalPrefixList.

(** [openS3], from [var startTS string] to the fallback: the two bounds of
    the filter of [listKeys] and the final [inputParams]. *)
Definition timestampWindow (inputParams : list listOrigin) (pfx : string)
    (startTime endTime : Time) : result (string * string * list listOrigin) :=
  if 0 <? len inputParams then
    if negb (time_IsZero startTime) then
      let startTS := time_Format "20060102T1504" startTime in
      if negb (time_IsZero endTime) then
        let endTS := time_Format "20060102T1504" endTime in
        if String.ltb endTS startTS then
          Failed (PluginName @ " start time " @ time_Format RFC3339Simple startTime
                  @ " must be less than end time " @ time_Format RFC3339Simple endTime)
        else OK (startTS, endTS, inputParams)
      else OK (startTS, "", inputParams)
    else OK ("", "", inputParams)
  else OK ("", "", [ListOrigin pfx None]).

(** One chunk of listings. The goroutines of a chunk append to the same file
    list; the model runs them in the order of the chunk. *)
Fixpoint listChunk (w : S3) (bucketName : string) (chunk : list listOrigin)
    (startTS endTS : string) (fs : list fileInfo) : list fileInfo * list awsError :=
  match chunk with
  | [] => (fs, [])
  | params :: chunk' =>
      let '(fs1, err) :=
        listKeys (objectPages w bucketName (prefix params) (startAfter params))
                 startTS endTS fs in
      let '(fs2, errs) := listChunk w bucketName chunk' startTS endTS fs1 in
      (fs2, match err with Some e => e :: errs | None => errs end)
  end.

(** The chunks one after the other; the first error read from the error
    channel after a chunk ends the open. *)
Fixpoint listChunks (w : S3) (bucketName : string) (chunks : list (list listOrigin))
    (startTS endTS : string) (fs : list fileInfo) : list fileInfo * option string :=
  match chunks with
  | [] => (fs, None)
  | chunk :: chunks' =>
      match listChunk w bucketName chunk startTS endTS fs with
      | (fs1, err :: _) => (fs1, Some (friendly "objects" err))
      | (fs1, []) => listChunks w bucketName chunks' startTS endTS fs1
      end
  end.

(** [openS3]. *)
Definition openS3 (w : S3) (input : string) (oCtx0 : PluginInstance)
    : outcome * PluginInstance :=
  let oCtx := set_openMode s3Mode oCtx0 in
  let concurrency := S3DownloadConcurrency (config oCtx) in
  if concurrency <? 1 then
    (Err (ErrOther (PluginName @ " invalid S3DownloadConcurrency: "
                    @ quoted (itoa concurrency))), oCtx)
  else if (String.length input <? 5)%nat then (Panic, oCtx)
  else
    let input' := from input 5 in
    let slashindex := Index input' "/" in
    let bucketName := if slashindex =? -1 then input' else substr input' 0 slashindex in
    let pfx := if slashindex =? -1 then EmptyString else from input' (slashindex + 1) in
    match initS3 (set_s3 (set_bucket bucketName (s3 oCtx)) oCtx) with
    | None => (Panic, oCtx)
    | Some oCtx1 =>
        match ParseInterval (S3Interval (config oCtx1)) with
        | Failed msg =>
            (Err (ErrOther (PluginName @ " invalid interval: "
                            @ quoted (S3Interval (config oCtx1)) @ ": " @ msg)), oCtx1)
        | OK (startTime, endTime) =>
            let s3AccountList := S3AccountList (config oCtx1) in
            if negb (MatchString accountListRE s3AccountList) then
              (Err (ErrOther (PluginName @ " invalid account list: "
                              @ quoted s3AccountList)), oCtx1)
            else
              match intervalPrefixes w bucketName pfx s3AccountList with
              | Failed msg => (Err (ErrOther msg), oCtx1)
              | OK intervalPrefixList =>
                  let inputParams := regionParams w bucketName intervalPrefixList startTime in
                  match timestampWindow inputParams pfx startTime endTime with
                  | Failed msg => (Err (ErrOther msg), oCtx1)
                  | OK (startTS, endTS, inputParams') =>
                      match chunkListOrigin inputParams' concurrency with
                      | None => (Panic, oCtx1)
                      | Some chunks =>
                          match listChunks w bucketName chunks
                                  startTS endTS (files oCtx1) with
                          | (fs, Some msg) => (Err (ErrOther msg), set_files fs oCtx1)
                          | (fs, None) => (Nil, set_files fs oCtx1)
                          end
                      end
                  end
              end
        end
    end.

End WithExternals.
End Lister.

(** ** Opening a local directory and a queue *)

Module Opener.
Import Source.
Local Infix "@" := String.append (at level 60, right associativity).

(** The file system and the queue service as the open functions see them.
    [os_Stat] gives the error of [os.Stat]; [filepath_Walk] gives the
    entries that [filepath.Walk] hands to its callback, in order, each with
    its path and with [info.IsDir()], [None] where [info] is [nil], and the
    error that [Walk] returns when the callback returns [nil] every time;
    [fmt_Errorf] is the text of [fmt.Errorf] for a format without operands
    (the format itself when it holds no verb); [sqs_GetQueueUrl] answers
    for a queue name and an optional owner account; [answers] gives the
    answers of the queue with a given URL. *)
Record Host := {
  os_Stat : string -> option string;
  filepath_Walk : string -> list (string * option bool) * option string;
  fmt_Errorf : string -> string;
  sqs_GetQueueUrl : string -> option string -> result string;
  answers : string -> IO
}.

Section WithExternals.
Context {X : Externals}.

(** [dirExists]: [os.Stat] returns no error. *)
Definition dirExists (h : Host) (path : string) : bool :=
  match os_Stat h path with
  | None => true
  | Some _ => false
  end.

(** The callback of [filepath.Walk] in [openLocal]: the new [oCtx.files]. *)
Definition walkFn (fs : list fileInfo) (entry : string * option bool) : list fileInfo :=
  let '(path, info) := entry in
  match info with
  | Some true => fs
  | _ =>
      let isCompressed := HasSuffix path ".json.gz" in
      if negb (String.eqb (Ext path) ".json") && negb isCompressed then fs
      else fs ++ [FileInfo path isCompressed]
  end.

(** [openLocal]. The field [cloudTrailFilesDir] is read by this function
    only; it is [params] throughout. *)
Definition openLocal (h : Host) (params : string) (oCtx0 : PluginInstance)
    : outcome * PluginInstance :=
  let oCtx := set_openMode fileMode oCtx0 in
  if (String.length params =? 0)%nat then
    (Err (ErrOther (PluginName @ " plugin error: missing input directory argument")), oCtx)
  else if negb (dirExists h params) then
    (Err (ErrOther (PluginName @ " plugin error: cannot open " @ params)), oCtx)
  else
    let '(entries, err) := filepath_Walk h params in
    let oCtx1 := set_files (fold_left walkFn entries (files oCtx)) oCtx in
    match err with
    | Some msg => (Err (ErrOther msg), oCtx1)
    | None =>
        if len (files oCtx1) =? 0 then
          (Err (ErrOther (fmt_Errorf h (PluginName @ " plugin error: no json files found in "
                                        @ params))), oCtx1)
        else (Nil, oCtx1)
    end.

(** [openSQS]. [sqsOwnerAccount] is [oCtx.config.SQSOwnerAccount]; the
    third component is the value assigned to [oCtx.queueURL], [None] when
    the function returns before the assignment. The slice [input[6:]]
    panics on a shorter input. *)
Definition openSQS (h : Host) (sqsOwnerAccount input : string) (oCtx0 : PluginInstance)
    : outcome * PluginInstance * option string :=
  let oCtx := set_openMode sqsMode oCtx0 in
  if (String.length input <? 6)%nat then (Panic, oCtx, None)
  else
    let queueName := from input 6 in
    let sqsOwnerAccountPtr :=
      if negb (String.eqb sqsOwnerAccount "") then Some sqsOwnerAccount else None in
    match sqs_GetQueueUrl h queueName sqsOwnerAccountPtr with
    | Failed msg => (Err (ErrOther msg), oCtx, None)
    | OK queueURL =>
        let '(o, oCtx') := Producer.getMoreSQSFiles (answers h queueURL) oCtx in
        (o, oCtx', Some queueURL)
    end.

End WithExternals.

(** The paths that [filepath.Walk] visits and that are no directories. *)
Definition visited (entries : list (string * option bool)) : list string :=
  map fst (List.filter (fun entry => match entry.2 with Some true => false | _ => true end)
             entries).

(** A session whose fields other than the mode and the configuration have
    the zero values of their Go types. *)
Definition fresh (oCtx : PluginInstance) : Prop :=
  files oCtx = [] /\ curFileNum oCtx = 0
  /\ evtJSONStrings oCtx = [] /\ evtJSONListPos oCtx = 0
  /\ s3 oCtx = S3State "" false [] 0 0 0.

End Opener.

(** ** A sample of the world

    One instance of [Externals], to run the model on concrete inputs: a JSON
    reader for the compact and the spaced texts of values with integer
    numbers and the two-character escapes, the [Z] form of RFC 3339 times,
    and a gzip reader that checks the ten-byte header only and inflates
    nothing (the inputs below that reach it are not gzip streams). *)

Module Sample.
Import Json.

Local Open Scope char_scope.

Definition dq : ascii := ascii_of_byte dquote.
Definition bs : ascii := ascii_of_byte backslash.

Definition isWs (c : ascii) : bool :=
  Ascii.eqb c " " || Ascii.eqb c "009" || Ascii.eqb c "010" || Ascii.eqb c "013".

Definition isDigit (c : ascii) : bool :=
  (48 <=? nat_of_ascii c)%nat && (nat_of_ascii c <=? 57)%nat.

Fixpoint skipWs (s : string) : string :=
  match s with
  | String c r => if isWs c then skipWs r else s
  | EmptyString => EmptyString
  end.

(** The rest of a string literal after its opening quote. *)
Fixpoint parseStr (s : string) : option (string * string) :=
  match s with
  | EmptyString => None
  | String c r =>
      if Ascii.eqb c dq then Some (EmptyString, r)
      else if Ascii.eqb c bs then
        match r with
        | String e r' =>
            let lit (x : ascii) :=
              match parseStr r' with
              | Some (t, rest) => Some (String x t, rest)
              | None => None
              end in
            if Ascii.eqb e dq then lit dq
            else if Ascii.eqb e bs then lit bs
            else if Ascii.eqb e "/" then lit "/"
            else if Ascii.eqb e "n" then lit "010"
            else if Ascii.eqb e "t" then lit "009"
            else if Ascii.eqb e "r" then lit "013"
            else None
        | EmptyString => None
        end
      else if (nat_of_ascii c <? 32)%nat then None
      else
        match parseStr r with
        | Some (t, rest) => Some (String c t, rest)
        | None => None
        end
  end.

Fixpoint parseDigits (s : string) (acc : Z) : Z * string :=
  match s with
  | String c r =>
      if isDigit c then parseDigits r (10 * acc + Z.of_nat (nat_of_ascii c) - 48)
      else (acc, s)
  | EmptyString => (acc, s)
  end.

Definition startsDigit (s : string) : bool :=
  match s with String c _ => isDigit c | EmptyString => false end.

Definition parseNumber (s : string) : option (json * string) :=
  let '(neg, s1) :=
    match s with
    | String c r => if Ascii.eqb c "-" then (true, r) else (false, s)
    | EmptyString => (false, s)
    end in
  if startsDigit s1 then
    let '(n, rest) := parseDigits s1 0 in
    match rest with
    | String c _ =>
        if Ascii.eqb c "." || Ascii.eqb c "e" || Ascii.eqb c "E" then None
        else Some (JNumber (if neg then - n else n), rest)
    | EmptyString => Some (JNumber (if neg then - n else n), rest)
    end
  else None.

Definition keyword (w : string) (v : json) (s : string) : option (json * string) :=
  if String.prefix w s
  then Some (v, String.substring (String.length w) (String.length s - String.length w) s)
  else None.

Fixpoint parseValue (fuel : nat) (s : string) {struct fuel} : option (json * string) :=
  match fuel with
  | O => None
  | S f =>
      match skipWs s with
      | EmptyString => None
      | String c r =>
          if Ascii.eqb c "{" then
            match skipWs r with
            | String c' r' =>
                if Ascii.eqb c' "}" then Some (JObject [], r')
                else
                  match parseMembers f (String c' r') with
                  | Some (kvs, rest) => Some (JObject kvs, rest)
                  | None => None
                  end
            | EmptyString => None
            end
          else if Ascii.eqb c "[" then
            match skipWs r with
            | String c' r' =>
                if Ascii.eqb c' "]" then Some (JArray [], r')
                else
                  match parseElems f (String c' r') with
                  | Some (vs, rest) => Some (JArray vs, rest)
                  | None => None
                  end
            | EmptyString => None
            end
          else if Ascii.eqb c dq then
            match parseStr r with
            | Some (t, rest) => Some (JString t, rest)
            | None => None
            end
          else if Ascii.eqb c "t" then keyword "true" JTrue (String c r)
          else if Ascii.eqb c "f" then keyword "false" JFalse (String c r)
          else if Ascii.eqb c "n" then keyword "null" JNull (String c r)
          else parseNumber (String c r)
      end
  end
with parseMembers (fuel : nat) (s : string) {struct fuel}
    : option (list (string * json) * string) :=
  match fuel with
  | O => None
  | S f =>
      match skipWs s with
      | String c r =>
          if Ascii.eqb c dq then
            match parseStr r with
            | Some (k, r1) =>
                match skipWs r1 with
                | String c1 r2 =>
                    if Ascii.eqb c1 ":" then
                      match parseValue f r2 with
                      | Some (v, r3) =>
                          match skipWs r3 with
                          | String c3 r4 =>
                              if Ascii.eqb c3 "," then
                                match parseMembers f r4 with
                                | Some (kvs, r5) => Some ((k, v) :: kvs, r5)
                                | None => None
                                end
                              else if Ascii.eqb c3 "}" then Some ([(k, v)], r4)
                              else None
                          | EmptyString => None
                          end
                      | None => None
                      end
                    else None
                | EmptyString => None
                end
            | None => None
            end
          else None
      | EmptyString => None
      end
  end
with parseElems (fuel : nat) (s : string) {struct fuel}
    : option (list json * string) :=
  match fuel with
  | O => None
  | S f =>
      match parseValue f s with
      | Some (v, r1) =>
          match skipWs r1 with
          | String c r2 =>
              if Ascii.eqb c "," then
                match parseElems f r2 with
                | Some (vs, r3) => Some (v :: vs, r3)
                | None => None
                end
              else if Ascii.eqb c "]" then Some ([v], r2)
              else None
          | EmptyString => None
          end
      | None => None
      end
  end.

(** A whole text: one value and nothing but white space after it. A call
    of [parseValue] reads a character or is the second call since one was
    read, so twice the length is fuel enough. *)
Definition parseJson (s : string) : option json :=
  match parseValue (S (2 * String.length s)) s with
  | Some (v, rest) =>
      match skipWs rest with
      | EmptyString => Some v
      | _ => None
      end
  | None => None
  end.


Local Close Scope char_scope.

(** Decimal fields of fixed width. *)
Definition number (t : string) : option Z :=
  match t with
  | EmptyString => None
  | _ =>
      if forallb isDigit (list_ascii_of_string t) then Some (fst (parseDigits t 0))
      else None
  end.

Definition field (s : string) (pos width : nat) : option Z :=
  number (String.substring pos width s).

Definition charAt (s : string) (pos : nat) (c : ascii) : bool :=
  match String.get pos s with
  | Some c' => Ascii.eqb c c'
  | None => false
  end.

Arguments charAt s pos%_nat c%_char.
Arguments field s (pos width)%_nat.

Fixpoint zeros (n : nat) : string :=
  match n with O => EmptyString | S n' => String "0" (zeros n') end.

Definition pad (width : nat) (n : Z) : string :=
  let d := itoa n in
  (zeros (width - String.length d) ++ d)%string.

(** Days from 1970-01-01 to a date of the proleptic Gregorian calendar. *)
Definition daysFromCivil (y m d : Z) : Z :=
  let y' := if m <=? 2 then y - 1 else y in
  let era := y' / 400 in
  let yoe := y' - era * 400 in
  let doy := (153 * (if m >? 2 then m - 3 else m + 9) + 2) / 5 + d - 1 in
  let doe := yoe * 365 + yoe / 4 - yoe / 100 + doy in
  era * 146097 + doe - 719468.

(** [YYYY-MM-DDTHH:MM:SSZ] to nanoseconds since the epoch. *)
Definition parseRFC3339 (s : string) : option Z :=
  if (String.length s =? 20)%nat && charAt s 4 "-" && charAt s 7 "-" && charAt s 10 "T"
     && charAt s 13 ":" && charAt s 16 ":" && charAt s 19 "Z"
  then
    match field s 0 4, field s 5 2, field s 8 2, field s 11 2, field s 14 2, field s 17 2 with
    | Some y, Some m, Some d, Some hh, Some mm, Some ss =>
        if (1 <=? m) && (m <=? 12) && (1 <=? d) && (d <=? 31)
           && (hh <? 24) && (mm <? 60) && (ss <? 60)
        then Some ((((daysFromCivil y m d * 24 + hh) * 60 + mm) * 60 + ss) * 1000000000)
        else None
    | _, _, _, _, _, _ => None
    end
  else None.

(** A wall-clock time in UTC. *)
Record civil := Civil {
  year : Z; month : Z; day : Z; hour : Z; minute : Z; second : Z
}.

Definition zeroTime : civil := Civil 1 1 1 0 0 0.

Definition civil_IsZero (t : civil) : bool :=
  (year t =? 1) && (month t =? 1) && (day t =? 1)
  && (hour t =? 0) && (minute t =? 0) && (second t =? 0).

(** [time.Format] for layouts made of the fields [2006], [01], [02], [15],
    [04], [05] and of characters that stand for themselves. *)
Fixpoint format (fuel : nat) (layout : string) (t : civil) : string :=
  match fuel, layout with
  | S f, String c r =>
      let skip n := String.substring n (String.length layout - n) layout in
      if String.prefix "2006" layout then (pad 4 (year t) ++ format f (skip 4%nat) t)%string
      else if String.prefix "01" layout then (pad 2 (month t) ++ format f (skip 2%nat) t)%string
      else if String.prefix "02" layout then (pad 2 (day t) ++ format f (skip 2%nat) t)%string
      else if String.prefix "15" layout then (pad 2 (hour t) ++ format f (skip 2%nat) t)%string
      else if String.prefix "04" layout then (pad 2 (minute t) ++ format f (skip 2%nat) t)%string
      else if String.prefix "05" layout then (pad 2 (second t) ++ format f (skip 2%nat) t)%string
      else String c (format f r t)
  | _, _ => EmptyString
  end.

Definition civil_Format (layout : string) (t : civil) : string :=
  format (String.length layout) layout t.

(** The sample knows two interval expressions: the empty one (no window)
    and [YYYY-MM-DDTHH:MM:SSZ] (a start and no end). *)
Definition sampleParseInterval (s : string) : result (civil * civil) :=
  match s with
  | EmptyString => OK (zeroTime, zeroTime)
  | _ =>
      match parseRFC3339 s with
      | Some _ =>
          match field s 0 4, field s 5 2, field s 8 2, field s 11 2, field s 14 2, field s 17 2 with
          | Some y, Some m, Some d, Some hh, Some mm, Some ss =>
              OK (Civil y m d hh mm ss, zeroTime)
          | _, _, _, _, _, _ => Failed "invalid interval"
          end
      | None => Failed "invalid interval"
      end
  end.

Definition gzipHeader (b : bytes) : bool :=
  match b with
  | b0 :: b1 :: b2 :: rest =>
      Byte.eqb b0 x1f && Byte.eqb b1 x8b && Byte.eqb b2 x08 && (7 <=? List.length rest)%nat
  | _ => false
  end.

Definition unmarshalMap (body : string) : result (gmap string json) :=
  match parseJson body with
  | Some (JObject kvs) => OK (list_to_map (rev kvs))
  | Some JNull => OK ∅
  | Some _ => Failed "json: cannot unmarshal into Go value of type map[string]interface {}"
  | None => Failed "json: syntax error"
  end.

Definition member (v : json) (key : string) : option json :=
  match v with
  | JObject kvs => snd <$> List.find (fun kv => String.eqb (fst kv) key) (rev kvs)
  | _ => None
  end.

Definition stringOf (v : option json) : option string :=
  match v with
  | None | Some JNull => Some EmptyString
  | Some (JString t) => Some t
  | Some _ => None
  end.

Definition s3Record (v : json) : option (string * string) :=
  let s3v := default JNull (member v "s3") in
  match stringOf (member (default JNull (member s3v "bucket")) "name"),
        stringOf (member (default JNull (member s3v "object")) "key") with
  | Some b, Some k => Some (b, k)
  | _, _ => None
  end.

Definition unmarshalS3Event (message : string) : result (list (string * string)) :=
  match parseJson message with
  | Some (JObject kvs) =>
      match member (JObject kvs) "Records" with
      | None | Some JNull => OK []
      | Some (JArray records) =>
          match mapM s3Record records with
          | Some l => OK l
          | None => Failed "json: cannot unmarshal into Go value of type events.S3Event"
          end
      | Some _ => Failed "json: cannot unmarshal into Go value of type events.S3Event"
      end
  | Some JNull => OK []
  | _ => Failed "json: cannot unmarshal into Go value of type events.S3Event"
  end.

Definition unmarshalSnsMessage (message : string) : result (string * list string) :=
  match parseJson message with
  | Some (JObject kvs) =>
      match stringOf (member (JObject kvs) "s3Bucket"),
            match member (JObject kvs) "s3ObjectKey" with
            | None | Some JNull => Some []
            | Some (JArray keys) => mapM (fun k => stringOf (Some k)) keys
            | Some _ => None
            end with
      | Some b, Some keys => OK (b, keys)
      | _, _ => Failed "json: cannot unmarshal into Go value of type cloudtrail.snsMessage"
      end
  | Some JNull => OK (EmptyString, [])
  | _ => Failed "json: cannot unmarshal into Go value of type cloudtrail.snsMessage"
  end.

#[export] Instance sample : Externals := {
  gzip_NewReader := gzipHeader;
  gzip_ReadAll := fun _ => None;
  fastjson_Parse := parseJson;
  time_Parse := parseRFC3339;
  json_Unmarshal_map := unmarshalMap;
  json_Unmarshal_S3Event := unmarshalS3Event;
  json_Unmarshal_snsMessage := unmarshalSnsMessage;
  Time := civil;
  time_IsZero := civil_IsZero;
  time_Format := civil_Format;
  ParseInterval := sampleParseInterval;
  PluginName := "cloudtrail";
  RFC3339Simple := "2006-01-02T15:04:05Z"
}.

End Sample.

(** ** Sample sessions *)

Module Scenario.
Import Source Json.

Definition configOf (concurrency : Z) : PluginConfig :=
  {| S3DownloadConcurrency := concurrency; SQSDelete := true; UseS3SNS := false;
     S3Interval := ""; S3AccountList := "" |}.

(** A session as the open functions leave it, before the first pull. *)
Definition session (mode : OpenMode) (concurrency : Z) (fs : list fileInfo)
    : PluginInstance :=
  Instance mode (configOf concurrency) fs 0 [] 0
    (S3State "trail-bucket" (negb (OpenMode_eqb mode fileMode))
       (replicate (Z.to_nat concurrency) []) 0 0 0).

Definition noEvent : event := Event None [].

(** Two worlds where the event writer takes every byte and the queue holds
    [messages]: in [steady] every file has the same content, in [world] the
    bucket and the disk hold the files of [store] and no other. *)
Definition steady (content : bytes) (messages : list string) : IO :=
  {| sqs_ReceiveMessage := OK messages;
     sqs_DeleteMessage := None;
     s3_Download := fun _ _ => OK content;
     ioutil_ReadFile := fun _ => OK content;
     evt_Write := fun d => (len d, None) |}.

Definition world (store : list (string * bytes)) (messages : list string) : IO :=
  let content (key : string) : result bytes :=
    match List.find (fun kv => String.eqb (fst kv) key) store with
    | Some (_, b) => OK b
    | None => Failed "NoSuchKey"
    end in
  {| sqs_ReceiveMessage := OK messages;
     sqs_DeleteMessage := None;
     s3_Download := fun _ key => content key;
     ioutil_ReadFile := content;
     evt_Write := fun d => (len d, None) |}.

Definition trailFile : string := "123456789012_CloudTrail_us-east-1_20240101T0000Z_abc.json".

(** A file with one API call, one insight event, one record without type,
    and one record whose time is no time. *)
Definition trailRecords : list json :=
  [ JObject [("eventTime", JString "2024-01-01T00:00:00Z");
             ("eventType", JString "AwsApiCall")];
    JObject [("eventTime", JString "2024-01-01T00:00:01Z");
             ("eventType", JString "AwsCloudTrailInsight")];
    JObject [("eventTime", JString "2024-01-01T00:00:02Z")];
    JObject [("eventTime", JString "yesterday");
             ("eventType", JString "AwsApiCall")] ].

Definition trailBytes : bytes := Splitter.envelope (map render trailRecords).

(** The records of a small file, one of which holds a policy document with
    (matched) braces inside a string. *)
Definition sampleRecords : list json :=
  [ JObject [("eventTime", JString "2024-01-01T00:00:00Z");
             ("eventType", JString "AwsApiCall");
             ("requestParameters",
              JObject [("policyDocument", JString "{Version:1}")])];
    JObject [("eventTime", JString "2024-01-01T00:00:01Z");
             ("eventType", JString "AwsCloudTrailInsight")] ].

(** A record as a JSON text with white space, a fraction and an exponent:
    [{ "n" : 1.5e3 , "s" : { "t" : [ ] } }]. *)
Definition looseRecord : bytes :=
  b_of "{ " ++ [dquote] ++ b_of "n" ++ [dquote] ++ b_of " : 1.5e3 , "
  ++ [dquote] ++ b_of "s" ++ [dquote] ++ b_of " : { " ++ [dquote] ++ b_of "t" ++ [dquote]
  ++ b_of " : [ ] } }".

(** A local session with one file, after the five pulls that consume it. *)
Definition drained : PluginInstance :=
  (Producer.pulls (X := Sample.sample)
     (replicate 5 (world [(trailFile, trailBytes)] [], noEvent))
     (session fileMode 1 [FileInfo trailFile false])).2.

(** The key of a file of one region, with the timestamp [ts] in its name. *)
Definition keyAt (ts : string) : string :=
  ("AWSLogs/123456789012/CloudTrail/us-east-1/2024/01/01/123456789012_CloudTrail_us-east-1_"
   ++ ts ++ "Z_abc.json.gz")%string.

(** A bucket without common prefixes, every listing of which gives the one
    page [keys]. *)
Definition flatBucket (keys : list string) : Lister.S3 :=
  {| Lister.objectPages := fun _ _ _ => [Lister.Listed keys];
     Lister.commonPrefixPages := fun _ _ => [];
     Lister.ListObjectsV2 := fun _ _ => Lister.Listed [] |}.

(** A bucket with one region below every prefix, every listing of which
    gives the one page [keys]. *)
Definition regionBucket (keys : list string) : Lister.S3 :=
  {| Lister.objectPages := fun _ _ _ => [Lister.Listed keys];
     Lister.commonPrefixPages := fun _ _ => [];
     Lister.ListObjectsV2 := fun _ p => Lister.Listed [(p ++ "us-east-1/")%string] |}.

(** A session before [openS3], with an interval that has a start. *)
Definition unopened : PluginInstance :=
  Instance fileMode
    {| S3DownloadConcurrency := 2; SQSDelete := true; UseS3SNS := false;
       S3Interval := "2024-01-01T00:00:00Z"; S3AccountList := "" |}
    [] 0 [] 0 (S3State "" false [] 0 0 0).

(** A bucket that lists nothing. *)
Definition emptyBucket : Lister.S3 :=
  {| Lister.objectPages := fun _ _ _ => [];
     Lister.commonPrefixPages := fun _ _ => [];
     Lister.ListObjectsV2 := fun _ _ => Lister.Listed [] |}.

End Scenario.

(** ** Shapes of files, invariants of a session and expected outcomes *)

Module Shapes.
Import Splitter.

(** The inside of the outer object of a file as the splitter reads it: each
    record after bytes that hold no brace. *)
Fixpoint spaced (items : list (bytes * bytes)) : bytes :=
  match items with
  | [] => []
  | (filler, obj) :: items' => filler ++ obj ++ spaced items'
  end.

(** [entry] is a brace-matched range of [jsonStr] that ends before its last
    byte. *)
Definition rangeOf (jsonStr entry : bytes) : Prop :=
  braceMatched entry = true
  /\ exists pre post, jsonStr = pre ++ entry ++ post /\ post <> [].

(** The state of the scan after the bytes [seen] when a record is open:
    the record starts at [entryStart] with an opening brace, and the bytes
    read since leave [indentation - 2] braces open. *)
Definition pending (seen : bytes) (s : scan) : Prop :=
  2 <= indentation s ->
  exists pre mid, seen = pre ++ lbrace :: mid /\ len pre = entryStart s
    /\ forall tail, closes 0 (mid ++ tail) = closes (Z.to_nat (indentation s - 2)) tail.

End Shapes.

Module Invariant.
Import Source.

(** The cursors of a session are in the range of their Go types. *)
Definition filesInRange (c : PluginInstance) : Prop :=
  0 <= curFileNum c /\ len (files c) < 2 ^ 32.

Definition inRange (c : PluginInstance) : Prop :=
  0 <= evtJSONListPos c /\ 0 <= curFileNum c /\ len (files c) < 2 ^ 32.

(** The download state of a session whose every download so far succeeded,
    in a bucket where the object of key [k] has the bytes [body k]: the
    buffer array has one slot per concurrent download, the file cursor is at
    the file of the next slot to read, and the slots not yet read hold the
    bodies of the files that follow the cursor. *)
Definition aligned (body : string -> bytes) (c : PluginInstance) : Prop :=
  let st := s3 c in
  let D := S3DownloadConcurrency (config c) in
  1 <= D /\ len (DownloadBufs st) = D
  /\ 0 <= curBuf st <= nFilledBufs st /\ nFilledBufs st <= D
  /\ nFilledBufs st <= lastDownloadedFileNum st <= len (files c)
  /\ len (files c) < 2 ^ 32
  /\ curFileNum c = lastDownloadedFileNum st - nFilledBufs st + curBuf st
  /\ forall j file, curBuf st <= j < nFilledBufs st ->
       index (files c) (lastDownloadedFileNum st - nFilledBufs st + j) = Some file ->
       index (DownloadBufs st) j = Some (body (name file)).

(** During the call, every file of the session downloads with the bytes
    [body] gives for its key. *)
Definition stocked (io : IO) (body : string -> bytes) (c : PluginInstance) : Prop :=
  forall f, In f (files c) -> s3_Download io (bucket (s3 c)) (name f) = OK (body (name f)).

(** A session in the mode [mode] that satisfies [Inv] and has no record
    left in its buffer. *)
Definition between (mode : OpenMode) (Inv : PluginInstance -> Prop)
    (c : PluginInstance) : Prop :=
  openMode c = mode /\ Inv c /\ len (evtJSONStrings c) <= evtJSONListPos c.

End Invariant.

Module Session.
Import Source Producer.


(** A session that holds the one record [evtData], not yet popped. *)
Definition holding (evtData : bytes) : PluginInstance :=
  Instance fileMode
    {| S3DownloadConcurrency := 1; SQSDelete := false; UseS3SNS := false;
       S3Interval := ""; S3AccountList := "" |}
    [] 0 [evtData] 0 (S3State "" false [] 0 0 0).

Section WithExternals.
Context {X : Externals}.

(** The records of a file with the bytes [raw]; [None] when the file is
    flagged as compressed and does not inflate. *)
Definition recordsOf (file : fileInfo) (raw : bytes) : option (list bytes) :=
  match (if isCompressed file then gunzip raw else Some raw) with
  | Some data => Some (Splitter.extractRecordStrings data [])
  | None => None
  end.

(** The outcome of the pull that pops the record [evtData]. *)
Definition verdict (io : IO) (evtData : bytes) : outcome :=
  (nextRecord io (holding evtData) (Event None [])).1.1.

(** The outcomes of the pulls that one file takes, from what reading it
    gives: one pull for a file that cannot be read, that does not inflate or
    that holds no record, and one pull for each record otherwise. *)
Definition fileOutcomes (io : IO) (file : fileInfo) (r : fetched) : list outcome :=
  match r with
  | FetchPanic => [Panic]
  | FetchErr err => [Err err]
  | Bytes raw =>
      match recordsOf file raw with
      | None | Some [] => [Err ErrTimeout]
      | Some records => map (verdict io) records
      end
  end.

End WithExternals.
End Session.

(** ** More sample sessions *)

Module Fixtures.
Import Source Json Scenario Opener.

(** The sample trail file on disk and in the bucket, a local session over
    it, and that session after [n] pulls. *)
Definition trailWorld : IO := world [(trailFile, trailBytes)] [].

Definition trailSession : PluginInstance := session fileMode 1 [FileInfo trailFile false].

Definition afterPulls (n : nat) : PluginInstance :=
  (Producer.pulls (X := Sample.sample) (replicate n (trailWorld, noEvent)) trailSession).2.

(** The two sample records laid out on lines of their own, as CloudTrail
    writes them: each with the bytes before it. *)
Definition prettyItems : list (bytes * bytes) :=
  combine
    [ [dquote] ++ b_of "Records" ++ [dquote] ++ b_of ": [" ++ [x0a; x20; x20];
      b_of "," ++ [x0a; x20; x20] ]
    (map render sampleRecords).

(** A session as [Open] makes it before it calls an open function: the
    configuration and nothing else. *)
Definition zeroSession (cfg : PluginConfig) : PluginInstance :=
  Instance fileMode cfg [] 0 [] 0 (S3State "" false [] 0 0 0).

Definition queueConfig (useS3SNS : bool) : PluginConfig :=
  {| S3DownloadConcurrency := 2; SQSDelete := true; UseS3SNS := useS3SNS;
     S3Interval := ""; S3AccountList := "" |}.

(** The body of a queue message that notifies of [message]. *)
Definition notificationOf (message : json) : string :=
  s_of (render (JObject [("Type", JString "Notification");
                         ("Message", JString (s_of (render message)))])).





(** Three files in a bucket, and the bytes a download of a key gives. *)
Definition threeFiles : list fileInfo :=
  [FileInfo trailFile false; FileInfo "empty.json" false; FileInfo "b.json.gz" true].

Definition threeStore : list (string * bytes) :=
  [(trailFile, trailBytes); ("empty.json", b_of "{}"); ("b.json.gz", b_of "no gzip")].

Definition bodyOf (store : list (string * bytes)) (key : string) : bytes :=
  match s3_Download (world store []) "trail-bucket" key with
  | OK b => b
  | Failed _ => []
  end.


(** A bucket whose listing below an organization gives the pages [pages]. *)
Definition orgBucket (pages : list (Lister.listing (list string))) : Lister.S3 :=
  {| Lister.objectPages := fun _ _ _ => [];
     Lister.commonPrefixPages := fun _ _ => pages;
     Lister.ListObjectsV2 := fun _ _ => Lister.Listed [] |}.

Definition orgDirs : list string :=
  ["logs/AWSLogs/o-exampleorgid/111111111111/";
   "logs/AWSLogs/o-exampleorgid/CloudTrail-Digest/";
   "logs/AWSLogs/o-exampleorgid/222222222222/"].

(** A host with a directory of logs and a queue that is empty. *)
Definition logEntries : list (string * option bool) :=
  [("/logs", Some true); ("/logs/a.json", Some false); ("/logs/b.json.gz", Some false);
   ("/logs/notes.txt", Some false); ("/logs/old.json", Some true); ("/logs/c.json", None)].

Definition host : Host :=
  {| os_Stat := fun _ => None;
     filepath_Walk := fun _ => (logEntries, None);
     fmt_Errorf := fun format => format;
     sqs_GetQueueUrl := fun queueName _ => OK ("https://sqs.example/" ++ queueName)%string;
     answers := fun _ => steady [] [] |}.

End Fixtures.

(** * Properties *)

(** ** Record splitter *)

Section SplitterFacts.
Import Splitter.

Lemma len_app {A} (a b : list A) : len (a ++ b) = len a + len b.
Proof. unfold len. rewrite length_app. lia. Qed.

Lemma len_cons {A} (x : A) (l : list A) : len (x :: l) = 1 + len l.
Proof. unfold len. simpl List.length. lia. Qed.

Lemma len_nonneg {A} (l : list A) : 0 <= len l.
Proof. unfold len. lia. Qed.

Lemma len_nil {A} : len (@nil A) = 0.
Proof. reflexivity. Qed.

Ltac lens :=
  repeat (rewrite len_app in * || rewrite len_cons in * || rewrite len_nil in * );
  lia.

Lemma slice_middle {A} (pre mid post : list A) :
  slice (pre ++ mid ++ post) (len pre) (len pre + len mid) = mid.
Proof.
  unfold slice, len.
  replace (Z.to_nat (Z.of_nat (List.length pre))) with (List.length pre) by lia.
  rewrite drop_app_length.
  replace (Z.to_nat _) with (List.length mid) by lia.
  apply take_app_length.
Qed.

Lemma scanFrom_app js a b pos s :
  scanFrom js (a ++ b) pos s = scanFrom js b (pos + len a) (scanFrom js a pos s).
Proof.
  revert pos s. induction a as [|c a IH]; intros pos s; simpl.
  - f_equal. unfold len. simpl. lia.
  - rewrite IH. f_equal. rewrite len_cons. lia.
Qed.

Lemma step_other js pos c s :
  Byte.eqb c lbrace = false -> Byte.eqb c rbrace = false -> step js pos c s = s.
Proof. intros H1 H2. unfold step. now rewrite H1, H2. Qed.

Lemma scanFrom_braceFree js a pos s :
  braceFree a = true -> scanFrom js a pos s = s.
Proof.
  revert pos. induction a as [|c a IH]; intros pos H; simpl in *; [done|].
  apply andb_prop in H as [Hc Ha]. apply andb_prop in Hc as [H1 H2].
  apply negb_true_iff in H1, H2.
  rewrite step_other by done. now apply IH.
Qed.

Lemma scanFrom_closes js tl : forall d pos e r,
  closes d tl = true ->
  pos + len tl < len js ->
  scanFrom js tl pos (Scan (2 + Z.of_nat d) e r)
  = Scan 1 e (r ++ [slice js e (pos + len tl)]).
Proof.
  induction tl as [|c tl IH]; intros d pos e r Hc Hlen; simpl in Hc; [done|].
  rewrite len_cons in *. simpl scanFrom. unfold step. simpl indentation.
  simpl entryStart. simpl res.
  replace (pos + (1 + len tl)) with (pos + 1 + len tl) in * by lia.
  destruct (Byte.eqb c lbrace) eqn:Hl.
  - replace (2 + Z.of_nat d =? 1) with false by (symmetry; apply Z.eqb_neq; lia).
    replace (2 + Z.of_nat d + 1) with (2 + Z.of_nat (S d)) by lia.
    now apply IH.
  - destruct (Byte.eqb c rbrace) eqn:Hr.
    + destruct d as [|d'].
      * destruct tl; [|done]. simpl.
        replace (pos <? len js - 1) with true
          by (symmetry; apply Z.ltb_lt; unfold len in *; simpl in *; lia).
        replace (pos + 1 + len []) with (pos + 1) by (unfold len; simpl; lia).
        done.
      * replace (2 + Z.of_nat (S d') - 1 =? 1) with false
          by (symmetry; apply Z.eqb_neq; lia).
        replace (2 + Z.of_nat (S d') - 1) with (2 + Z.of_nat d') by lia.
        now apply IH.
    + now apply IH.
Qed.

(** A brace-matched object met at depth 1 and followed by at least one more
    byte is appended whole; the depth is 1 again after it. *)
Lemma scanFrom_record pre obj post e r :
  braceMatched obj = true ->
  post <> [] ->
  scanFrom (pre ++ obj ++ post) obj (len pre) (Scan 1 e r)
  = Scan 1 (len pre) (r ++ [obj]).
Proof.
  intros Hm Hpost. destruct obj as [|c s]; [done|]. simpl in Hm.
  apply andb_prop in Hm as [Hc Hs].
  simpl scanFrom. unfold step at 1. rewrite Hc. simpl.
  assert (Hpl : 0 < len post) by (destruct post; [done|rewrite len_cons; pose proof (len_nonneg post); lia]).
  change (1 + 1) with (2 + Z.of_nat 0).
  rewrite scanFrom_closes; [|done|lens].
  do 3 f_equal.
  replace (len pre + 1 + len s) with (len pre + len (c :: s)) by lens.
  apply (slice_middle pre (c :: s) post).
Qed.

Lemma braceFree_comma : braceFree (b_of ",") = true.
Proof. reflexivity. Qed.

Lemma scanFrom_records objs : forall pre post e r,
  Forall (fun o => braceMatched o = true) objs ->
  post <> [] ->
  exists e',
    scanFrom (pre ++ joinComma objs ++ post) (joinComma objs) (len pre) (Scan 1 e r)
    = Scan 1 e' (r ++ objs).
Proof.
  induction objs as [|o objs IH]; intros pre post e r Hall Hpost.
  - exists e. simpl. now rewrite app_nil_r.
  - inversion Hall as [|? ? Ho Hall']; subst.
    destruct objs as [|o' objs].
    + exists (len pre). simpl joinComma. now apply scanFrom_record.
    + change (joinComma (o :: o' :: objs))
        with (o ++ b_of "," ++ joinComma (o' :: objs)).
      set (J := joinComma (o' :: objs)) in *.
      destruct (IH (pre ++ o ++ b_of ",") post (len pre) (r ++ [o]) Hall' Hpost)
        as [e' He'].
      exists e'.
      rewrite !scanFrom_app.
      replace (pre ++ (o ++ b_of "," ++ J) ++ post)
        with (pre ++ o ++ (b_of "," ++ J ++ post)) by (now rewrite <- !app_assoc).
      rewrite scanFrom_record by done.
      rewrite (scanFrom_braceFree _ (b_of ",")) by apply braceFree_comma.
      replace (pre ++ o ++ b_of "," ++ J ++ post)
        with ((pre ++ o ++ b_of ",") ++ J ++ post) by (now rewrite <- !app_assoc).
      replace (len pre + len o + len (b_of ","))
        with (len (pre ++ o ++ b_of ",")) by (rewrite !len_app; lia).
      rewrite He'. now rewrite <- app_assoc.
Qed.

(** *** Brace counting over the text of a JSON value *)

Lemma bal_nil : bal [].
Proof. now intros d rest. Qed.

Lemma bal_app a b : bal a -> bal b -> bal (a ++ b).
Proof. intros Ha Hb d rest. now rewrite <- app_assoc, Ha, Hb. Qed.

Lemma bal_braceFree s : braceFree s = true -> bal s.
Proof.
  induction s as [|c s IH]; intros H d rest; [done|].
  simpl in H. apply andb_prop in H as [Hc Hs]. apply andb_prop in Hc as [H1 H2].
  apply negb_true_iff in H1, H2. simpl. rewrite H1, H2. now apply IH.
Qed.

Lemma bal_wrap s : bal s -> bal ([lbrace] ++ s ++ [rbrace]).
Proof.
  intros Hs d rest. simpl. rewrite <- app_assoc, Hs. reflexivity.
Qed.

Lemma braceMatched_wrap s : bal s -> braceMatched ([lbrace] ++ s ++ [rbrace]) = true.
Proof. intros Hs. simpl. now rewrite Hs. Qed.

End SplitterFacts.

Section JsonFacts.
Import Splitter Json.

Lemma escByte_braceFree c :
  braceFree (escByte c) = negb (Byte.eqb c lbrace) && negb (Byte.eqb c rbrace).
Proof. destruct c; reflexivity. Qed.

Lemma braceFree_app a b : braceFree (a ++ b) = braceFree a && braceFree b.
Proof. apply forallb_app. Qed.

Lemma quote_braceFree s : braceFree (b_of s) = true -> braceFree (quote s) = true.
Proof.
  intros H. unfold quote. rewrite !braceFree_app. simpl.
  rewrite andb_true_r. induction (b_of s) as [|c l IH]; [done|].
  simpl in *. apply andb_prop in H as [Hc Hl].
  now rewrite braceFree_app, escByte_braceFree, Hc, IH.
Qed.

Lemma string_of_uint_braceFree d :
  braceFree (b_of (NilEmpty.string_of_uint d)) = true.
Proof. induction d; simpl; try done. Qed.

Lemma renderZ_braceFree n : braceFree (renderZ n) = true.
Proof.
  unfold renderZ. destruct (Z.to_int n) as [d|d]; simpl.
  - destruct d; try done; apply (string_of_uint_braceFree (_ d)).
  - destruct d; try done; apply (string_of_uint_braceFree (_ d)).
Qed.

Lemma bal_joinComma l : Forall bal l -> bal (joinComma l).
Proof.
  induction 1 as [|x l Hx Hl IH]; [apply bal_nil|].
  destruct l as [|y l]; [exact Hx|].
  change (joinComma (x :: y :: l)) with (x ++ b_of "," ++ joinComma (y :: l)).
  apply bal_app; [exact Hx|]. apply bal_app; [now apply bal_braceFree|exact IH].
Qed.

Lemma Forall_impl_strong {A} (Q R : A -> Prop) l :
  Forall (fun x => Q x -> R x) l -> Forall Q l -> Forall R l.
Proof. induction 1; inversion 1; subst; constructor; auto. Qed.

Lemma forallb_Forall_true {A} (f : A -> bool) l :
  forallb f l = true -> Forall (fun x => f x = true) l.
Proof.
  induction l as [|x l IH]; simpl; intros H; constructor;
    apply andb_prop in H as [? ?]; auto.
Qed.

Lemma render_bal v : stringsBraceFree v = true -> bal (render v).
Proof.
  induction v as [| | |n|s|elems IH|kvs IH] using json_nested_ind; intros Hv;
    simpl in Hv; cbn [render].
  - now apply bal_braceFree.
  - now apply bal_braceFree.
  - now apply bal_braceFree.
  - apply bal_braceFree, renderZ_braceFree.
  - now apply bal_braceFree, quote_braceFree.
  - apply bal_app; [now apply bal_braceFree|]. apply bal_app; [|now apply bal_braceFree].
    apply bal_joinComma. apply Forall_map.
    apply forallb_Forall_true in Hv. revert Hv. apply Forall_impl_strong. exact IH.
  - apply bal_wrap.
    apply bal_joinComma. apply Forall_map.
    apply forallb_Forall_true in Hv. revert Hv. apply Forall_impl_strong.
    revert IH. apply List.Forall_impl. intros [k x] IHx Hkx. unfold compose. cbn [fst snd] in *.
    apply andb_prop in Hkx as [Hk Hx].
    apply bal_app; [now apply bal_braceFree, quote_braceFree|].
    apply bal_app; [now apply bal_braceFree|]. now apply IHx.
Qed.

(** The text of an object none of whose strings holds a brace is
    brace-matched. *)
Lemma render_braceMatched v :
  isObject v = true -> stringsBraceFree v = true -> braceMatched (render v) = true.
Proof.
  intros Ho Hv. destruct v as [| | | | | |kvs]; try done.
  cbn [render]. apply braceMatched_wrap.
  apply bal_joinComma, Forall_map.
  cbn [stringsBraceFree] in Hv. apply forallb_Forall_true in Hv.
  revert Hv. apply List.Forall_impl. intros [k x] Hkx. unfold compose.
  cbn [fst snd] in *. apply andb_prop in Hkx as [Hk Hx].
  apply bal_app; [now apply bal_braceFree, quote_braceFree|].
  apply bal_app; [now apply bal_braceFree|]. now apply render_bal.
Qed.

End JsonFacts.

(** ** Claims about the record splitter *)

Section SplitterClaims.
Import Splitter Json Scenario.

(** C1 (as amended). For every envelope [{"Records":[obj_1,...,obj_K]}],
    [K >= 0], whose inner objects are byte strings with matched braces
    (counting every brace byte, those inside string literals too; the text
    of a JSON object none of whose strings holds a brace is one, with any
    white space and any numbers), [extractRecordStrings] appends exactly
    the [K] inner objects, in source order and byte for byte; with [K = 0]
    nothing is appended. Every well-formed envelope ends with the two bytes
    that close the array and the outer object, so the closing brace of the
    last record is not the last byte of the file. *)
Theorem C1_splitter_brace_matched (objs : list bytes) (res0 : list bytes) :
  Forall (fun o => braceMatched o = true) objs ->
  extractRecordStrings (envelope objs) res0 = res0 ++ objs
  /\ List.length (extractRecordStrings (envelope objs) []) = List.length objs.
Proof.
  intros Hall.
  assert (Hres : forall r, extractRecordStrings (envelope objs) r = r ++ objs).
  { intros r. unfold extractRecordStrings, envelope.
    set (js := envelopeHead ++ joinComma objs ++ b_of "]}").
    destruct (scanFrom_records objs envelopeHead (b_of "]}") 0 r Hall) as [e' He'];
      [done|].
    fold js in He'.
    unfold js at 2. rewrite scanFrom_app.
    assert (Hhead : scanFrom js envelopeHead 0 (Scan 0 0 r) = Scan 1 0 r).
    { reflexivity. }
    rewrite Hhead, scanFrom_app. rewrite Z.add_0_l, He'. reflexivity. }
  split; [apply Hres|]. now rewrite Hres.
Qed.

(** The envelope of the two sample records, one with matched braces inside
    a string, and of a record written with white space, a fraction and an
    exponent. *)
Lemma C1_splitter_brace_matched_witness :
  let objs := map render sampleRecords ++ [looseRecord] in
  extractRecordStrings (envelope objs) [] = [] ++ objs
  /\ List.length (extractRecordStrings (envelope objs) []) = List.length objs.
Proof.
  apply (C1_splitter_brace_matched (map render sampleRecords ++ [looseRecord]) []).
  repeat constructor.
Defined.

(** C1 (as stated) fails: the one inner object of this well-formed envelope
    has a string value that holds an opening brace, and the splitter appends
    no range at all for it. *)
Lemma C1_brace_inside_string :
  isObject (JObject [("a", JString "{")]) = true
  /\ extractRecordStrings (envelope (map render [JObject [("a", JString "{")]])) []
     = [].
Proof. split; reflexivity. Qed.

(** A closing brace inside a string cuts the range short. *)
Example splitter_closing_brace_inside_string :
  let obj := render (JObject [("a", JString "}")]) in
  extractRecordStrings (envelope [obj]) [] = [take 7 obj] /\ take 7 obj <> obj.
Proof. split; [reflexivity|discriminate]. Qed.

End SplitterClaims.

Example sample_parse_roundtrip :
  map (fun v => Sample.parseJson (s_of (Json.render v))) Scenario.sampleRecords
  = map Some Scenario.sampleRecords.
Proof. vm_compute. reflexivity. Qed.

Example sample_times :
  Sample.parseRFC3339 "2024-01-01T00:00:00Z" = Some 1704067200000000000
  /\ Sample.parseRFC3339 "1970-01-01T00:00:01Z" = Some 1000000000
  /\ Sample.civil_Format "20060102T1504" (Sample.Civil 2024 3 9 7 5 0) = "20240309T0705"
  /\ Sample.civil_Format "2006/01/02/" (Sample.Civil 2024 3 9 7 5 0) = "2024/03/09/".
Proof. vm_compute. repeat split. Qed.

(** ** The pull state machine *)

Section ProducerFacts.
Import Source Producer.
Context {X : Externals}.


Lemma sameCursor_refl c : sameCursor c c.
Proof. now repeat split. Qed.

Lemma sameCursor_trans c1 c2 c3 :
  sameCursor c1 c2 -> sameCursor c2 c3 -> sameCursor c1 c3.
Proof. unfold sameCursor. intuition congruence. Qed.

Lemma initS3_frame c c' :
  initS3 c = Some c' -> sameCursor c c' /\ files c' = files c.
Proof.
  unfold initS3. intros H. repeat case_match; simplify_eq;
    split; try reflexivity; now repeat split.
Qed.

Lemma addS3Records_frame records : forall s3Init lastBucket c c',
  addS3Records records s3Init lastBucket c = Some c' ->
  sameCursor c c' /\ exists new, files c' = files c ++ new
                              /\ List.length new = List.length records.
Proof.
  induction records as [|[b k] records IH]; intros s3Init lastBucket c c' H;
    simpl in H.
  - simplify_eq. split; [apply sameCursor_refl|]. exists []. now rewrite app_nil_r.
  - destruct (negb s3Init || negb (String.eqb b lastBucket)) eqn:He.
    + destruct (negb s3Init) eqn:Hi.
      * destruct (initS3 _) as [c1|] eqn:H1; [|done].
        apply initS3_frame in H1 as [Hs Hf].
        apply IH in H as [Hs' (new & Hn & Hl)].
        split; [eapply sameCursor_trans; [|exact Hs']; exact Hs|].
        exists (FileInfo k (HasSuffix k ".json.gz") :: new). split; [|simpl; lia].
        rewrite Hn. simpl. rewrite Hf. simpl. now rewrite <- app_assoc.
      * apply IH in H as [Hs' (new & Hn & Hl)].
        split; [exact Hs'|].
        exists (FileInfo k (HasSuffix k ".json.gz") :: new). split; [|simpl; lia].
        rewrite Hn. simpl. now rewrite <- app_assoc.
    + apply IH in H as [Hs' (new & Hn & Hl)].
      split; [exact Hs'|].
      exists (FileInfo k (HasSuffix k ".json.gz") :: new). split; [|simpl; lia].
      rewrite Hn. simpl. now rewrite <- app_assoc.
Qed.

(** A poll changes the file list and the S3 state only, and the file list
    by appending. *)
Lemma getMoreSQSFiles_frame io c o c' :
  getMoreSQSFiles io c = (o, c') ->
  sameCursor c c' /\ exists new, files c' = files c ++ new.
Proof.
  unfold getMoreSQSFiles. intros H.
  repeat case_match; simplify_eq;
    try (split; [apply sameCursor_refl|exists []; now rewrite app_nil_r]).
  all: try (match goal with H : addS3Records _ _ _ _ = Some _ |- _ =>
      apply addS3Records_frame in H as [Hs (new & Hn & _)] end;
      split; [exact Hs|now exists new]).
  all: match goal with H : initS3 _ = Some _ |- _ =>
      apply initS3_frame in H as [Hs Hf] end;
    split; [|unfold addKeys; simpl; rewrite Hf; simpl; eauto];
    unfold sameCursor, addKeys in *; simpl in *; exact Hs.
Qed.

(** A download step changes the S3 state only. *)
Lemma readNextFileS3_frame io c r c' :
  readNextFileS3 io c = (r, c') -> sameCursor c c' /\ files c' = files c.
Proof.
  unfold readNextFileS3. intros H.
  repeat case_match; simplify_eq; split; try reflexivity; now repeat split.
Qed.

Lemma fetchFile_frame io file c r c' :
  fetchFile io file c = (r, c') -> sameCursor c c' /\ files c' = files c.
Proof.
  unfold fetchFile. intros H. destruct (openMode c); simplify_eq;
    try (now apply readNextFileS3_frame in H).
  split; [apply sameCursor_refl|done].
Qed.

(** Errors that come from the world are never sentinels. *)
Lemma getMoreSQSFiles_err io c e c' :
  getMoreSQSFiles io c = (Err e, c') -> exists msg, e = ErrOther msg.
Proof.
  unfold getMoreSQSFiles. intros H. repeat case_match; simplify_eq; eauto.
Qed.

Lemma readNextFileS3_err io c e c' :
  readNextFileS3 io c = (FetchErr e, c') -> exists msg, e = ErrOther msg.
Proof.
  unfold readNextFileS3. intros H. repeat case_match; simplify_eq; eauto.
Qed.

Lemma fetchFile_err io file c e c' :
  fetchFile io file c = (FetchErr e, c') -> exists msg, e = ErrOther msg.
Proof.
  unfold fetchFile, readFileLocal. intros H.
  repeat case_match; simplify_eq; eauto using readNextFileS3_err.
Qed.

Lemma nextRecord_not_EOF io c evt : (nextRecord io c evt).1.1 <> Err ErrEOF.
Proof. unfold nextRecord. repeat case_match; simpl; congruence. Qed.

(** [moreFiles] returns end-of-stream for an exhausted non-queue session,
    without touching the state, and in no other case. *)
Lemma moreFiles_EOF io c :
  openMode c <> sqsMode ->
  (curFileNum c >=? uint32 (len (files c))) = true ->
  moreFiles io c = Return (Err ErrEOF) c.
Proof. intros Hm Hc. unfold moreFiles. rewrite Hc. now destruct (openMode c). Qed.

Lemma moreFiles_EOF_inv io c c' :
  moreFiles io c = Return (Err ErrEOF) c' ->
  openMode c <> sqsMode
  /\ (curFileNum c >=? uint32 (len (files c))) = true /\ c' = c.
Proof.
  unfold moreFiles. intros H.
  destruct (curFileNum c >=? uint32 (len (files c))) eqn:Hc; [|done].
  destruct (openMode c) eqn:Hm; simplify_eq; try done.
  destruct (getMoreSQSFiles io c) as [o c1] eqn:Hg.
  destruct o as [|e|]; [case_match; simplify_eq| |simplify_eq].
  apply getMoreSQSFiles_err in Hg as [msg ->]. simplify_eq.
Qed.

Lemma openNextFile_EOF_inv io c c' :
  openNextFile io c = Return (Err ErrEOF) c' ->
  moreFiles io c = Return (Err ErrEOF) c'.
Proof.
  unfold openNextFile. intros H.
  destruct (moreFiles io c) as [o c1|c1] eqn:Hmf; [now simplify_eq|].
  destruct (index (files c1) (curFileNum c1)) as [file|]; [|done].
  destruct (fetchFile io file _) as [r c2] eqn:Hf.
  destruct r as [b|e|]; [|apply fetchFile_err in Hf as [msg ->]; simplify_eq|done].
  repeat case_match; simplify_eq.
Qed.

Lemma nextEvent_EOF io c evt :
  openMode c <> sqsMode ->
  (evtJSONListPos c >=? len (evtJSONStrings c)) = true ->
  (curFileNum c >=? uint32 (len (files c))) = true ->
  nextEvent io c evt = (Err ErrEOF, c, evt).
Proof.
  intros Hm Hp Hc. unfold nextEvent, fillBuffer, openNextFile.
  now rewrite Hp, (moreFiles_EOF io c Hm Hc).
Qed.

Lemma nextEvent_EOF_inv io c evt :
  (nextEvent io c evt).1.1 = Err ErrEOF ->
  openMode c <> sqsMode
  /\ (evtJSONListPos c >=? len (evtJSONStrings c)) = true
  /\ (curFileNum c >=? uint32 (len (files c))) = true.
Proof.
  unfold nextEvent, fillBuffer. intros H.
  destruct (evtJSONListPos c >=? len (evtJSONStrings c)) eqn:Hp.
  - destruct (openNextFile io c) as [o c1|c1] eqn:Ho.
    + simpl in H. subst o. apply openNextFile_EOF_inv, moreFiles_EOF_inv in Ho.
      tauto.
    + now apply nextRecord_not_EOF in H.
  - now apply nextRecord_not_EOF in H.
Qed.

Lemma pulls_EOF calls : forall c,
  openMode c <> sqsMode ->
  (evtJSONListPos c >=? len (evtJSONStrings c)) = true ->
  (curFileNum c >=? uint32 (len (files c))) = true ->
  pulls calls c = (replicate (List.length calls) (Err ErrEOF), c).
Proof.
  induction calls as [|[io evt] calls IH]; intros c Hm Hp Hc; [done|].
  simpl. rewrite (nextEvent_EOF io c evt Hm Hp Hc), (IH c Hm Hp Hc). done.
Qed.

(** A pull of an exhausted queue session whose poll adds no file. *)
Lemma nextEvent_emptyPoll io c evt :
  openMode c = sqsMode ->
  (evtJSONListPos c >=? len (evtJSONStrings c)) = true ->
  (curFileNum c >=? uint32 (len (files c))) = true ->
  (getMoreSQSFiles io c).1 = Nil ->
  files (getMoreSQSFiles io c).2 = files c ->
  nextEvent io c evt = (Err ErrTimeout, (getMoreSQSFiles io c).2, evt).
Proof.
  intros Hm Hp Hc Ho Hf. unfold nextEvent, fillBuffer, openNextFile, moreFiles.
  rewrite Hp, Hc, Hm.
  destruct (getMoreSQSFiles io c) as [o c1] eqn:Hg. simpl in *. subst o.
  apply getMoreSQSFiles_frame in Hg as [(_ & _ & Hcur & _) _].
  now rewrite Hf, Hcur, Hc.
Qed.

Lemma pulls_emptyPolls calls : forall c,
  openMode c = sqsMode ->
  (evtJSONListPos c >=? len (evtJSONStrings c)) = true ->
  (curFileNum c >=? uint32 (len (files c))) = true ->
  emptyPolls calls c ->
  (pulls calls c).1 = replicate (List.length calls) (Err ErrTimeout).
Proof.
  induction calls as [|[io evt] calls IH]; intros c Hm Hp Hc He; [done|].
  destruct He as (Ho & Hf & He). simpl.
  rewrite (nextEvent_emptyPoll io c evt Hm Hp Hc Ho Hf).
  destruct (getMoreSQSFiles io c) as [o c1] eqn:Hg. simpl in *.
  apply getMoreSQSFiles_frame in Hg as [(Hm1 & _ & Hcur & Hs & Hpos) _].
  specialize (IH c1). destruct (pulls calls c1) as [os c2]. simpl in *.
  f_equal. apply IH; [congruence| |now rewrite Hcur, Hf|done].
  now rewrite Hs, Hpos.
Qed.

(** *** The file cursor *)

Lemma uint32_range n : 0 <= uint32 n < 2 ^ 32.
Proof. unfold uint32. apply Z.mod_pos_bound. lia. Qed.

Lemma uint32_succ_gt cur n : cur < uint32 n -> cur < uint32 (cur + 1).
Proof.
  intros H. pose proof (uint32_range n). pose proof (uint32_range (cur + 1)).
  destruct (Z.lt_ge_cases cur 0) as [Hneg|Hpos]; [lia|].
  unfold uint32 in *. rewrite (Z.mod_small (cur + 1)); lia.
Qed.

Lemma moreFiles_Return io c o c' :
  moreFiles io c = Return o c' -> sameCursor c c'.
Proof.
  unfold moreFiles. intros H.
  destruct (curFileNum c >=? uint32 (len (files c))); [|done].
  destruct (openMode c); simplify_eq; try apply sameCursor_refl.
  destruct (getMoreSQSFiles io c) as [o1 c1] eqn:Hg.
  apply getMoreSQSFiles_frame in Hg as [Hs _].
  repeat case_match; simplify_eq; exact Hs.
Qed.

Lemma moreFiles_Continue io c c' :
  moreFiles io c = Continue c' ->
  sameCursor c c' /\ curFileNum c' < uint32 (len (files c')).
Proof.
  unfold moreFiles. intros H.
  destruct (curFileNum c >=? uint32 (len (files c))) eqn:Hc.
  - destruct (openMode c); simplify_eq.
    destruct (getMoreSQSFiles io c) as [o1 c1] eqn:Hg.
    apply getMoreSQSFiles_frame in Hg as [Hs _].
    destruct o1; simplify_eq.
    destruct (curFileNum c1 >=? uint32 (len (files c1))) eqn:Hc1; simplify_eq.
    split; [exact Hs|lia].
  - simplify_eq. split; [apply sameCursor_refl|lia].
Qed.

Lemma openNextFile_cursor io c :
  match openNextFile io c with
  | Return _ c' | Continue c' => curFileNum c <= curFileNum c'
  end.
Proof.
  unfold openNextFile.
  destruct (moreFiles io c) as [o c1|c1] eqn:Hmf.
  - apply moreFiles_Return in Hmf as (_ & _ & Hcur & _). lia.
  - apply moreFiles_Continue in Hmf as [(_ & _ & Hcur & _) Hlt].
    destruct (index (files c1) (curFileNum c1)) as [file|]; [|lia].
    destruct (fetchFile io file _) as [r c2] eqn:Hf.
    apply fetchFile_frame in Hf as [(_ & _ & Hcur2 & _) _]. simpl in Hcur2.
    apply uint32_succ_gt in Hlt.
    repeat case_match; simplify_eq; simpl; lia.
Qed.

Lemma nextRecord_cursor io c evt :
  curFileNum (nextRecord io c evt).1.2 = curFileNum c.
Proof. unfold nextRecord. repeat case_match; reflexivity. Qed.

(** The file cursor never moves back. *)
Lemma nextEvent_cursor io c evt :
  curFileNum c <= curFileNum (nextEvent io c evt).1.2.
Proof.
  unfold nextEvent, fillBuffer.
  destruct (evtJSONListPos c >=? len (evtJSONStrings c)).
  - pose proof (openNextFile_cursor io c) as H.
    destruct (openNextFile io c) as [o c1|c1]; [exact H|].
    rewrite nextRecord_cursor. exact H.
  - rewrite nextRecord_cursor. lia.
Qed.

Lemma pulls_cursor calls : forall c,
  curFileNum c <= curFileNum (pulls calls c).2.
Proof.
  induction calls as [|[io evt] calls IH]; intros c; simpl; [lia|].
  pose proof (nextEvent_cursor io c evt) as H1.
  destruct (nextEvent io c evt) as [[o c1] evt1]. simpl in H1.
  specialize (IH c1). destruct (pulls calls c1) as [os c2]. simpl in *. lia.
Qed.

(** *** Pulls that nothing of the world fails *)




(** *** Malformed content *)

(** A file flagged as compressed that does not inflate. *)
Lemma nextEvent_corrupt_gzip io c evt c1 c2 file tmpStr :
  (evtJSONListPos c >=? len (evtJSONStrings c)) = true ->
  moreFiles io c = Continue c1 ->
  index (files c1) (curFileNum c1) = Some file ->
  isCompressed file = true ->
  fetchFile io file (set_curFileNum (uint32 (curFileNum c1 + 1)) c1) = (Bytes tmpStr, c2) ->
  gunzip tmpStr = None ->
  nextEvent io c evt = (Err ErrTimeout, c2, evt).
Proof.
  intros Hp Hmf Hfile Hz Hfetch Hgz.
  unfold nextEvent, fillBuffer, openNextFile.
  now rewrite Hp, Hmf, Hfile, Hfetch, Hz, Hgz.
Qed.

Lemma index_Some_len {A} (l : list A) i x : index l i = Some x -> (len l =? 0) = false.
Proof.
  unfold index. intros H. apply Z.eqb_neq.
  destruct (i <? 0); [done|]. apply lookup_lt_Some in H. unfold len. lia.
Qed.


(** *** Download batches *)

(** A wave without failure fills the slots [j], [j+1], ... with the bodies
    of the files of the batch, in order, and sends no error. *)
Lemma s3DownloadAll_ok io b (body : string -> bytes) batch : forall j bufs,
  (forall f, In f batch -> s3_Download io b (name f) = OK (body (name f))) ->
  (j + List.length batch <= List.length bufs)%nat ->
  s3DownloadAll io b batch j bufs
  = Some (take j bufs ++ map (fun f => body (name f)) batch
            ++ drop (j + List.length batch) bufs, []).
Proof.
  induction batch as [|f batch IH]; intros j bufs Hd Hlen; simpl.
  - rewrite Nat.add_0_r, take_drop. done.
  - simpl in Hlen. rewrite (Hd f) by now left.
    replace (j <? List.length bufs)%nat with true
      by (symmetry; apply Nat.ltb_lt; lia).
    rewrite IH; [|intros; apply Hd; now right|rewrite length_insert; lia].
    assert (Hj : (j < List.length bufs)%nat) by lia.
    rewrite (take_S_r _ j (body (name f))) by (now apply list_lookup_insert_eq).
    rewrite take_insert_ge by lia.
    rewrite drop_insert_lt by lia.
    rewrite <- app_assoc. simpl.
    now replace (j + S (List.length batch))%nat with (S (j + List.length batch)) by lia.
Qed.

(** The calls that find a filled slot. *)
Lemma reads_slots ios : forall c,
  0 <= curBuf (s3 c) ->
  curBuf (s3 c) + len ios <= nFilledBufs (s3 c) ->
  curBuf (s3 c) + len ios <= len (DownloadBufs (s3 c)) ->
  (reads ios c).1
  = map Bytes (slice (DownloadBufs (s3 c)) (curBuf (s3 c)) (curBuf (s3 c) + len ios))
  /\ (reads ios c).2 = set_s3 (set_curBuf (curBuf (s3 c) + len ios) (s3 c)) c.
Proof.
  induction ios as [|io ios IH]; intros c H0 Hn Hl.
  - simpl. unfold slice. rewrite len_nil, Z.add_0_r, Z.sub_diag. simpl.
    split; [done|]. destruct c as [? ? ? ? ? ? []]; reflexivity.
  - rewrite len_cons in *. simpl reads. unfold readNextFileS3.
    replace (curBuf (s3 c) <? nFilledBufs (s3 c)) with true
      by (symmetry; apply Z.ltb_lt; pose proof (len_nonneg ios); lia).
    pose proof (len_nonneg ios) as Hi.
    assert (Hlk : exists b, index (DownloadBufs (s3 c)) (curBuf (s3 c)) = Some b
                         /\ slice (DownloadBufs (s3 c)) (curBuf (s3 c))
                              (curBuf (s3 c) + (1 + len ios))
                            = b :: slice (DownloadBufs (s3 c)) (curBuf (s3 c) + 1)
                                   (curBuf (s3 c) + 1 + len ios)).
    { unfold index, slice.
      replace (curBuf (s3 c) <? 0) with false by (symmetry; apply Z.ltb_ge; lia).
      destruct (lookup_lt_is_Some_2 (DownloadBufs (s3 c)) (Z.to_nat (curBuf (s3 c))))
        as [b Hb]; [unfold len in *; lia|].
      exists b. split; [exact Hb|].
      replace (Z.to_nat (curBuf (s3 c) + (1 + len ios) - curBuf (s3 c)))
        with (S (Z.to_nat (len ios))) by lia.
      rewrite (drop_S _ b _ Hb). simpl.
      replace (Z.to_nat (curBuf (s3 c) + 1)) with (S (Z.to_nat (curBuf (s3 c)))) by lia.
      do 2 f_equal. lia. }
    destruct Hlk as (b & Hb & Hslice). rewrite Hb, Hslice.
    set (c1 := set_s3 (set_curBuf (curBuf (s3 c) + 1) (s3 c)) c).
    destruct (IH c1) as [IH1 IH2]; simpl; try lia.
    destruct (reads ios c1) as [rs c2]. simpl in *.
    split; [now rewrite IH1|]. rewrite IH2. unfold c1, set_s3, set_curBuf. simpl.
    do 2 f_equal. lia.
Qed.

Lemma slice_length {A} (l : list A) lo n :
  0 <= lo -> 0 <= n -> lo + n <= len l -> len (slice l lo (lo + n)) = n.
Proof.
  intros H0 Hn Hl. unfold slice, len in *.
  rewrite length_take, length_drop. lia.
Qed.

Lemma slice_slice {A} (l : list A) lo n m :
  0 <= lo -> 0 <= m <= n ->
  slice (slice l lo (lo + n)) 0 m = slice l lo (lo + m).
Proof.
  intros H0 Hm. unfold slice.
  replace (Z.to_nat (m - 0)) with (Z.to_nat m) by lia.
  replace (Z.to_nat (lo + n - lo)) with (Z.to_nat n) by lia.
  replace (Z.to_nat (lo + m - lo)) with (Z.to_nat m) by lia.
  change (Z.to_nat 0) with 0%nat. rewrite drop_0, take_take. f_equal. lia.
Qed.

(** The call that starts a batch, when no download of the batch fails. *)
Lemma readNextFileS3_batch io c (body : string -> bytes) :
  let D := S3DownloadConcurrency (config c) in
  let k := lastDownloadedFileNum (s3 c) in
  let n := Z.min D (len (files c) - k) in
  let batch := slice (files c) k (k + n) in
  let bufs := map (fun f => body (name f)) batch
              ++ drop (Z.to_nat n) (DownloadBufs (s3 c)) in
  1 <= D ->
  len (DownloadBufs (s3 c)) = D ->
  nFilledBufs (s3 c) <= curBuf (s3 c) ->
  0 <= k < len (files c) ->
  (forall f, In f batch -> s3_Download io (bucket (s3 c)) (name f) = OK (body (name f))) ->
  (reads [io] c).1 = map Bytes (slice bufs 0 1)
  /\ (reads [io] c).2
     = set_s3 (S3State (bucket (s3 c)) (client (s3 c)) bufs (k + n) n 1) c.
Proof.
  intros D k n batch bufs HD Hbufs Hcur Hk Hdl.
  assert (Hn : 1 <= n <= D) by (unfold n; lia).
  assert (Hnk : k + n <= len (files c)) by (unfold n; lia).
  assert (Hbatch : len batch = n) by (apply slice_length; lia).
  simpl reads. unfold readNextFileS3.
  replace (curBuf (s3 c) <? nFilledBufs (s3 c)) with false
    by (symmetry; apply Z.ltb_ge; lia).
  fold D k. replace (D <? 0) with false by (symmetry; apply Z.ltb_ge; lia).
  fold n. replace ((k <? 0) || (n <? 0)) with false
    by (symmetry; apply orb_false_iff; split; apply Z.ltb_ge; lia).
  simpl DownloadBufs. simpl bucket. fold batch.
  rewrite (s3DownloadAll_ok io _ body batch 0 (DownloadBufs (s3 c)) Hdl)
    by (unfold len in *; lia).
  simpl take. simpl app.
  replace (List.length batch) with (Z.to_nat n) by (unfold len in *; lia).
  subst bufs. clearbody batch.
  destruct batch as [|f0 batch']; [rewrite len_nil in Hbatch; lia|].
  split; reflexivity.
Qed.

Lemma reads_cons io ios c :
  reads (io :: ios) c
  = ((reads [io] c).1 ++ (reads ios (reads [io] c).2).1,
     (reads ios (reads [io] c).2).2).
Proof.
  simpl. destruct (readNextFileS3 io c) as [r c1]. simpl.
  now destruct (reads ios c1).
Qed.

Lemma slice_app_slice {A} (l : list A) a b d :
  0 <= a <= b -> b <= d ->
  slice l a b ++ slice l b d = slice l a d.
Proof.
  intros Hab Hbd. unfold slice.
  replace (Z.to_nat (d - a)) with (Z.to_nat (b - a) + Z.to_nat (d - b))%nat by lia.
  rewrite <- take_take_drop, drop_drop. do 3 f_equal. lia.
Qed.

Lemma slice_app_l {A} (l1 l2 : list A) m :
  0 <= m <= len l1 -> slice (l1 ++ l2) 0 m = slice l1 0 m.
Proof.
  intros Hm. unfold slice. change (Z.to_nat 0) with 0%nat. rewrite !drop_0.
  apply take_app_le. unfold len in *. lia.
Qed.

Lemma slice_map {A B} (f : A -> B) (l : list A) lo hi :
  slice (map f l) lo hi = map f (slice l lo hi).
Proof. unfold slice. now rewrite skipn_map, firstn_map. Qed.

End ProducerFacts.

(** ** Claims about the pull state machine *)

Section ProducerClaims.
Import Source Producer Scenario.

(** C3. For a session whose origin is local or direct S3, once a pull
    returns end-of-stream it has left the session state unchanged, and every
    later pull returns end-of-stream and leaves the state unchanged too. *)
Theorem C3_end_of_stream_is_terminal {X : Externals}
    (io : IO) (evt : event) (c : PluginInstance) (calls : list (IO * event)) :
  openMode c <> sqsMode ->
  (nextEvent io c evt).1.1 = Err ErrEOF ->
  (nextEvent io c evt).1.2 = c
  /\ (pulls calls c).1 = replicate (List.length calls) (Err ErrEOF)
  /\ (pulls calls c).2 = c.
Proof.
  intros Hm H. apply nextEvent_EOF_inv in H as (_ & Hp & Hc).
  rewrite (nextEvent_EOF io c evt Hm Hp Hc), (pulls_EOF calls c Hm Hp Hc). done.
Qed.

(** The local session over the sample file, once its records are consumed. *)
Lemma C3_end_of_stream_is_terminal_witness :
  let io := world [(trailFile, trailBytes)] [] in
  (nextEvent (X := Sample.sample) io drained noEvent).1.2 = drained
  /\ (pulls (X := Sample.sample) (replicate 3 (io, noEvent)) drained).1
     = replicate 3 (Err ErrEOF)
  /\ (pulls (X := Sample.sample) (replicate 3 (io, noEvent)) drained).2 = drained.
Proof.
  apply (C3_end_of_stream_is_terminal (X := Sample.sample)
           (world [(trailFile, trailBytes)] []) noEvent drained
           (replicate 3 (world [(trailFile, trailBytes)] [], noEvent))).
  - vm_compute. discriminate.
  - vm_compute. reflexivity.
Defined.

(** The outcomes of the pulls over the sample file: the API call is
    emitted, the three other records are dropped one pull each, and the
    stream ends. *)
Example sample_local_session :
  (pulls (X := Sample.sample)
     (replicate 6 (world [(trailFile, trailBytes)] [], noEvent))
     (session fileMode 1 [FileInfo trailFile false])).1
  = [Nil; Err ErrTimeout; Err ErrTimeout; Err ErrTimeout; Err ErrEOF; Err ErrEOF].
Proof. vm_compute. reflexivity. Qed.

(** C4. For a queue session with nothing buffered and no file left, a pull
    whose poll succeeds and adds no file returns retry-later, and so does
    every pull of a sequence of such pulls, however long; no pull of a queue
    session returns end-of-stream. *)
Theorem C4_empty_poll_retries {X : Externals}
    (c : PluginInstance) (calls : list (IO * event)) :
  openMode c = sqsMode ->
  (evtJSONListPos c >=? len (evtJSONStrings c)) = true ->
  (curFileNum c >=? uint32 (len (files c))) = true ->
  emptyPolls calls c ->
  (pulls calls c).1 = replicate (List.length calls) (Err ErrTimeout)
  /\ (forall io evt, (nextEvent io c evt).1.1 <> Err ErrEOF).
Proof.
  intros Hm Hp Hc He. split; [now apply pulls_emptyPolls|].
  intros io evt H. apply nextEvent_EOF_inv in H as (Hn & _). done.
Qed.

(** A queue session without files, polled four times while the queue is
    empty. *)
Lemma C4_empty_poll_retries_witness :
  (pulls (X := Sample.sample) (replicate 4 (world [] [], noEvent))
     (session sqsMode 2 [])).1
  = replicate 4 (Err ErrTimeout)
  /\ (forall io evt,
        (nextEvent (X := Sample.sample) io (session sqsMode 2 []) evt).1.1
        <> Err ErrEOF).
Proof.
  apply (C4_empty_poll_retries (X := Sample.sample) (session sqsMode 2 [])
           (replicate 4 (world [] [], noEvent))).
  - reflexivity.
  - reflexivity.
  - reflexivity.
  - simpl. repeat split.
Defined.

(** C8. For every pull that opens a file flagged as compressed whose bytes
    do not inflate, the pull returns retry-later (no fatal error, no
    end-of-stream), the file cursor is past that file when it returns, and
    no sequence of later pulls brings the cursor back to it. *)
Theorem C8_corrupt_gzip_retries {X : Externals}
    (io : IO) (c : PluginInstance) (evt : event)
    (c1 c2 : PluginInstance) (file : fileInfo) (tmpStr : bytes) :
  (evtJSONListPos c >=? len (evtJSONStrings c)) = true ->
  moreFiles io c = Continue c1 ->
  index (files c1) (curFileNum c1) = Some file ->
  isCompressed file = true ->
  fetchFile io file (set_curFileNum (uint32 (curFileNum c1 + 1)) c1) = (Bytes tmpStr, c2) ->
  gunzip tmpStr = None ->
  nextEvent io c evt = (Err ErrTimeout, c2, evt)
  /\ curFileNum c1 < curFileNum c2
  /\ (forall calls, curFileNum c1 < curFileNum (pulls calls c2).2).
Proof.
  intros Hp Hmf Hfile Hz Hfetch Hgz.
  assert (Hlt : curFileNum c1 < curFileNum c2).
  { pose proof Hmf as Hmf'. apply moreFiles_Continue in Hmf' as [_ Hlt].
    apply fetchFile_frame in Hfetch as [(_ & _ & Hcur & _) _]. simpl in Hcur.
    rewrite Hcur. eapply uint32_succ_gt; eauto. }
  split; [|split; [exact Hlt|]].
  - eapply nextEvent_corrupt_gzip; eauto.
  - intros calls. pose proof (pulls_cursor calls c2). lia.
Qed.

(** A session reading from S3 whose first file is flagged as compressed and
    holds no gzip stream. *)
Lemma C8_corrupt_gzip_retries_witness :
  let file := FileInfo "a.json.gz" true in
  let io := steady (b_of "not a gzip stream") [] in
  let c := session s3Mode 2 [file; FileInfo "b.json" false] in
  let c2 := (nextEvent (X := Sample.sample) io c noEvent).1.2 in
  nextEvent (X := Sample.sample) io c noEvent = (Err ErrTimeout, c2, noEvent)
  /\ curFileNum c < curFileNum c2
  /\ (forall calls, curFileNum c < curFileNum (pulls (X := Sample.sample) calls c2).2).
Proof.
  apply (C8_corrupt_gzip_retries (X := Sample.sample)
           (steady (b_of "not a gzip stream") [])
           (session s3Mode 2 [FileInfo "a.json.gz" true; FileInfo "b.json" false])
           noEvent
           (session s3Mode 2 [FileInfo "a.json.gz" true; FileInfo "b.json" false])
           _ (FileInfo "a.json.gz" true) (b_of "not a gzip stream"));
    reflexivity.
Defined.

(** C9. For every popped record that parses as JSON and carries an
    [eventTime] that is a time, if the [eventType] member is missing or is
    no string, the pull returns retry-later and the record is dropped: the
    record cursor is past it and nothing is written. *)
Theorem C9_missing_eventType_dropped {X : Externals}
    (io : IO) (c : PluginInstance) (evt : event)
    (c1 : PluginInstance) (evtData timeVal : bytes) (cr : Json.json) (t1 : Z) :
  fillBuffer io c = Continue c1 ->
  index (evtJSONStrings c1) (evtJSONListPos c1) = Some evtData ->
  fastjson_Parse (s_of evtData) = Some cr ->
  GetStringBytes cr "eventTime" = Some timeVal ->
  time_Parse (s_of timeVal) = Some t1 ->
  (Get cr "eventType" = None
   \/ exists v, Get cr "eventType" = Some v /\ forall t, v <> Json.JString t) ->
  (nextEvent io c evt).1.1 = Err ErrTimeout
  /\ (nextEvent io c evt).1.2 = set_evtJSONListPos (evtJSONListPos c1 + 1) c1
  /\ written (nextEvent io c evt).2 = written evt.
Proof.
  intros Hfill Hidx Hparse Htime Ht Htype.
  assert (Hlen : (len (evtJSONStrings c1) =? 0) = false).
  { apply Z.eqb_neq. unfold index in Hidx.
    destruct (evtJSONListPos c1 <? 0); [done|].
    apply lookup_lt_Some in Hidx. unfold len. lia. }
  assert (Hnone : GetStringBytes cr "eventType" = None).
  { unfold GetStringBytes. destruct Htype as [->|(v & -> & Hv)]; [done|].
    destruct v; try done. now destruct (Hv s). }
  unfold nextEvent, nextRecord.
  rewrite Hfill, Hlen, Hidx, Hparse, Htime, Ht, Hnone. done.
Qed.

(** The third record of the sample file, which has a time and no type. *)
Lemma C9_missing_eventType_dropped_witness :
  let io := world [(trailFile, trailBytes)] [] in
  let c := (pulls (X := Sample.sample) (replicate 2 (io, noEvent))
              (session fileMode 1 [FileInfo trailFile false])).2 in
  (nextEvent (X := Sample.sample) io c noEvent).1.1 = Err ErrTimeout
  /\ (nextEvent (X := Sample.sample) io c noEvent).1.2
     = set_evtJSONListPos (evtJSONListPos c + 1) c
  /\ written (nextEvent (X := Sample.sample) io c noEvent).2 = written noEvent.
Proof.
  apply (C9_missing_eventType_dropped (X := Sample.sample)
           (world [(trailFile, trailBytes)] [])
           ((pulls (X := Sample.sample)
               (replicate 2 (world [(trailFile, trailBytes)] [], noEvent))
               (session fileMode 1 [FileInfo trailFile false])).2)
           noEvent _
           (Json.render (Json.JObject [("eventTime", Json.JString "2024-01-01T00:00:02Z")]))
           (b_of "2024-01-01T00:00:02Z")
           (Json.JObject [("eventTime", Json.JString "2024-01-01T00:00:02Z")])
           1704067202000000000).
  - reflexivity.
  - reflexivity.
  - reflexivity.
  - reflexivity.
  - reflexivity.
  - left. reflexivity.
Defined.

(** A member that is present and is no string is dropped as well. *)
Example eventType_not_a_string :
  let rec := Json.render (Json.JObject
               [("eventTime", Json.JString "2024-01-01T00:00:02Z");
                ("eventType", Json.JNumber 7)]) in
  (nextEvent (X := Sample.sample) (steady (Splitter.envelope [rec]) [])
     (session fileMode 1 [FileInfo trailFile false]) noEvent).1.1
  = Err ErrTimeout.
Proof. vm_compute. reflexivity. Qed.


(** C7 (as amended). For every fetch step of a session reading from S3
    in which no buffered slot remains and at least one file is not yet
    downloaded, and in which no download of the batch fails: the batch size
    is the minimum of the configured concurrency and of the number of files
    not yet downloaded; the call returns the bytes of slot 0, which are those
    of the first file of the batch; the cursor of downloaded files has
    advanced by the batch size; and the later calls return the slots 1, 2,
    ... of the same batch in order, without starting a new batch, as long
    as a slot of the batch remains. *)
Theorem C7_batch_download
    (io : IO) (ios : list IO) (c : PluginInstance) (body : string -> bytes) :
  let D := S3DownloadConcurrency (config c) in
  let k := lastDownloadedFileNum (s3 c) in
  let n := Z.min D (len (files c) - k) in
  1 <= D ->
  len (DownloadBufs (s3 c)) = D ->
  nFilledBufs (s3 c) <= curBuf (s3 c) ->
  0 <= k < len (files c) ->
  (forall f, In f (slice (files c) k (k + n)) ->
     s3_Download io (bucket (s3 c)) (name f) = OK (body (name f))) ->
  len ios < n ->
  (reads (io :: ios) c).1
  = map (fun f => Bytes (body (name f))) (slice (files c) k (k + (1 + len ios)))
  /\ nFilledBufs (s3 (reads [io] c).2) = n
  /\ lastDownloadedFileNum (s3 (reads [io] c).2) = k + n
  /\ lastDownloadedFileNum (s3 (reads (io :: ios) c).2) = k + n
  /\ nFilledBufs (s3 (reads (io :: ios) c).2) = n
  /\ curBuf (s3 (reads (io :: ios) c).2) = 1 + len ios.
Proof.
  intros D k n HD Hbufs Hcur Hk Hdl Hios.
  pose proof (len_nonneg ios) as Hi.
  destruct (readNextFileS3_batch io c body HD Hbufs Hcur Hk Hdl) as [Hr Hc].
  fold D k n in Hr, Hc.
  set (batch := slice (files c) k (k + n)) in *.
  set (bufs := map (fun f => body (name f)) batch
               ++ drop (Z.to_nat n) (DownloadBufs (s3 c))) in *.
  assert (Hn : 1 <= n <= D) by (unfold n; lia).
  assert (Hbatch : len batch = n) by (apply slice_length; unfold n; lia).
  assert (Hlb : len (map (fun f => body (name f)) batch) = n)
    by (unfold len in *; now rewrite length_map).
  set (c1 := set_s3 (S3State (bucket (s3 c)) (client (s3 c)) bufs (k + n) n 1) c) in *.
  destruct (reads_slots ios c1) as [Hrs Hcs]; [simpl; lia|simpl; lia| |].
  { simpl. unfold bufs. rewrite len_app.
    pose proof (len_nonneg (drop (Z.to_nat n) (DownloadBufs (s3 c)))). lia. }
  simpl in Hrs, Hcs.
  rewrite reads_cons, Hc, Hr, Hrs, Hcs. simpl.
  repeat split; try reflexivity.
  rewrite <- map_app, slice_app_slice by lia.
  unfold bufs. rewrite slice_app_l by lia.
  rewrite slice_map, map_map. unfold batch.
  now rewrite slice_slice by lia.
Qed.

(** Five files, two downloads at a time: the first call of a batch and the
    call after it. *)
Lemma C7_batch_download_witness :
  let fs := map (fun key => FileInfo key false) ["f0"; "f1"; "f2"; "f3"; "f4"] in
  let store := [("f0", b_of "zero"); ("f1", b_of "one"); ("f2", b_of "two")] in
  let body key := match s3_Download (world store []) "trail-bucket" key with
                  | OK b => b | Failed _ => [] end in
  let c := session s3Mode 2 fs in
  (reads [world store []; world [] []] c).1
  = map (fun f => Bytes (body (name f))) (slice fs 0 (0 + (1 + 1)))
  /\ nFilledBufs (s3 (reads [world store []] c).2) = 2
  /\ lastDownloadedFileNum (s3 (reads [world store []] c).2) = 0 + 2
  /\ lastDownloadedFileNum (s3 (reads [world store []; world [] []] c).2) = 0 + 2
  /\ nFilledBufs (s3 (reads [world store []; world [] []] c).2) = 2
  /\ curBuf (s3 (reads [world store []; world [] []] c).2) = 1 + 1.
Proof.
  apply (C7_batch_download
           (world [("f0", b_of "zero"); ("f1", b_of "one"); ("f2", b_of "two")] [])
           [world [] []]
           (session s3Mode 2
              (map (fun key => FileInfo key false) ["f0"; "f1"; "f2"; "f3"; "f4"]))
           (fun key =>
              match s3_Download
                      (world [("f0", b_of "zero"); ("f1", b_of "one"); ("f2", b_of "two")] [])
                      "trail-bucket" key with
              | OK b => b | Failed _ => [] end)).
  - vm_compute. discriminate.
  - reflexivity.
  - vm_compute. discriminate.
  - vm_compute. split; [discriminate|reflexivity].
  - intros f Hf. vm_compute in Hf.
    destruct Hf as [<-|[<-|[]]]; reflexivity.
  - vm_compute. reflexivity.
Defined.

(** C7 (as stated) fails when a download of the batch fails: the call
    returns the error, no bytes, and the cursor of downloaded files stays
    where it was. *)
Lemma C7_failed_download_keeps_cursor :
  let c := session s3Mode 2 [FileInfo "f0" false; FileInfo "f1" false] in
  let io := world [("f0", b_of "zero")] [] in
  nFilledBufs (s3 c) <= curBuf (s3 c)
  /\ lastDownloadedFileNum (s3 c) < len (files c)
  /\ (reads [io] c).1 = [FetchErr (ErrOther "NoSuchKey")]
  /\ lastDownloadedFileNum (s3 (reads [io] c).2) = lastDownloadedFileNum (s3 c).
Proof. vm_compute. repeat split; discriminate. Qed.

End ProducerClaims.

(** ** Regular expressions and strings *)

Section RegexpFacts.
Import Strings Regexp.

Lemma nullable_Match r : nullable r = true <-> Match r [].
Proof.
  split.
  - induction r as [| |p|r1 IH1 r2 IH2|r1 IH1 r2 IH2|r IH|r IH]; simpl; intros H.
    + done.
    + constructor.
    + done.
    + apply andb_prop in H as [H1 H2]. change (@nil ascii) with (@nil ascii ++ []).
      constructor; auto.
    + apply orb_prop in H as [H|H]; [apply MAltL|apply MAltR]; auto.
    + constructor.
    + constructor. auto.
  - intros H. remember [] as l eqn:El.
    induction H as [|p c0 Hp|r1 r2 l1 l2 H1 IH1 H2 IH2|r1 r2 l0 H1 IH1|r1 r2 l0 H2 IH2
                    |r|r l1 l2 H1 IH1 H2 IH2|r l0 H1 IH1]; simpl; try done.
    + apply app_eq_nil in El as [-> ->]. now rewrite IH1, IH2.
    + now rewrite IH1.
    + rewrite IH2 by done. apply orb_true_r.
    + auto.
Qed.

Lemma deriv_sound c r : forall l, Match (deriv c r) l -> Match r (c :: l).
Proof.
  induction r; simpl; intros l H.
  - inversion H.
  - inversion H.
  - destruct (p c) eqn:Hp; inversion H; subst. now constructor.
  - destruct (nullable r1) eqn:Hn.
    + inversion H as [| |? ? ? ? ?|? ? ? H1|? ? ? H2| | |]; subst.
      * inversion H1; subst. change (c :: l1 ++ l2) with ((c :: l1) ++ l2).
        constructor; auto.
      * change (c :: l) with ([] ++ c :: l). constructor; auto.
        now apply nullable_Match.
    + inversion H; subst. change (c :: l1 ++ l2) with ((c :: l1) ++ l2).
      constructor; auto.
  - inversion H; subst; [apply MAltL|apply MAltR]; auto.
  - inversion H; subst. change (c :: l1 ++ l2) with ((c :: l1) ++ l2).
    constructor; auto.
  - constructor. auto.
Qed.

Lemma deriv_complete r cl : Match r cl -> forall c l, cl = c :: l -> Match (deriv c r) l.
Proof.
  induction 1 as [|p c0 Hp|r1 r2 l1 l2 H1 IH1 H2 IH2|r1 r2 l0 H1 IH1|r1 r2 l0 H2 IH2
                  |r|r l1 l2 H1 IH1 H2 IH2|r l0 H1 IH1]; intros c l E; simpl.
  - done.
  - injection E as -> <-. rewrite Hp. constructor.
  - destruct l1 as [|c1 l1]; simpl in E.
    + subst l2. apply nullable_Match in H1. rewrite H1. apply MAltR. now apply IH2.
    + injection E as -> <-.
      assert (Match (Cat (deriv c r1) r2) (l1 ++ l2)) by (constructor; auto).
      destruct (nullable r1); [now apply MAltL|done].
  - apply MAltL. auto.
  - apply MAltR. auto.
  - done.
  - destruct l1 as [|c1 l1]; simpl in E.
    + now apply IH2.
    + injection E as -> <-. constructor; auto.
  - auto.
Qed.

(** The matcher decides the language. *)
Theorem matches_Match r l : matches r l = true <-> Match r l.
Proof.
  revert r. induction l as [|c l IH]; intros r; simpl.
  - apply nullable_Match.
  - rewrite IH. split; [apply deriv_sound|]. intros H.
    exact (deriv_complete r (c :: l) H c l eq_refl).
Qed.

Lemma Match_Cat r1 r2 l :
  Match (Cat r1 r2) l <-> exists l1 l2, l = l1 ++ l2 /\ Match r1 l1 /\ Match r2 l2.
Proof.
  split.
  - inversion 1; subst. eauto.
  - intros (l1 & l2 & -> & H1 & H2). now constructor.
Qed.

Lemma Match_Opt r l : Match (Opt r) l <-> Match r l \/ l = [].
Proof.
  unfold Opt. split.
  - inversion 1 as [| | |? ? ? H1|? ? ? H2| | |]; subst; [now left|].
    inversion H2. now right.
  - intros [H| ->]; [now apply MAltL|apply MAltR; constructor].
Qed.

Lemma Match_Chr p l : Match (Chr p) l <-> exists c, l = [c] /\ p c = true.
Proof.
  split.
  - inversion 1; subst. eauto.
  - intros (c & -> & H). now constructor.
Qed.

Lemma Match_Eps l : Match Eps l <-> l = [].
Proof. split; [now inversion 1|intros ->; constructor]. Qed.

Lemma Match_lit_chars cs l :
  Match (foldr (fun c r => Cat (Chr (Ascii.eqb c)) r) Eps cs) l <-> l = cs.
Proof.
  revert l. induction cs as [|c cs IH]; intros l; simpl.
  - apply Match_Eps.
  - rewrite Match_Cat. split.
    + intros (l1 & l2 & -> & H1 & H2). apply Match_Chr in H1 as (c' & -> & Hc).
      apply Ascii.eqb_eq in Hc as <-. apply IH in H2 as ->. done.
    + intros ->. exists [c], cs. split; [done|]. split; [|now apply IH].
      apply Match_Chr. exists c. split; [done|apply Ascii.eqb_refl].
Qed.

Lemma Match_lit s l : Match (lit s) l <-> l = chars_of s.
Proof. apply Match_lit_chars. Qed.

Lemma Match_power_Chr p n : forall l,
  Match (power n (Chr p)) l <-> List.length l = n /\ allChars p l.
Proof.
  induction n as [|n IH]; intros l; simpl.
  - rewrite Match_Eps. split.
    + intros ->. split; [done|constructor].
    + intros [H _]. now destruct l.
  - rewrite Match_Cat. split.
    + intros (l1 & l2 & -> & H1 & H2). apply Match_Chr in H1 as (c & -> & Hc).
      apply IH in H2 as [Hl Hall]. simpl. split; [now rewrite Hl|now constructor].
    + intros [Hl Hall]. destruct l as [|c l]; [done|].
      inversion Hall; subst. exists [c], l. split; [done|]. split.
      * apply Match_Chr. eauto.
      * apply IH. split; [simpl in Hl; lia|done].
Qed.

Lemma Match_upTo_Chr p n : forall l,
  Match (upTo n (Chr p)) l <-> (List.length l <= n)%nat /\ allChars p l.
Proof.
  induction n as [|n IH]; intros l; simpl.
  - rewrite Match_Eps. split.
    + intros ->. split; [done|constructor].
    + intros [H _]. destruct l; [done|simpl in H; lia].
  - rewrite Match_Opt, Match_Cat. split.
    + intros [(l1 & l2 & -> & H1 & H2)| ->].
      * apply Match_Chr in H1 as (c & -> & Hc). apply IH in H2 as [Hl Hall].
        simpl. split; [lia|now constructor].
      * split; [simpl; lia|constructor].
    + intros [Hl Hall]. destruct l as [|c l]; [now right|left].
      inversion Hall; subst. exists [c], l. split; [done|]. split.
      * apply Match_Chr. eauto.
      * apply IH. split; [simpl in Hl; lia|done].
Qed.

Lemma Match_Rep_Chr p lo hi l :
  (lo <= hi)%nat ->
  Match (Rep (Chr p) lo hi) l <-> (lo <= List.length l <= hi)%nat /\ allChars p l.
Proof.
  intros Hlh. unfold Rep. rewrite Match_Cat. split.
  - intros (l1 & l2 & -> & H1 & H2). apply Match_power_Chr in H1 as [Hl1 Ha1].
    apply Match_upTo_Chr in H2 as [Hl2 Ha2]. rewrite length_app.
    split; [lia|now apply Forall_app].
  - intros [Hl Hall]. exists (take lo l), (drop lo l).
    split; [now rewrite take_drop|]. split.
    + apply Match_power_Chr. split; [rewrite length_take; lia|].
      now apply Forall_take.
    + apply Match_upTo_Chr. split; [rewrite length_drop; lia|].
      now apply Forall_drop.
Qed.

(** *** Strings as lists of characters *)

Lemma chars_of_app (a b : string) : chars_of (a ++ b)%string = chars_of a ++ chars_of b.
Proof. induction a as [|c a IH]; simpl; [done|]. unfold chars_of in *. simpl. now rewrite IH. Qed.

Lemma of_chars_of s : of_chars (chars_of s) = s.
Proof. apply string_of_list_ascii_of_string. Qed.

Lemma chars_of_of l : chars_of (of_chars l) = l.
Proof. apply list_ascii_of_string_of_list_ascii. Qed.

Lemma chars_of_inj a b : chars_of a = chars_of b -> a = b.
Proof. intros H. rewrite <- (of_chars_of a), <- (of_chars_of b). now rewrite H. Qed.

Lemma of_chars_app a b : of_chars (a ++ b) = (of_chars a ++ of_chars b)%string.
Proof. apply chars_of_inj. now rewrite chars_of_app, !chars_of_of. Qed.

Lemma tails_In {A} (t l : list A) : In t (tails l) <-> exists pre, l = pre ++ t.
Proof.
  induction l as [|x l IH]; simpl.
  - split.
    + intros [<-|[]]. now exists [].
    + intros (pre & H). symmetry in H. apply app_eq_nil in H as [_ ->]. now left.
  - split.
    + intros [<-|H]; [now exists []|]. apply IH in H as (pre & ->). now exists (x :: pre).
    + intros (pre & H). destruct pre as [|y pre]; simpl in H; [now left|].
      injection H as -> ->. right. apply IH. eauto.
Qed.

(** A pattern that ends with [$]: a suffix of the text is in the language. *)
Lemma MatchString_suffix p s :
  anchoredStart p = false -> anchoredEnd p = true ->
  MatchString p s = true
  <-> exists pre t, chars_of s = pre ++ t /\ Match (body p) t.
Proof.
  intros Hs He. unfold MatchString. rewrite Hs, He, existsb_exists. split.
  - intros (t & Hin & Hm). apply tails_In in Hin as (pre & Hpre).
    apply matches_Match in Hm. eauto.
  - intros (pre & t & Hpre & Hm). exists t. split.
    + apply tails_In. eauto.
    + now apply matches_Match.
Qed.

(** A pattern between [^] and [$]: the text is in the language. *)
Lemma MatchString_whole p s :
  anchoredStart p = true -> anchoredEnd p = true ->
  MatchString p s = true <-> Match (body p) (chars_of s).
Proof.
  intros Hs He. unfold MatchString. rewrite Hs, He. simpl.
  rewrite orb_false_r. apply matches_Match.
Qed.

Lemma HasSuffix_spec s suffix :
  HasSuffix s suffix = true <-> exists pre, chars_of s = pre ++ chars_of suffix.
Proof.
  unfold HasSuffix. rewrite andb_true_iff, Nat.leb_le, String.eqb_eq. split.
  - intros [Hl He]. exists (take (List.length (chars_of s) - List.length (chars_of suffix)) (chars_of s)).
    rewrite <- He at 2. rewrite chars_of_of. now rewrite take_drop.
  - intros (pre & ->). rewrite length_app. split; [lia|].
    replace (List.length pre + List.length (chars_of suffix) - List.length (chars_of suffix))%nat
      with (List.length pre) by lia.
    rewrite drop_app_length. apply of_chars_of.
Qed.

End RegexpFacts.

(** Equations between strings built with [++], by their characters. *)
Ltac string_eq :=
  apply chars_of_inj; repeat rewrite chars_of_app; simpl;
  repeat rewrite <- app_assoc; simpl; try reflexivity.

(** ** Source resolver *)

Section ResolverFacts.
Import Strings Regexp Source Lister.
Local Infix "@" := String.append (at level 60, right associativity).

Lemma isAccount_spec a :
  isAccount a = true -> List.length (chars_of a) = 12%nat /\ allChars digit (chars_of a).
Proof.
  unfold isAccount. rewrite andb_true_iff, Nat.eqb_eq.
  intros [Hl Hd]. split; [done|now apply forallb_Forall_true].
Qed.

Lemma isOrgId_spec o :
  isOrgId o = true ->
  (10 <= List.length (chars_of o) <= 32)%nat /\ allChars lowerOrDigit (chars_of o).
Proof.
  unfold isOrgId. rewrite !andb_true_iff, !Nat.leb_le.
  intros [[H1 H2] Hd]. split; [done|now apply forallb_Forall_true].
Qed.

(** Facts about single characters, by enumeration. *)
Lemma digit_not_space c : digit c = true -> isSpace c = false.
Proof. destruct c as [[] [] [] [] [] [] [] []]; vm_compute; congruence. Qed.

Lemma digit_not_comma c : digit c = true -> Ascii.eqb c "," = false.
Proof. destruct c as [[] [] [] [] [] [] [] []]; vm_compute; congruence. Qed.

Lemma digit_not_slash c : digit c = true -> c <> "/"%char.
Proof. intros H ->. discriminate. Qed.

Lemma lowerOrDigit_not_slash c : lowerOrDigit c = true -> c <> "/"%char.
Proof. intros H ->. discriminate. Qed.

(** Two texts that agree, one made of a run of [p] and then [x], the other
    of a run of [q] and then [y]: impossible when [y] is no [p], [x] is no
    [q] and [x] is not [y]. *)
Lemma runs_disagree (p q : ascii -> bool) (x y : ascii) (D I A B : chars) :
  allChars p D -> allChars q I -> p y = false -> q x = false -> x <> y ->
  D ++ x :: A <> I ++ y :: B.
Proof.
  intros HD HI Hpy Hqx Hxy E.
  destruct (lt_eq_lt_dec (List.length I) (List.length D)) as [[Hlt|Heq]|Hgt].
  - assert (H1 : (D ++ x :: A) !! List.length I = Some y)
      by (rewrite E; apply list_lookup_middle; done).
    rewrite lookup_app_l in H1 by done.
    eapply Forall_lookup_1 in H1; [|exact HD]. simpl in H1. congruence.
  - assert (H1 : (D ++ x :: A) !! List.length I = Some y)
      by (rewrite E; apply list_lookup_middle; done).
    rewrite Heq, list_lookup_middle in H1 by done. congruence.
  - assert (H1 : (I ++ y :: B) !! List.length D = Some x)
      by (rewrite <- E; apply list_lookup_middle; done).
    rewrite lookup_app_l in H1 by done.
    eapply Forall_lookup_1 in H1; [|exact HI]. simpl in H1. congruence.
Qed.

(** What the language of [awsLogsRE] ends with. *)
Lemma awsLogsRE_ending t :
  Match (body awsLogsRE) t ->
  exists u d sl,
    t = u ++ "/"%char :: d ++ sl
    /\ List.length d = 12%nat /\ allChars digit d
    /\ (sl = [] \/ sl = ["/"%char]).
Proof.
  unfold awsLogsRE. simpl body. intros H.
  apply Match_Cat in H as (l1 & l2 & -> & H1 & H).
  apply Match_lit in H1 as ->.
  apply Match_Cat in H as (l3 & l4 & -> & H3 & H).
  apply Match_Cat in H as (d & sl & -> & Hd & Hsl).
  apply Match_Rep_Chr in Hd as [Hl Hd]; [|lia].
  apply Match_Opt in Hsl.
  assert (Hsl' : sl = [] \/ sl = ["/"%char]).
  { destruct Hsl as [Hsl| ->]; [right|now left]. now apply Match_lit in Hsl. }
  apply Match_Opt in H3 as [H3| ->].
  - apply Match_Cat in H3 as (o1 & o2 & -> & Ho1 & H3).
    apply Match_lit in Ho1 as ->.
    apply Match_Cat in H3 as (i & o3 & -> & _ & Ho3).
    apply Match_lit in Ho3 as ->.
    exists (chars_of "/AWSLogs/" ++ chars_of "o-" ++ i), d, sl.
    split; [|split; [lia|done]]. simpl. now rewrite <- !app_assoc.
  - exists (chars_of "/AWSLogs"), d, sl. split; [|split; [lia|done]]. done.
Qed.

Lemma trailing_chars slash :
  chars_of (trailing slash) = [] \/ chars_of (trailing slash) = ["/"%char].
Proof. destruct slash; [now right|now left]. Qed.

(** [awsLogsRE] does not match a prefix that ends in the directory of an
    organization. *)
Lemma awsLogsRE_orgPrefix pre o slash :
  isOrgId o = true ->
  MatchString awsLogsRE (orgPrefix pre o @ trailing slash) = false.
Proof.
  intros Ho. apply isOrgId_spec in Ho as [Hlen Hall].
  apply not_true_is_false. intros H.
  apply MatchString_suffix in H as (p & t & E & Hm); [|done|done].
  apply awsLogsRE_ending in Hm as (u & d & sl & -> & Hl & Hd & Hsl).
  unfold orgPrefix in E. rewrite !chars_of_app in E.
  apply (f_equal (@rev ascii)) in E. rewrite !rev_app_distr in E. simpl in E.
  rewrite !rev_app_distr in E. simpl in E. rewrite <- !app_assoc in E. simpl in E.
  assert (HdR : allChars digit (rev d)) by (now apply Forall_rev).
  assert (HiR : allChars lowerOrDigit (rev (chars_of o))) by (now apply Forall_rev).
  destruct (rev d) as [|d0 dR] eqn:EdR.
  { apply (f_equal (@List.length ascii)) in EdR. rewrite length_rev in EdR. simpl in EdR. lia. }
  destruct (rev (chars_of o)) as [|i0 iR] eqn:EiR.
  { apply (f_equal (@List.length ascii)) in EiR. rewrite length_rev in EiR. simpl in EiR. lia. }
  inversion HdR as [|? ? Hd0 _]; subst. inversion HiR as [|? ? Hi0 _]; subst.
  destruct (trailing_chars slash) as [Et|Et]; rewrite Et in E;
    destruct Hsl as [-> | ->]; simpl in E.
  - symmetry in E. revert E.
    apply (runs_disagree digit lowerOrDigit "/" "-" (d0 :: dR) (i0 :: iR)); done.
  - injection E as E1 _. subst i0. vm_compute in Hi0. discriminate.
  - injection E as E1 _. subst d0. vm_compute in Hd0. discriminate.
  - apply (f_equal (drop 1)) in E. simpl in E. symmetry in E. revert E.
    apply (runs_disagree digit lowerOrDigit "/" "-" (d0 :: dR) (i0 :: iR)); done.
Qed.

Lemma awsLogsOrgRE_orgPrefix pre o slash :
  isOrgId o = true ->
  MatchString awsLogsOrgRE (orgPrefix pre o @ trailing slash) = true.
Proof.
  intros Ho. apply isOrgId_spec in Ho as [Hlen Hall].
  apply MatchString_suffix; [done|done|].
  exists (chars_of pre), (chars_of "/AWSLogs" ++ (chars_of "/o-" ++ chars_of o) ++ chars_of (trailing slash)).
  split.
  - unfold orgPrefix. rewrite !chars_of_app. simpl. now rewrite <- !app_assoc.
  - unfold awsLogsOrgRE. simpl body.
    constructor; [now apply Match_lit|]. constructor.
    + apply Match_Opt. left. constructor; [now apply Match_lit|].
      apply Match_Rep_Chr; [lia|done].
    + apply Match_Opt. destruct slash; [left; now apply Match_lit|now right].
Qed.

Lemma awsLogsRE_accountPrefix pre org acct slash :
  isAccount acct = true ->
  (forall o, org = Some o -> isOrgId o = true) ->
  MatchString awsLogsRE (accountPrefix pre org acct @ trailing slash) = true.
Proof.
  intros Ha Ho. apply isAccount_spec in Ha as [Hlen Hall].
  apply MatchString_suffix; [done|done|].
  exists (chars_of pre),
    (chars_of "/AWSLogs/"
     ++ chars_of (match org with Some o => "o-" @ o @ "/" | None => EmptyString end)
     ++ chars_of acct ++ chars_of (trailing slash)).
  split.
  - unfold accountPrefix. rewrite !chars_of_app. now rewrite <- !app_assoc.
  - unfold awsLogsRE. simpl body.
    constructor; [now apply Match_lit|]. constructor; [|constructor].
    + apply Match_Opt. destruct org as [o|]; [left|now right].
      destruct (isOrgId_spec o (Ho o eq_refl)) as [Hol Hoa].
      rewrite !chars_of_app. constructor; [now apply Match_lit|].
      constructor; [|now apply Match_lit].
      apply Match_Rep_Chr; [lia|done].
    + apply Match_Rep_Chr; [lia|]. split; [lia|done].
    + apply Match_Opt. destruct slash; [left; now apply Match_lit|now right].
Qed.

(** *** The trailing slash *)

Lemma HasSuffix_slash_false s l c :
  chars_of s = l ++ [c] -> c <> "/"%char -> HasSuffix s "/" = false.
Proof.
  intros E Hc. apply not_true_is_false. intros H.
  apply HasSuffix_spec in H as (pre & H). rewrite E in H.
  apply app_inj_tail in H as [_ ->]. done.
Qed.

Lemma last_char (p : ascii -> bool) (l : chars) :
  l <> [] -> allChars p l -> exists l' c, l = l' ++ [c] /\ p c = true.
Proof.
  intros Hn Hall. destruct (exists_last Hn) as (l' & c & ->).
  exists l', c. split; [done|]. apply Forall_app in Hall as [_ Hc].
  now inversion Hc.
Qed.

Lemma withSlash_ends s (p : ascii -> bool) tl slash :
  tl <> [] -> allChars p tl -> (forall c, p c = true -> c <> "/"%char) ->
  (exists hd, chars_of s = hd ++ tl) ->
  withSlash (s @ trailing slash) = s @ "/".
Proof.
  intros Hn Hall Hp (hd & E). unfold withSlash. destruct slash; simpl trailing.
  - replace (HasSuffix (s @ "/") "/") with true; [done|].
    symmetry. apply HasSuffix_spec. exists (chars_of s). now rewrite chars_of_app.
  - destruct (last_char p tl Hn Hall) as (l' & c & -> & Hc).
    rewrite (HasSuffix_slash_false _ (hd ++ l') c); simpl.
    + string_eq.
    + rewrite chars_of_app, E. simpl. now rewrite app_nil_r, <- app_assoc.
    + now apply Hp.
Qed.

Lemma withSlash_accountPrefix pre org acct slash :
  isAccount acct = true ->
  withSlash (accountPrefix pre org acct @ trailing slash) = accountPrefix pre org acct @ "/".
Proof.
  intros Ha. apply isAccount_spec in Ha as [Hlen Hall].
  apply (withSlash_ends _ digit (chars_of acct)).
  - intros E. rewrite E in Hlen. discriminate.
  - done.
  - apply digit_not_slash.
  - unfold accountPrefix. rewrite !chars_of_app, !app_assoc. eauto.
Qed.

Lemma withSlash_orgPrefix pre o slash :
  isOrgId o = true ->
  withSlash (orgPrefix pre o @ trailing slash) = orgPrefix pre o @ "/".
Proof.
  intros Ho. apply isOrgId_spec in Ho as [Hlen Hall].
  apply (withSlash_ends _ lowerOrDigit (chars_of o)).
  - intros E. rewrite E in Hlen. simpl in Hlen. lia.
  - done.
  - apply lowerOrDigit_not_slash.
  - unfold orgPrefix. rewrite !chars_of_app, !app_assoc. eauto.
Qed.

(** *** The allow-list *)

Lemma chars_of_spaces n : chars_of (spaces n) = replicate n " "%char.
Proof. induction n as [|n IH]; [done|]. unfold chars_of in *. simpl. now rewrite IH. Qed.

Lemma splitChars_nonempty sep l : splitChars sep l <> [].
Proof. destruct l as [|c l]; simpl; [done|]. repeat case_match; done. Qed.

Lemma splitChars_none sep l :
  Forall (fun c => Ascii.eqb c sep = false) l -> splitChars sep l = [l].
Proof.
  induction 1 as [|c l Hc Hl IH]; simpl; [done|]. now rewrite Hc, IH.
Qed.

Lemma splitChars_app sep l1 l2 :
  Forall (fun c => Ascii.eqb c sep = false) l1 ->
  splitChars sep (l1 ++ sep :: l2) = l1 :: splitChars sep l2.
Proof.
  induction 1 as [|c l Hc Hl IH]; simpl.
  - now rewrite Ascii.eqb_refl.
  - now rewrite Hc, IH.
Qed.

Lemma padded_chars item :
  chars_of (padded item)
  = replicate (fst (fst item)) " "%char ++ chars_of (account item)
    ++ replicate (snd item) " "%char.
Proof. unfold padded. now rewrite !chars_of_app, !chars_of_spaces. Qed.

Lemma padded_no_comma item :
  isAccount (account item) = true ->
  Forall (fun c => Ascii.eqb c "," = false) (chars_of (padded item)).
Proof.
  intros Ha. apply isAccount_spec in Ha as [_ Hall]. rewrite padded_chars.
  repeat apply Forall_app_2.
  - now apply Forall_replicate.
  - revert Hall. apply List.Forall_impl. apply digit_not_comma.
  - now apply Forall_replicate.
Qed.

Lemma concat_cons2 sep x y l :
  String.concat sep (x :: y :: l) = x @ sep @ String.concat sep (y :: l).
Proof. reflexivity. Qed.

Lemma Split_allowList items :
  items <> [] ->
  Forall (fun item => isAccount (account item) = true) items ->
  Split (allowList items) "," = map padded items.
Proof.
  intros Hn Hall. unfold Split, allowList.
  induction Hall as [|item items Hi Hall IH]; [done|].
  destruct items as [|item' items].
  - simpl. rewrite splitChars_none by now apply padded_no_comma.
    simpl. now rewrite of_chars_of.
  - rewrite map_cons. rewrite (map_cons padded item'), concat_cons2, <- (map_cons padded item').
    rewrite !chars_of_app. change (chars_of ",") with [","%char]. simpl app.
    rewrite splitChars_app by now apply padded_no_comma.
    simpl map at 1. rewrite of_chars_of. f_equal. now apply IH.
Qed.

Lemma trimLeft_spaces n l : trimLeft (replicate n " "%char ++ l) = trimLeft l.
Proof. induction n as [|n IH]; [done|]. simpl. exact IH. Qed.

Lemma trimLeft_keep c l : isSpace c = false -> trimLeft (c :: l) = c :: l.
Proof. intros H. simpl. now rewrite H. Qed.

Lemma rev_replicate {A} n (x : A) : rev (replicate n x) = replicate n x.
Proof.
  induction n as [|n IH]; [done|]. simpl. rewrite IH.
  symmetry. apply replicate_S_end.
Qed.

Lemma TrimSpace_padded item :
  isAccount (account item) = true -> TrimSpace (padded item) = account item.
Proof.
  intros Ha. apply isAccount_spec in Ha as [Hlen Hall].
  unfold TrimSpace. rewrite padded_chars, trimLeft_spaces.
  destruct (chars_of (account item)) as [|c l] eqn:E; [discriminate|].
  inversion Hall as [|? ? Hc Hl]; subst.
  simpl app. rewrite trimLeft_keep by now apply digit_not_space.
  unfold trimRight. change (c :: l ++ replicate (snd item) " "%char)
    with ((c :: l) ++ replicate (snd item) " "%char).
  rewrite rev_app_distr, rev_replicate, trimLeft_spaces.
  destruct (last_char digit (c :: l)) as (l' & c' & El & Hc'); [done|done|].
  rewrite El, rev_app_distr. simpl rev at 1. simpl app.
  rewrite (digit_not_space c' Hc').
  change (c' :: rev l') with (rev [c'] ++ rev l').
  rewrite <- rev_app_distr, rev_involutive, <- El, <- E. apply of_chars_of.
Qed.

Lemma Match_spaces n : Match (Star (lit " ")) (replicate n " "%char).
Proof.
  induction n as [|n IH]; [constructor|].
  change (replicate (S n) " "%char) with ([" "%char] ++ replicate n " "%char).
  constructor; [now apply Match_lit|done].
Qed.

Lemma accountListRE_allowList items :
  Forall (fun item => isAccount (account item) = true) items ->
  MatchString accountListRE (allowList items) = true.
Proof.
  intros Hall. apply MatchString_whole; [done|done|].
  unfold accountListRE, allowList. simpl body.
  assert (Hitem : forall item sep,
             isAccount (account item) = true ->
             sep = [] \/ sep = [","%char] ->
             Match (Cat (Star (lit " "))
                     (Cat (Rep (Chr digit) 12 12)
                        (Cat (Star (lit " ")) (Opt (lit ",")))))
                   (chars_of (padded item) ++ sep)).
  { intros item sep Ha Hsep. apply isAccount_spec in Ha as [Hlen Ha].
    rewrite padded_chars, <- !app_assoc.
    constructor; [apply Match_spaces|]. constructor.
    - apply Match_Rep_Chr; [lia|]. split; [lia|done].
    - constructor; [apply Match_spaces|]. apply Match_Opt.
      destruct Hsep as [-> | ->]; [now right|left; now apply Match_lit]. }
  induction Hall as [|item items Hi Hall IH]; [constructor|].
  destruct items as [|item' items].
  - simpl. rewrite <- (app_nil_r (chars_of (padded item))).
    constructor; [|constructor].
    rewrite <- (app_nil_r (chars_of (padded item))). apply Hitem; auto.
  - rewrite map_cons, (map_cons padded item'), concat_cons2, <- (map_cons padded item').
    rewrite !chars_of_app. change (chars_of ",") with [","%char].
    rewrite app_assoc. constructor; [apply Hitem; auto|exact IH].
Qed.

Lemma allowList_not_empty items :
  items <> [] ->
  Forall (fun item => isAccount (account item) = true) items ->
  String.eqb (allowList items) "" = false.
Proof.
  intros Hn Hall. apply String.eqb_neq. intros E.
  apply (f_equal chars_of) in E. apply (f_equal (@List.length ascii)) in E.
  destruct Hall as [|item items Hi Hall]; [done|].
  apply isAccount_spec in Hi as [Hlen _].
  unfold allowList in E. destruct items as [|item' items].
  - simpl in E. rewrite padded_chars, !length_app in E. simpl in E. lia.
  - rewrite map_cons, (map_cons padded item'), concat_cons2 in E.
    rewrite chars_of_app, padded_chars, !length_app in E. simpl in E. lia.
Qed.

Lemma trimmed_allowList items :
  Forall (fun item => isAccount (account item) = true) items ->
  map TrimSpace (map padded items) = map account items.
Proof.
  induction 1 as [|item items Hi Hall IH]; [done|].
  simpl. now rewrite TrimSpace_padded, IH.
Qed.

End ResolverFacts.

(** ** Claims about the source resolver *)

Section ResolverClaims.
Import Strings Regexp Source Lister.
Local Infix "@" := String.append (at level 60, right associativity).

(** C6. A prefix that ends in [/AWSLogs/<12-digit-account>], with or
    without a trailing slash and with or without the directory
    [o-<org-id>] above the account, gives exactly one listing prefix, that
    prefix followed by [/CloudTrail/]. A prefix that ends in
    [/AWSLogs/o-<org-id>], with or without a trailing slash, and an
    allow-list of accounts separated by commas, each between any number of
    spaces, pass the validation of the list and give exactly one listing
    prefix for each account of the list, in the order of the list:
    [<prefix>/<account>/CloudTrail/]. *)
Theorem C6_prefix_classification {X : Externals}
    (w : S3) (bucketName pre : string)
    (org : option string) (acct : string) (slash : bool) (anyList : string)
    (o : string) (slash' : bool) (items : list (nat * string * nat)) :
  isAccount acct = true ->
  (forall o', org = Some o' -> isOrgId o' = true) ->
  isOrgId o = true ->
  items <> [] ->
  Forall (fun item => isAccount (account item) = true) items ->
  intervalPrefixes w bucketName (accountPrefix pre org acct @ trailing slash) anyList
  = OK [accountPrefix pre org acct @ "/CloudTrail/"]
  /\ MatchString accountListRE (allowList items) = true
  /\ intervalPrefixes w bucketName (orgPrefix pre o @ trailing slash') (allowList items)
     = OK (map (fun item => orgPrefix pre o @ "/" @ account item @ "/CloudTrail/") items).
Proof.
  intros Ha Horg Ho Hn Hall. split; [|split].
  - unfold intervalPrefixes.
    rewrite awsLogsRE_accountPrefix, withSlash_accountPrefix by done.
    do 2 f_equal. string_eq.
  - now apply accountListRE_allowList.
  - unfold intervalPrefixes.
    rewrite awsLogsRE_orgPrefix, awsLogsOrgRE_orgPrefix, withSlash_orgPrefix by done.
    rewrite allowList_not_empty by done. simpl negb. cbv iota.
    rewrite Split_allowList, trimmed_allowList by done.
    replace (len (map account items) <=? 0) with false.
    + f_equal. rewrite map_map. apply map_ext. intros item. string_eq.
    + symmetry. apply Z.leb_gt. unfold len. rewrite length_map.
      destruct items; [done|simpl; lia].
Qed.

(** An account below an organization with a trailing slash, and an
    organization with a list of two accounts. *)
Lemma C6_prefix_classification_witness :
  let w := Scenario.emptyBucket in
  let items := [(0, "111111111111", 0); (1, "222222222222", 0)]%nat in
  intervalPrefixes (X := Sample.sample) w "trail-bucket"
    (accountPrefix "logs" (Some "exampleorgid") "123456789012" @ trailing true) ""
  = OK [accountPrefix "logs" (Some "exampleorgid") "123456789012" @ "/CloudTrail/"]
  /\ MatchString accountListRE (allowList items) = true
  /\ intervalPrefixes (X := Sample.sample) w "trail-bucket"
       (orgPrefix "logs" "exampleorgid" @ trailing false) (allowList items)
     = OK (map (fun item => orgPrefix "logs" "exampleorgid" @ "/" @ account item
                            @ "/CloudTrail/") items).
Proof.
  apply (C6_prefix_classification (X := Sample.sample)
           Scenario.emptyBucket "trail-bucket" "logs" (Some "exampleorgid") "123456789012" true ""
           "exampleorgid" false
           [(0, "111111111111", 0); (1, "222222222222", 0)]%nat).
  - reflexivity.
  - intros o' E. injection E as <-. reflexivity.
  - reflexivity.
  - discriminate.
  - repeat constructor.
Defined.

(** The two examples of the specification. *)
Example C6_examples :
  let w := Scenario.emptyBucket in
  intervalPrefixes (X := Sample.sample) w "trail-bucket" "logs/AWSLogs/123456789012" ""
  = OK ["logs/AWSLogs/123456789012/CloudTrail/"]
  /\ intervalPrefixes (X := Sample.sample) w "trail-bucket"
       "logs/AWSLogs/o-exampleorgid" "111111111111, 222222222222"
     = OK ["logs/AWSLogs/o-exampleorgid/111111111111/CloudTrail/";
           "logs/AWSLogs/o-exampleorgid/222222222222/CloudTrail/"].
Proof. vm_compute. split; reflexivity. Qed.

(** The validation of the allow-list accepts a comma after the last
    account; the piece after it gives a listing prefix without account. *)
Example allow_list_trailing_comma :
  MatchString accountListRE "111111111111," = true
  /\ intervalPrefixes (X := Sample.sample) Scenario.emptyBucket "trail-bucket"
       "logs/AWSLogs/o-exampleorgid" "111111111111,"
     = OK ["logs/AWSLogs/o-exampleorgid/111111111111/CloudTrail/";
           "logs/AWSLogs/o-exampleorgid//CloudTrail/"].
Proof. vm_compute. split; reflexivity. Qed.

End ResolverClaims.

(** ** Key lister *)

Section ListerFacts.
Import Strings Regexp Source Lister.

Lemma ltb_irrefl s : String.ltb s s = false.
Proof.
  unfold String.ltb. pose proof (String.compare_antisym s s) as H.
  destruct (String.compare s s); simpl in H; congruence.
Qed.

Lemma listKeys_files pages startTS endTS : forall fs,
  (listKeys pages startTS endTS fs).1
  = fs ++ omap (acceptKey startTS endTS) (enumerated pages).
Proof.
  induction pages as [|[contents|err] pages IH]; intros fs; simpl.
  - now rewrite app_nil_r.
  - rewrite IH, omap_app. now rewrite <- app_assoc.
  - now rewrite app_nil_r.
Qed.

Lemma acceptKey_no_start endTS path : acceptKey "" endTS path = byExtension path.
Proof.
  unfold acceptKey, byExtension. simpl.
  now destruct (String.eqb (Ext path) ".json"), (HasSuffix path ".json.gz").
Qed.

Lemma acceptKey_in_window startTS endTS path ts :
  embeddedTS path = Some ts ->
  String.ltb ts startTS = false ->
  String.ltb endTS ts = false ->
  acceptKey startTS endTS path = byExtension path.
Proof.
  unfold embeddedTS, acceptKey, byExtension. intros -> H1 H2. rewrite H1, H2.
  rewrite andb_false_r.
  destruct (negb (String.eqb startTS ""));
    now destruct (String.eqb (Ext path) ".json"), (HasSuffix path ".json.gz").
Qed.

End ListerFacts.

(** ** The search for the timestamp of a file name *)

Section SearchFacts.
Import Strings Regexp Lister.
Local Infix "@" := String.append (at level 60, right associativity).

(** What the backtracking search finds is in the language of the
    expression. *)
Lemma search_sound r : forall l cap k res,
  search r l cap k = Some res ->
  exists l1 l2 cap', l = l1 ++ l2 /\ Match r l1 /\ k l2 cap' = Some res.
Proof.
  induction r as [| |p|r1 IH1 r2 IH2|r1 IH1 r2 IH2|r1 IH1|r1 IH1];
    intros l cap k res H.
  - done.
  - exists [], l, cap. split; [done|]. split; [constructor|exact H].
  - simpl in H. destruct l as [|c l']; [done|].
    destruct (p c) eqn:Hp; [|done].
    exists [c], l', cap. split; [done|]. split; [now constructor|exact H].
  - simpl in H. apply IH1 in H as (l1 & l2 & cap1 & -> & H1 & H).
    apply IH2 in H as (l3 & l4 & cap2 & -> & H2 & H).
    exists (l1 ++ l3), l4, cap2. split; [now rewrite app_assoc|].
    split; [now constructor|exact H].
  - simpl in H. destruct (search r1 l cap k) as [found|] eqn:H1.
    + apply IH1 in H1 as (l1 & l2 & cap1 & -> & Hm & Hk).
      exists l1, l2, cap1. split; [done|]. split; [now apply MAltL|congruence].
    + apply IH2 in H as (l1 & l2 & cap1 & -> & Hm & Hk).
      exists l1, l2, cap1. split; [done|]. split; [now apply MAltR|done].
  - simpl in H. revert H. generalize (List.length l) as n. intros n. revert l cap.
    induction n as [|n IHn]; intros l cap H.
    + exists [], l, cap. split; [done|]. split; [constructor|exact H].
    + match type of H with match ?s with _ => _ end = _ => destruct s as [found|] eqn:H1 end.
      * injection H as ->.
        apply IH1 in H1 as (l1 & l2 & cap1 & -> & Hm & Hk).
        destruct (_ <? _)%nat; [|done].
        apply IHn in Hk as (l3 & l4 & cap2 & -> & Hm2 & Hk).
        exists (l1 ++ l3), l4, cap2. split; [now rewrite app_assoc|].
        split; [now constructor|exact Hk].
      * exists [], l, cap. split; [done|]. split; [constructor|exact H].
  - simpl in H. apply IH1 in H as (l1 & l2 & cap1 & -> & Hm & Hk).
    exists l1, l2, (Some (take (List.length (l1 ++ l2) - List.length l2) (l1 ++ l2))).
    split; [done|]. split; [now constructor|exact Hk].
Qed.

(** The greedy star of a class of characters, one character at a time. *)
Lemma search_star_nil p cap k : search (Star (Chr p)) [] cap k = k [] cap.
Proof. reflexivity. Qed.

Lemma search_star_cons p c l cap k :
  search (Star (Chr p)) (c :: l) cap k
  = if p c then
      match search (Star (Chr p)) l cap k with
      | Some found => Some found
      | None => k (c :: l) cap
      end
    else k (c :: l) cap.
Proof.
  change (search (Star (Chr p)) (c :: l) cap k)
    with (match (if p c then
                   if (List.length l <? S (List.length l))%nat
                   then search (Star (Chr p)) l cap k else None
                 else None) with
          | Some found => Some found
          | None => k (c :: l) cap
          end).
  rewrite (proj2 (Nat.ltb_lt _ _)) by lia. now destruct (p c).
Qed.

(** The star reads as many characters as it can when what follows matches
    there. *)
Lemma search_star_stop p a : forall b cap k x,
  allChars p a -> stops p b -> k b cap = Some x ->
  search (Star (Chr p)) (a ++ b) cap k = Some x.
Proof.
  induction a as [|c a IH]; intros b cap k x Ha Hb Hk; cbn [app].
  - destruct b as [|c b]; [exact Hk|]. rewrite search_star_cons.
    simpl in Hb. now rewrite Hb.
  - inversion Ha; subst. rewrite search_star_cons.
    replace (p c) with true by done. now rewrite (IH b cap k x).
Qed.

(** It gives back one character when what follows matches only then. *)
Lemma search_star_back p a : forall z b cap k x,
  allChars p a -> p z = true -> stops p b ->
  k b cap = None -> k (z :: b) cap = Some x ->
  search (Star (Chr p)) (a ++ z :: b) cap k = Some x.
Proof.
  induction a as [|c a IH]; intros z b cap k x Ha Hz Hb Hn Hk; cbn [app].
  - rewrite search_star_cons, Hz.
    assert (Hin : search (Star (Chr p)) b cap k = None).
    { destruct b as [|c b]; [exact Hn|]. rewrite search_star_cons.
      simpl in Hb. now rewrite Hb. }
    now rewrite Hin.
  - inversion Ha; subst. rewrite search_star_cons.
    replace (p c) with true by done. now rewrite (IH z b cap k x).
Qed.

Lemma search_star_none p l : forall cap k,
  (forall j, (j <= List.length l)%nat -> k (drop j l) cap = None) ->
  search (Star (Chr p)) l cap k = None.
Proof.
  induction l as [|c l IH]; intros cap k H.
  - apply (H 0%nat). simpl. lia.
  - rewrite search_star_cons.
    rewrite IH by (intros j Hj; apply (H (S j)); simpl; lia).
    pose proof (H 0%nat) as H0. simpl in H0. rewrite H0 by lia. now destruct (p c).
Qed.

(** It stops at the last place from which what follows matches. *)
Lemma search_star_last p pre : forall tail cap k x,
  allChars p pre -> k tail cap = Some x ->
  (forall j, (1 <= j <= List.length tail)%nat -> k (drop j tail) cap = None) ->
  search (Star (Chr p)) (pre ++ tail) cap k = Some x.
Proof.
  induction pre as [|c pre IH]; intros tail cap k x Ha Hk Hn; cbn [app].
  - destruct tail as [|c t]; [exact Hk|]. rewrite search_star_cons.
    rewrite (search_star_none p t)
      by (intros j Hj; apply (Hn (S j)); simpl; lia).
    rewrite Hk. now destruct (p c).
  - inversion Ha; subst. rewrite search_star_cons.
    replace (p c) with true by done. now rewrite (IH tail cap k x).
Qed.

Lemma search_lit_chars cs : forall l cap k,
  search (foldr (fun c r => Cat (Chr (Ascii.eqb c)) r) Eps cs) (cs ++ l) cap k = k l cap.
Proof.
  induction cs as [|c cs IH]; intros l cap k; simpl; [done|].
  now rewrite Ascii.eqb_refl, IH.
Qed.

Lemma search_lit s l cap k : search (lit s) (chars_of s ++ l) cap k = k l cap.
Proof. apply search_lit_chars. Qed.


(** *** The pattern of the file names *)

Lemma filepathRE_body : body filepathRE = Cat (Star (Chr dot)) stampRE.
Proof. reflexivity. Qed.

Lemma underscores_app a b : underscores (a ++ b) = (underscores a + underscores b)%nat.
Proof. unfold underscores. now rewrite List.filter_app, length_app. Qed.

Lemma underscores_plain l : forallb notUnderscore l = true -> underscores l = 0%nat.
Proof.
  unfold underscores. induction l as [|c l IH]; [done|]. intros H.
  cbn [forallb] in H. apply andb_prop in H as [Hc Hl].
  unfold notUnderscore in Hc. apply negb_true_iff in Hc.
  cbn [List.filter]. rewrite Ascii.eqb_sym, Hc. now apply IH.
Qed.

Lemma underscores_drop j : forall l, (underscores (drop j l) <= underscores l)%nat.
Proof.
  unfold underscores.
  induction j as [|j IH]; intros l; [now rewrite drop_0|].
  destruct l as [|c l]; [done|]. cbn [drop List.filter]. specialize (IH l).
  destruct (Ascii.eqb "_" c); cbn [List.length]; lia.
Qed.

Lemma allChars_forallb p l : allChars p l <-> forallb p l = true.
Proof.
  unfold allChars. rewrite forallb_forall, List.Forall_forall. reflexivity.
Qed.

(** A text of the form of the pattern holds four underscores at least. *)
Lemma Match_stampRE l : Match stampRE l -> (4 <= underscores l)%nat.
Proof.
  unfold stampRE. intros H.
  apply Match_Cat in H as (l1 & r1 & -> & H1 & H).
  apply Match_Cat in H as (l2 & r2 & -> & _ & H).
  apply Match_Cat in H as (l3 & r3 & -> & H3 & H).
  apply Match_Cat in H as (l4 & l5 & -> & _ & H5).
  apply Match_lit in H1, H3, H5. subst.
  rewrite !underscores_app.
  change (underscores (chars_of "_CloudTrail_")) with 2%nat.
  change (underscores (chars_of "_")) with 1%nat.
  change (underscores (chars_of "Z_")) with 1%nat. lia.
Qed.

Lemma Match_filepathRE l : Match (body filepathRE) l -> (4 <= underscores l)%nat.
Proof.
  rewrite filepathRE_body. intros H.
  apply Match_Cat in H as (l1 & l2 & -> & _ & H). apply Match_stampRE in H.
  rewrite underscores_app. lia.
Qed.

Lemma few_underscores_unstamped path :
  (underscores (chars_of path) < 4)%nat -> unstamped path.
Proof.
  intros H pre t post E Hm. apply Match_filepathRE in Hm.
  rewrite E, !underscores_app in H. lia.
Qed.

(** Nothing is found in a key no part of which has the form of the
    pattern. *)
Lemma findFrom_unstamped l : forall pre,
  (forall pre' t post, pre ++ l = pre' ++ t ++ post -> ~ Match (body filepathRE) t) ->
  findFrom (body filepathRE) l = None.
Proof.
  induction l as [|c l IH]; intros pre H; cbn [findFrom].
  - destruct (search (body filepathRE) [] None (fun _ cap => Some cap))
      as [found|] eqn:Hs; [|done].
    apply search_sound in Hs as (l1 & l2 & cap' & E & Hm & _).
    destruct (H pre l1 l2); [now rewrite E|done].
  - destruct (search (body filepathRE) (c :: l) None (fun _ cap => Some cap))
      as [found|] eqn:Hs.
    + apply search_sound in Hs as (l1 & l2 & cap' & E & Hm & _).
      destruct (H pre l1 l2); [now rewrite E|done].
    + apply (IH (pre ++ [c])). intros pre' t post E. apply (H pre' t post).
      now rewrite <- E, <- app_assoc.
Qed.

Lemma embeddedTS_unstamped path : unstamped path -> embeddedTS path = None.
Proof.
  intros H. unfold embeddedTS, FindStringSubmatch.
  now rewrite (findFrom_unstamped (chars_of path) []).
Qed.

(** The search from the underscore before [CloudTrail]: the region is read
    whole, and the group gives back the [Z] that it has read. *)
Lemma search_stampRE region ts rest cap :
  region <> [] -> allChars notUnderscore region ->
  ts <> [] -> allChars notUnderscore ts ->
  search stampRE
    (chars_of "_CloudTrail_" ++ region ++ chars_of "_" ++ ts ++ chars_of "Z_" ++ rest)
    cap (fun _ cap' => Some cap')
  = Some (Some ts).
Proof.
  intros Hr Har Ht Hat. unfold stampRE.
  cbn [search]. rewrite search_lit.
  destruct region as [|r0 region]; [done|]. inversion Har as [|? ? Hr0 Har']; subst.
  cbn [app]. unfold Plus at 1. cbn [search]. rewrite Hr0.
  change (fun (l' : chars) (cap' : option chars) => search (Star (Chr notUnderscore)) l' cap' ?k)
    with (fun (l' : chars) (cap' : option chars) => search (Star (Chr notUnderscore)) l' cap' k).
  apply search_star_stop; [exact Har'|reflexivity|].
  rewrite search_lit.
  destruct ts as [|t0 ts]; [done|]. inversion Hat as [|? ? Ht0 Hat']; subst.
  cbn [app]. unfold Plus. cbn [search]. rewrite Ht0.
  change (chars_of "Z_" ++ rest) with ("Z"%char :: "_"%char :: rest).
  apply search_star_back; [exact Hat'|reflexivity|reflexivity|reflexivity|].
  change ("Z"%char :: "_"%char :: rest) with (chars_of "Z_" ++ rest).
  rewrite search_lit. do 2 f_equal.
  change (t0 :: ts ++ chars_of "Z_" ++ rest) with ((t0 :: ts) ++ chars_of "Z_" ++ rest).
  rewrite length_app.
  replace (List.length (t0 :: ts) + List.length (chars_of "Z_" ++ rest)
           - List.length (chars_of "Z_" ++ rest))%nat
    with (List.length (t0 :: ts)) by lia.
  apply take_app_length.
Qed.

(** No match starts after that underscore. *)
Lemma search_stampRE_later region ts rest j cap k :
  allChars notUnderscore region -> allChars notUnderscore ts ->
  allChars notUnderscore rest ->
  let tail := chars_of "_CloudTrail_" ++ region ++ chars_of "_" ++ ts
              ++ chars_of "Z_" ++ rest in
  (1 <= j <= List.length tail)%nat ->
  search stampRE (drop j tail) cap k = None.
Proof.
  intros Har Hat Hast tail Hj.
  destruct (search stampRE (drop j tail) cap k) as [found|] eqn:Hs; [|done].
  apply search_sound in Hs as (l1 & l2 & cap' & E & Hm & _).
  apply Match_stampRE in Hm.
  assert (Hc : (underscores (drop j tail) <= 3)%nat).
  { destruct j as [|j]; [lia|].
    change (drop (S j) tail)
      with (drop j (chars_of "CloudTrail_" ++ region ++ chars_of "_" ++ ts
                    ++ chars_of "Z_" ++ rest)).
    etrans; [apply underscores_drop|].
    rewrite !underscores_app.
    rewrite (underscores_plain region), (underscores_plain ts), (underscores_plain rest)
      by (now apply allChars_forallb).
    change (underscores (chars_of "CloudTrail_")) with 1%nat.
    change (underscores (chars_of "_")) with 1%nat.
    change (underscores (chars_of "Z_")) with 1%nat. lia. }
  rewrite E, underscores_app in Hc. lia.
Qed.

Lemma segment_chars s :
  segment s = true -> chars_of s <> [] /\ allChars notUnderscore (chars_of s).
Proof.
  unfold segment, plain. intros H. apply andb_prop in H as [Hne Hp].
  split; [|now apply allChars_forallb].
  intros E. destruct s; [done|discriminate E].
Qed.

Lemma findFrom_first r l found :
  search r l None (fun _ cap => Some cap) = Some found -> findFrom r l = Some found.
Proof. intros H. destruct l; cbn [findFrom]; now rewrite H. Qed.

(** The timestamp that the pattern finds in the key of a log file is the
    one of its name. *)
Lemma embeddedTS_trailKey stem region ts unique :
  oneLine stem = true -> segment region = true -> segment ts = true ->
  plain unique = true ->
  embeddedTS (trailKey stem region ts unique) = Some ts.
Proof.
  intros Hs Hr Ht Hu.
  apply segment_chars in Hr as [Hr Har]. apply segment_chars in Ht as [Ht Hat].
  apply allChars_forallb in Hs, Hu.
  unfold embeddedTS, FindStringSubmatch, trailKey.
  rewrite !chars_of_app, filepathRE_body.
  set (tail := chars_of "_CloudTrail_" ++ chars_of region ++ chars_of "_" ++ chars_of ts
               ++ chars_of "Z_" ++ chars_of unique).
  assert (Hfind : findFrom (Cat (Star (Chr dot)) stampRE) (chars_of stem ++ tail)
                  = Some (Some (chars_of ts))).
  { assert (Hs0 : search (Cat (Star (Chr dot)) stampRE) (chars_of stem ++ tail) None
                    (fun _ cap => Some cap) = Some (Some (chars_of ts))).
    { cbn [search].
      apply search_star_last; [exact Hs|now apply search_stampRE|].
      intros j Hj. now apply search_stampRE_later. }
    now apply findFrom_first. }
  rewrite Hfind. now rewrite of_chars_of.
Qed.

End SearchFacts.

(** ** Claims about the key lister *)

Section ListerClaims.
Import Strings Regexp Source Lister Scenario.

(** C5. [listKeys] appends the files of the keys it reads that pass its
    filter, in the order of the listing. With a window of two timestamps,
    [startTS] not after [endTS] in the order of strings, and for the key of
    a log file, [<stem>_CloudTrail_<region>_<timestamp>Z_<unique>]: the
    pattern of [listKeys] finds the timestamp of the name; the key whose
    timestamp equals [startTS], and the one whose timestamp equals [endTS],
    pass the timestamp filter (they are appended when their extension is
    that of JSON); a key whose timestamp is before [startTS] or after
    [endTS] is dropped, and every other one passes. A key no part of which
    has the form of the pattern has no embedded timestamp and passes the
    timestamp filter. *)
Theorem C5_timestamp_window
    (pages : list (listing (list string))) (fs : list fileInfo)
    (startTS endTS stem region unique ts other : string) :
  segment startTS = true ->
  segment endTS = true ->
  String.ltb endTS startTS = false ->
  oneLine stem = true ->
  segment region = true ->
  plain unique = true ->
  segment ts = true ->
  unstamped other ->
  let key t := trailKey stem region t unique in
  (listKeys pages startTS endTS fs).1
  = fs ++ omap (acceptKey startTS endTS) (enumerated pages)
  /\ embeddedTS (key ts) = Some ts
  /\ acceptKey startTS endTS (key startTS) = byExtension (key startTS)
  /\ acceptKey startTS endTS (key endTS) = byExtension (key endTS)
  /\ acceptKey startTS endTS (key ts)
     = (if String.ltb ts startTS || String.ltb endTS ts then None
        else byExtension (key ts))
  /\ embeddedTS other = None
  /\ acceptKey startTS endTS other = byExtension other.
Proof.
  intros Hs He Hse Hstem Hr Hu Hts Hother key.
  assert (Hkey : forall t, segment t = true -> embeddedTS (key t) = Some t).
  { intros t Ht. now apply embeddedTS_trailKey. }
  assert (Hs0 : String.eqb startTS "" = false).
  { unfold segment in Hs. apply andb_prop in Hs as [Hs _]. now apply negb_true_iff in Hs. }
  assert (He0 : String.eqb endTS "" = false).
  { unfold segment in He. apply andb_prop in He as [He _]. now apply negb_true_iff in He. }
  split; [apply listKeys_files|].
  split; [now apply Hkey|].
  split; [eapply acceptKey_in_window; eauto using ltb_irrefl|].
  split; [eapply acceptKey_in_window; eauto using ltb_irrefl|].
  split; [|split; [now apply embeddedTS_unstamped|]].
  - pose proof (Hkey ts Hts) as Hk. unfold embeddedTS in Hk.
    unfold acceptKey, byExtension. rewrite Hs0, He0, Hk. cbn [negb andb].
    destruct (String.ltb ts startTS); [done|]. cbn [orb].
    destruct (String.ltb endTS ts); [done|].
    now destruct (String.eqb (Ext (key ts)) ".json"), (HasSuffix (key ts) ".json.gz").
  - pose proof (embeddedTS_unstamped other Hother) as Hk. unfold embeddedTS in Hk.
    unfold acceptKey, byExtension. rewrite Hs0, Hk. cbn [negb].
    now destruct (String.eqb (Ext other) ".json"), (HasSuffix other ".json.gz").
Qed.

(** Two pages of keys around a window of one day: the keys at its start and
    at its end, a key five minutes after its end, and a key that is no log
    file. *)
Lemma C5_timestamp_window_witness :
  let pages := [Listed [keyAt "20231231T2355"; keyAt "20240101T0000"];
                Listed [keyAt "20240102T0000"; keyAt "20240102T0005"; "notes.json"]] in
  let startTS := "20240101T0000"%string in
  let endTS := "20240102T0000"%string in
  (listKeys pages startTS endTS []).1
  = [] ++ omap (acceptKey startTS endTS) (enumerated pages)
  /\ embeddedTS (keyAt "20240102T0005") = Some "20240102T0005"%string
  /\ acceptKey startTS endTS (keyAt startTS) = byExtension (keyAt startTS)
  /\ acceptKey startTS endTS (keyAt endTS) = byExtension (keyAt endTS)
  /\ acceptKey startTS endTS (keyAt "20240102T0005") = None
  /\ embeddedTS "notes.json" = None
  /\ acceptKey startTS endTS "notes.json" = byExtension "notes.json".
Proof.
  apply (C5_timestamp_window
           [Listed [keyAt "20231231T2355"; keyAt "20240101T0000"];
            Listed [keyAt "20240102T0000"; keyAt "20240102T0005"; "notes.json"]]
           [] "20240101T0000" "20240102T0000"
           "AWSLogs/123456789012/CloudTrail/us-east-1/2024/01/01/123456789012"
           "us-east-1" "abc.json.gz" "20240102T0005" "notes.json").
  - reflexivity.
  - reflexivity.
  - reflexivity.
  - reflexivity.
  - reflexivity.
  - reflexivity.
  - reflexivity.
  - apply few_underscores_unstamped. vm_compute. lia.
Defined.

(** The listing over these pages: the two keys at the bounds and the key
    without timestamp are kept, the keys outside the window are not. *)
Example window_listing :
  (listKeys [Listed [keyAt "20231231T2355"; keyAt "20240101T0000"];
             Listed [keyAt "20240102T0000"; keyAt "20240102T0005"; "notes.json"]]
     "20240101T0000" "20240102T0000" []).1
  = [FileInfo (keyAt "20240101T0000") true; FileInfo (keyAt "20240102T0000") true;
     FileInfo "notes.json" false].
Proof. vm_compute. reflexivity. Qed.

(** C10. When the interval has no start (a zero start time), whatever
    its end, or when no region prefix was found and the given prefix is
    listed as it is, [openS3] passes an empty [startTS] to [listKeys], and
    [listKeys] then filters by extension only: every key it reads that has
    the extension of plain or compressed JSON is appended, whatever
    timestamp its name holds and whatever [endTS] is. *)
Theorem C10_no_start_no_filter {X : Externals}
    (inputParams : list listOrigin) (pfx : string) (startTime endTime : Time)
    (pages : list (listing (list string))) (fs : list fileInfo)
    (endTS path : string) :
  time_IsZero startTime = true \/ inputParams = [] ->
  (exists params, timestampWindow inputParams pfx startTime endTime
                  = OK (EmptyString, EmptyString, params))
  /\ (inputParams = [] ->
      timestampWindow inputParams pfx startTime endTime
      = OK (EmptyString, EmptyString, [ListOrigin pfx None]))
  /\ acceptKey "" endTS path = byExtension path
  /\ (listKeys pages "" endTS fs).1 = fs ++ omap byExtension (enumerated pages).
Proof.
  intros H. split; [|split; [|split]].
  - unfold timestampWindow. destruct H as [H| ->].
    + rewrite H. simpl. destruct (0 <? len inputParams); eauto.
    + simpl. eauto.
  - intros ->. reflexivity.
  - apply acceptKey_no_start.
  - rewrite listKeys_files. f_equal.
    induction (enumerated pages) as [|p l IH]; [done|].
    change (omap ?f (p :: l)) with (match f p with Some y => y :: omap f l | None => omap f l end).
    now rewrite acceptKey_no_start, IH.
Qed.

(** An interval with an end and no start, one region prefix, and a key
    after the end. *)
Lemma C10_no_start_no_filter_witness :
  let pages := [Listed [keyAt "20231231T2355"; keyAt "20240105T0000"; "notes.txt"]] in
  (exists params,
      timestampWindow (X := Sample.sample) [ListOrigin "AWSLogs/123456789012/CloudTrail/us-east-1/" None]
        "AWSLogs/123456789012" Sample.zeroTime (Sample.Civil 2024 1 2 0 0 0)
      = OK (EmptyString, EmptyString, params))
  /\ ([ListOrigin "AWSLogs/123456789012/CloudTrail/us-east-1/" None] = [] ->
      timestampWindow (X := Sample.sample) [ListOrigin "AWSLogs/123456789012/CloudTrail/us-east-1/" None]
        "AWSLogs/123456789012" Sample.zeroTime (Sample.Civil 2024 1 2 0 0 0)
      = OK (EmptyString, EmptyString, [ListOrigin "AWSLogs/123456789012" None]))
  /\ acceptKey "" "20240102T0000" (keyAt "20240105T0000") = byExtension (keyAt "20240105T0000")
  /\ (listKeys pages "" "20240102T0000" []).1 = [] ++ omap byExtension (enumerated pages).
Proof.
  apply (C10_no_start_no_filter (X := Sample.sample)
           [ListOrigin "AWSLogs/123456789012/CloudTrail/us-east-1/" None]
           "AWSLogs/123456789012" Sample.zeroTime (Sample.Civil 2024 1 2 0 0 0)
           [Listed [keyAt "20231231T2355"; keyAt "20240105T0000"; "notes.txt"]]
           [] "20240102T0000" (keyAt "20240105T0000")).
  left. reflexivity.
Defined.

(** With an end and no start, a key after the end is appended. *)
Example end_without_start :
  (listKeys [Listed [keyAt "20231231T2355"; keyAt "20240105T0000"; "notes.txt"]]
     "" "20240102T0000" []).1
  = [FileInfo (keyAt "20231231T2355") true; FileInfo (keyAt "20240105T0000") true].
Proof. vm_compute. reflexivity. Qed.

(** [openS3] on a prefix that is no CloudTrail directory, in a bucket
    without region prefixes: the interval has a start, and the key before
    it is appended all the same. *)
Example fallback_listing_ignores_interval :
  (openS3 (X := Sample.sample)
     (flatBucket [keyAt "20231231T2355"; keyAt "20240105T0000"; "notes.txt"])
     "s3://trail-bucket/logs" unopened).1 = Nil
  /\ files (openS3 (X := Sample.sample)
              (flatBucket [keyAt "20231231T2355"; keyAt "20240105T0000"; "notes.txt"])
              "s3://trail-bucket/logs" unopened).2
     = [FileInfo (keyAt "20231231T2355") true; FileInfo (keyAt "20240105T0000") true].
Proof. vm_compute. split; reflexivity. Qed.

(** [openS3] on the directory of an account, in a bucket with a region
    prefix: the key before the start of the interval is dropped. *)
Example account_listing_applies_start :
  files (openS3 (X := Sample.sample)
           (regionBucket [keyAt "20231231T2355"; keyAt "20240105T0000"; "notes.txt"])
           "s3://trail-bucket/logs/AWSLogs/123456789012" unopened).2
  = [FileInfo (keyAt "20240105T0000") true].
Proof. vm_compute. reflexivity. Qed.

End ListerClaims.

(** * Further properties of the code *)

Ltac len_lia :=
  repeat (rewrite len_app in * || rewrite len_cons in * || rewrite len_nil in * );
  lia.

(** ** More on the record splitter *)

Section SplitterMore.
Import Splitter Shapes.

Lemma step_res js pos c i e r :
  step js pos c (Scan i e r)
  = Scan (indentation (step js pos c (Scan i e [])))
         (entryStart (step js pos c (Scan i e [])))
         (r ++ res (step js pos c (Scan i e []))).
Proof.
  unfold step. simpl.
  repeat case_match; simpl; now rewrite ?app_nil_r.
Qed.

Lemma scanFrom_res js rest : forall pos i e r,
  scanFrom js rest pos (Scan i e r)
  = Scan (indentation (scanFrom js rest pos (Scan i e [])))
         (entryStart (scanFrom js rest pos (Scan i e [])))
         (r ++ res (scanFrom js rest pos (Scan i e []))).
Proof.
  induction rest as [|c rest IH]; intros pos i e r; simpl.
  - now rewrite app_nil_r.
  - rewrite step_res.
    destruct (step js pos c (Scan i e [])) as [i' e' a] eqn:Hs. simpl.
    rewrite (IH (pos + 1) i' e' (r ++ a)), (IH (pos + 1) i' e' a). simpl.
    now rewrite app_assoc.
Qed.

(** X1. [extractRecordStrings] only appends to [*res]: the entries that
    the list held before the call are kept, in order, and the entries added
    do not depend on them. *)
Theorem X1_splitter_appends (jsonStr : bytes) (res0 : list bytes) :
  extractRecordStrings jsonStr res0 = res0 ++ extractRecordStrings jsonStr [].
Proof. unfold extractRecordStrings. now rewrite scanFrom_res. Qed.

Lemma byte_eqb_eq a b : Byte.eqb a b = true -> a = b.
Proof. apply Byte.byte_dec_bl. Qed.

(** One iteration keeps the entries ranges of the input and the open record
    described by [pending]. *)
Lemma step_inv js seen c rest' s :
  js = seen ++ c :: rest' ->
  Forall (rangeOf js) (res s) -> pending seen s ->
  Forall (rangeOf js) (res (step js (len seen) c s))
  /\ pending (seen ++ [c]) (step js (len seen) c s).
Proof.
  intros Hjs Hres Hopen. unfold step.
  destruct (Byte.eqb c lbrace) eqn:Hl.
  - apply byte_eqb_eq in Hl. subst c. split; [exact Hres|].
    intros H2. simpl in *.
    destruct (indentation s =? 1) eqn:H1.
    + apply Z.eqb_eq in H1. exists seen, []. split; [done|]. split; [done|].
      intros tail. rewrite H1. reflexivity.
    + apply Z.eqb_neq in H1. destruct Hopen as (pre & mid & Hd & He & Hc); [lia|].
      exists pre, (mid ++ [lbrace]). split; [rewrite Hd; now rewrite <- app_assoc|].
      split; [done|]. intros tail. rewrite <- app_assoc. simpl. rewrite Hc. simpl.
      f_equal. lia.
  - destruct (Byte.eqb c rbrace) eqn:Hr.
    + apply byte_eqb_eq in Hr. subst c.
      destruct (indentation s - 1 =? 1) eqn:H1.
      * apply Z.eqb_eq in H1.
        assert (Ho : pending (seen ++ [rbrace])
                       (Scan (indentation s - 1) (entryStart s) (res s)))
          by (intros H2; simpl in H2; lia).
        destruct (len seen <? len js - 1) eqn:Hlast.
        -- split; [|intros H2; simpl in H2; lia]. simpl.
           apply Forall_app. split; [exact Hres|]. constructor; [|constructor].
           destruct Hopen as (pre & mid & Hd & He & Hc); [lia|].
           apply Z.ltb_lt in Hlast.
           assert (Hentry : slice js (entryStart s) (len seen + 1)
                            = lbrace :: mid ++ [rbrace]).
           { rewrite Hjs, Hd, <- He.
             replace ((pre ++ lbrace :: mid) ++ rbrace :: rest')
               with (pre ++ (lbrace :: mid ++ [rbrace]) ++ rest')
               by (rewrite <- !app_assoc; simpl; now rewrite <- app_assoc).
             replace (len (pre ++ lbrace :: mid) + 1)
               with (len pre + len (lbrace :: mid ++ [rbrace])) by len_lia.
             apply slice_middle. }
           rewrite Hentry. split.
           ++ simpl. rewrite Hc.
              replace (Z.to_nat (indentation s - 2)) with 0%nat by lia. reflexivity.
           ++ exists pre, rest'. split.
              ** rewrite Hjs, Hd. rewrite <- !app_assoc. simpl. now rewrite <- app_assoc.
              ** intros ->. rewrite Hjs in Hlast. revert Hlast. len_lia.
        -- split; [exact Hres|exact Ho].
      * apply Z.eqb_neq in H1. split; [exact Hres|]. intros H2. simpl in *.
        destruct Hopen as (pre & mid & Hd & He & Hc); [lia|].
        exists pre, (mid ++ [rbrace]). split; [rewrite Hd; now rewrite <- app_assoc|].
        split; [done|]. intros tail. rewrite <- app_assoc. simpl. rewrite Hc.
        replace (Z.to_nat (indentation s - 2))
          with (S (Z.to_nat (indentation s - 1 - 2))) by lia.
        reflexivity.
    + split; [exact Hres|]. intros H2.
      destruct Hopen as (pre & mid & Hd & He & Hc); [lia|].
      exists pre, (mid ++ [c]). split; [rewrite Hd; now rewrite <- app_assoc|].
      split; [done|]. intros tail. rewrite <- app_assoc. simpl. rewrite Hc. simpl.
      now rewrite Hl, Hr.
Qed.

Lemma scanFrom_inv js rest : forall seen s,
  js = seen ++ rest ->
  Forall (rangeOf js) (res s) -> pending seen s ->
  Forall (rangeOf js) (res (scanFrom js rest (len seen) s)).
Proof.
  induction rest as [|c rest IH]; intros seen s Hjs Hres Hopen; simpl; [done|].
  destruct (step_inv js seen c rest s Hjs Hres Hopen) as [Hr Ho].
  replace (len seen + 1) with (len (seen ++ [c])) by len_lia.
  apply IH; [rewrite Hjs; now rewrite <- app_assoc|done|done].
Qed.

(** X2. Whatever the bytes of the input, every entry that
    [extractRecordStrings] extracts is a contiguous range of the input that
    starts with an opening brace, ends with the closing brace that matches
    it (counting every brace byte), and ends before the last byte of the
    input. *)
Theorem X2_splitter_entries_brace_matched (jsonStr : bytes) :
  Forall (fun entry =>
            braceMatched entry = true
            /\ exists pre post, jsonStr = pre ++ entry ++ post /\ post <> [])
         (extractRecordStrings jsonStr []).
Proof.
  unfold extractRecordStrings.
  apply (scanFrom_inv jsonStr jsonStr [] (Scan 0 0 [])); [done|constructor|].
  intros H. simpl in H. lia.
Qed.

Lemma scanFrom_spaced items : forall pre post e r,
  Forall (fun it => braceFree it.1 = true /\ braceMatched it.2 = true) items ->
  post <> [] ->
  exists e',
    scanFrom (pre ++ spaced items ++ post) (spaced items) (len pre) (Scan 1 e r)
    = Scan 1 e' (r ++ map snd items).
Proof.
  induction items as [|[f o] items IH]; intros pre post e r Hall Hpost.
  - exists e. simpl. now rewrite app_nil_r.
  - inversion Hall as [|? ? [Hf Ho] Hall']; subst. simpl in Hf, Ho.
    destruct (IH (pre ++ f ++ o) post (len (pre ++ f)) (r ++ [o]) Hall' Hpost) as [e' He'].
    exists e'. cbn [spaced map snd].
    rewrite !scanFrom_app, (scanFrom_braceFree _ f) by done.
    replace (pre ++ (f ++ o ++ spaced items) ++ post)
      with ((pre ++ f) ++ o ++ (spaced items ++ post)) by (now rewrite <- !app_assoc).
    replace (len pre + len f) with (len (pre ++ f)) by len_lia.
    rewrite scanFrom_record; [|done|destruct (spaced items); [done|discriminate]].
    replace ((pre ++ f) ++ o ++ spaced items ++ post)
      with ((pre ++ f ++ o) ++ spaced items ++ post) by (now rewrite <- !app_assoc).
    replace (len (pre ++ f) + len o) with (len (pre ++ f ++ o)) by len_lia.
    rewrite He'. now rewrite <- app_assoc.
Qed.

Lemma step_lbrace js pos i e r :
  step js pos lbrace (Scan i e r) = Scan (i + 1) (if i =? 1 then pos else e) r.
Proof. reflexivity. Qed.

(** X3. For a file made of an opening brace, then any number of
    brace-matched records, each after bytes that hold no brace (a key, a
    bracket, commas, spaces, line ends), then bytes without brace, the
    closing brace and again bytes without brace, [extractRecordStrings]
    appends exactly the records, in order and byte for byte. *)
Theorem X3_splitter_spaced_records
    (items : list (bytes * bytes)) (filler after : bytes) (res0 : list bytes) :
  Forall (fun it => braceFree it.1 = true /\ braceMatched it.2 = true) items ->
  braceFree filler = true ->
  braceFree after = true ->
  extractRecordStrings ([lbrace] ++ spaced items ++ filler ++ [rbrace] ++ after) res0
  = res0 ++ map snd items.
Proof.
  intros Hall Hf Ha. unfold extractRecordStrings.
  set (js := [lbrace] ++ spaced items ++ filler ++ [rbrace] ++ after).
  destruct (scanFrom_spaced items [lbrace] (filler ++ [rbrace] ++ after) 0 res0 Hall)
    as [e' He']; [destruct filler; discriminate|].
  fold js in He'. unfold js at 2.
  rewrite scanFrom_app. simpl scanFrom at 2. rewrite step_lbrace.
  rewrite scanFrom_app. rewrite !Z.add_0_l. change (0 =? 1) with false. cbv iota.
  rewrite He'.
  rewrite scanFrom_app, (scanFrom_braceFree _ filler) by done.
  simpl scanFrom. unfold step at 1.
  change (Byte.eqb rbrace lbrace) with false. change (Byte.eqb rbrace rbrace) with true.
  cbv iota. simpl. now rewrite (scanFrom_braceFree _ after).
Qed.

Lemma scanFrom_closes_last js tl : forall d pos e r,
  closes d tl = true ->
  pos + len tl = len js ->
  scanFrom js tl pos (Scan (2 + Z.of_nat d) e r) = Scan 1 e r.
Proof.
  induction tl as [|c tl IH]; intros d pos e r Hc Hlen; simpl in Hc; [done|].
  rewrite len_cons in *. simpl scanFrom. unfold step. simpl indentation.
  simpl entryStart. simpl res.
  destruct (Byte.eqb c lbrace) eqn:Hl.
  - replace (2 + Z.of_nat d =? 1) with false by (symmetry; apply Z.eqb_neq; lia).
    replace (2 + Z.of_nat d + 1) with (2 + Z.of_nat (S d)) by lia.
    apply IH; [done|lia].
  - destruct (Byte.eqb c rbrace) eqn:Hr.
    + destruct d as [|d'].
      * destruct tl; [|done]. simpl.
        replace (pos <? len js - 1) with false
          by (symmetry; apply Z.ltb_ge; unfold len in *; simpl in *; lia).
        done.
      * replace (2 + Z.of_nat (S d') - 1 =? 1) with false
          by (symmetry; apply Z.eqb_neq; lia).
        replace (2 + Z.of_nat (S d') - 1) with (2 + Z.of_nat d') by lia.
        apply IH; [done|lia].
    + apply IH; [done|lia].
Qed.

(** X4. A record whose closing brace is the last byte of the file is not
    extracted: for a file cut right after a record, the records before it
    are appended and that record is not. *)
Theorem X4_splitter_truncated_file
    (items : list (bytes * bytes)) (filler obj : bytes) (res0 : list bytes) :
  Forall (fun it => braceFree it.1 = true /\ braceMatched it.2 = true) items ->
  braceFree filler = true ->
  braceMatched obj = true ->
  extractRecordStrings ([lbrace] ++ spaced items ++ filler ++ obj) res0
  = res0 ++ map snd items.
Proof.
  intros Hall Hf Ho. unfold extractRecordStrings.
  set (js := [lbrace] ++ spaced items ++ filler ++ obj).
  destruct obj as [|c s]; [done|]. simpl in Ho. apply andb_prop in Ho as [Hc Hs].
  destruct (scanFrom_spaced items [lbrace] (filler ++ c :: s) 0 res0 Hall)
    as [e' He']; [destruct filler; discriminate|].
  fold js in He'. unfold js at 2.
  rewrite scanFrom_app. simpl scanFrom at 2. rewrite step_lbrace.
  rewrite scanFrom_app. rewrite !Z.add_0_l. change (0 =? 1) with false. cbv iota.
  rewrite He'.
  rewrite scanFrom_app, (scanFrom_braceFree _ filler) by done.
  simpl scanFrom. unfold step at 1. rewrite Hc. simpl.
  change (1 + 1) with (2 + Z.of_nat 0).
  rewrite scanFrom_closes_last; [done|done|]. unfold js. len_lia.
Qed.

End SplitterMore.

(** ** More on the pull state machine *)

Section PullFacts.
Import Source Producer Invariant Session.
Context {X : Externals}.

Lemma index_lt {A} (l : list A) i :
  0 <= i < len l -> exists x, index l i = Some x.
Proof.
  intros [H0 H1]. unfold index.
  replace (i <? 0) with false by (symmetry; apply Z.ltb_ge; lia).
  apply lookup_lt_is_Some_2. unfold len in H1. lia.
Qed.

Lemma index_Some {A} (l : list A) i x :
  index l i = Some x <-> 0 <= i /\ l !! Z.to_nat i = Some x.
Proof.
  unfold index. destruct (i <? 0) eqn:H.
  - apply Z.ltb_lt in H. split; [done|]. intros [? _]. lia.
  - apply Z.ltb_ge in H. tauto.
Qed.

Lemma slice_all {A} (l : list A) n : len l <= n -> slice l 0 n = l.
Proof.
  intros H. unfold slice. rewrite drop_0. apply take_ge. unfold len in H. lia.
Qed.

Lemma Zgeb_false a b : a < b -> (a >=? b) = false.
Proof. intros H. rewrite Z.geb_leb. now apply Z.leb_gt. Qed.

Lemma Zgeb_true a b : b <= a -> (a >=? b) = true.
Proof. intros H. rewrite Z.geb_leb. now apply Z.leb_le. Qed.

Lemma uint32_small n : 0 <= n < 2 ^ 32 -> uint32 n = n.
Proof. intros H. unfold uint32. now apply Z.mod_small. Qed.

(** The code after the buffer is filled pops the record at the cursor,
    whatever it makes of it. *)
Lemma nextRecord_state io c evt :
  0 <= evtJSONListPos c < len (evtJSONStrings c) ->
  (nextRecord io c evt).1.2 = set_evtJSONListPos (evtJSONListPos c + 1) c.
Proof.
  intros H. unfold nextRecord.
  destruct (index_lt _ _ H) as [evtData Hi]. rewrite Hi.
  replace (len (evtJSONStrings c) =? 0) with false by (symmetry; apply Z.eqb_neq; lia).
  simpl. repeat case_match; reflexivity.
Qed.

(** X5. A pull that finds a record left in the buffer opens no file and
    polls no queue, and it consumes exactly that record whatever the
    outcome (emitted, dropped, or a failure of the writer): the session
    after the pull is the session before it with the record cursor one
    further. *)
Theorem X5_pull_consumes_one_record (io : IO) (c : PluginInstance) (evt : event) :
  0 <= evtJSONListPos c < len (evtJSONStrings c) ->
  (nextEvent io c evt).1.2 = set_evtJSONListPos (evtJSONListPos c + 1) c.
Proof.
  intros H. unfold nextEvent, fillBuffer.
  rewrite Zgeb_false by lia. now apply nextRecord_state.
Qed.

(** X6. A pull returns [nil] only when it has popped a record that parses,
    whose [eventTime] is a string that parses as a time, whose [eventType]
    is a string other than the insight type, and that the writer took
    whole without error; the event then carries the time of the record as
    its timestamp and the bytes of the record appended to what it held, and
    the record cursor is one past the record. *)
Theorem X6_nil_means_record_written (io : IO) (c : PluginInstance) (evt : event) :
  (nextEvent io c evt).1.1 = Nil ->
  exists c1 evtData cr timeVal t1 typeVal n,
    fillBuffer io c = Continue c1
    /\ index (evtJSONStrings c1) (evtJSONListPos c1) = Some evtData
    /\ fastjson_Parse (s_of evtData) = Some cr
    /\ GetStringBytes cr "eventTime" = Some timeVal
    /\ time_Parse (s_of timeVal) = Some t1
    /\ GetStringBytes cr "eventType" = Some typeVal
    /\ s_of typeVal <> "AwsCloudTrailInsight"%string
    /\ evt_Write io evtData = (n, None) /\ len evtData <= n
    /\ nextEvent io c evt
       = (Nil, set_evtJSONListPos (evtJSONListPos c1 + 1) c1,
          Event (Some (uint64 t1)) (written evt ++ evtData)).
Proof.
  unfold nextEvent. destruct (fillBuffer io c) as [o c1|c1] eqn:Hfill.
  - simpl. intros ->. unfold fillBuffer in Hfill.
    destruct (evtJSONListPos c >=? len (evtJSONStrings c)); [|done].
    unfold openNextFile in Hfill.
    destruct (moreFiles io c) as [o2 c2|c2] eqn:Hmf.
    + simplify_eq. unfold moreFiles in Hmf.
      repeat case_match; simplify_eq.
    + repeat case_match; simplify_eq.
  - unfold nextRecord. intros H.
    destruct (len (evtJSONStrings c1) =? 0); [done|]. simpl in H.
    destruct (index (evtJSONStrings c1) (evtJSONListPos c1)) as [evtData|] eqn:Hi; [|done].
    destruct (fastjson_Parse (s_of evtData)) as [cr|] eqn:Hp; [|done].
    destruct (GetStringBytes cr "eventTime") as [timeVal|] eqn:Ht; [|done].
    destruct (time_Parse (s_of timeVal)) as [t1|] eqn:Ht1; [|done].
    destruct (GetStringBytes cr "eventType") as [typeVal|] eqn:Hty; [|done].
    destruct (String.eqb (s_of typeVal) "AwsCloudTrailInsight") eqn:Hins; [done|].
    destruct (evt_Write io evtData) as [n err] eqn:Hw.
    destruct err as [e|]; [done|].
    destruct (n <? len evtData) eqn:Hn; [done|].
    apply Z.ltb_ge in Hn. apply String.eqb_neq in Hins.
    exists c1, evtData, cr, timeVal, t1, typeVal, n.
    repeat (split; [done|]). simpl. now rewrite slice_all.
Qed.

(** X7. A popped record that parses, with a string [eventTime] that is
    a time, a string [eventType] other than the insight type, and a writer
    that takes all its bytes, is emitted: the pull returns [nil], the bytes
    written are those of the record, and the timestamp is the time in
    nanoseconds converted from [int64] to [uint64], so a time before 1970
    wraps to [2^64] minus its distance to 1970. *)
Theorem X7_valid_record_emitted (io : IO) (c : PluginInstance) (evt : event)
    (c1 : PluginInstance) (evtData timeVal typeVal : bytes) (cr : Json.json) (t1 : Z) :
  fillBuffer io c = Continue c1 ->
  index (evtJSONStrings c1) (evtJSONListPos c1) = Some evtData ->
  fastjson_Parse (s_of evtData) = Some cr ->
  GetStringBytes cr "eventTime" = Some timeVal ->
  time_Parse (s_of timeVal) = Some t1 ->
  - 2 ^ 63 <= t1 < 2 ^ 63 ->
  GetStringBytes cr "eventType" = Some typeVal ->
  s_of typeVal <> "AwsCloudTrailInsight"%string ->
  evt_Write io evtData = (len evtData, None) ->
  nextEvent io c evt
  = (Nil, set_evtJSONListPos (evtJSONListPos c1 + 1) c1,
     Event (Some (if 0 <=? t1 then t1 else 2 ^ 64 + t1)) (written evt ++ evtData)).
Proof.
  intros Hfill Hidx Hparse Htime Ht Hrange Hty Hins Hw.
  apply String.eqb_neq in Hins.
  unfold nextEvent, nextRecord.
  rewrite Hfill, (index_Some_len _ _ _ Hidx), Hidx, Hparse, Htime, Ht, Hty, Hins, Hw.
  simpl. rewrite Z.ltb_irrefl, slice_all by lia.
  do 3 f_equal. unfold uint64.
  destruct (0 <=? t1) eqn:H0.
  - apply Z.leb_le in H0. apply Z.mod_small. lia.
  - apply Z.leb_gt in H0. rewrite <- (Z.mod_add t1 1 (2 ^ 64)) by lia.
    rewrite Z.mod_small; lia.
Qed.

(** X8. A popped record that parses and whose [eventType] is the string
    [AwsCloudTrailInsight] is dropped, whatever else it holds: the pull
    returns retry-later, the record cursor is past the record and nothing
    is written; when the record has an [eventTime] that is a time, the
    timestamp of the event has been set to it all the same. *)
Theorem X8_insight_record_dropped (io : IO) (c : PluginInstance) (evt : event)
    (c1 : PluginInstance) (evtData typeVal : bytes) (cr : Json.json) :
  fillBuffer io c = Continue c1 ->
  index (evtJSONStrings c1) (evtJSONListPos c1) = Some evtData ->
  fastjson_Parse (s_of evtData) = Some cr ->
  GetStringBytes cr "eventType" = Some typeVal ->
  s_of typeVal = "AwsCloudTrailInsight"%string ->
  (nextEvent io c evt).1.1 = Err ErrTimeout
  /\ (nextEvent io c evt).1.2 = set_evtJSONListPos (evtJSONListPos c1 + 1) c1
  /\ written (nextEvent io c evt).2 = written evt
  /\ timestamp (nextEvent io c evt).2
     = match GetStringBytes cr "eventTime" with
       | Some timeVal =>
           match time_Parse (s_of timeVal) with
           | Some t1 => Some (uint64 t1)
           | None => timestamp evt
           end
       | None => timestamp evt
       end.
Proof.
  intros Hfill Hidx Hparse Hty Hins.
  unfold nextEvent, nextRecord.
  rewrite Hfill, (index_Some_len _ _ _ Hidx), Hidx, Hparse, Hty, Hins. simpl.
  destruct (GetStringBytes cr "eventTime") as [timeVal|]; [|done].
  now destruct (time_Parse (s_of timeVal)).
Qed.

Lemma nextRecord_written io c evt :
  (nextRecord io c evt).1.1 = Nil
  \/ fatal (nextRecord io c evt).1.1 = true
  \/ written (nextRecord io c evt).2 = written evt.
Proof.
  unfold nextRecord. repeat case_match; simpl; auto.
Qed.

(** X9. A pull writes to the event only when it returns [nil] or a fatal
    error: every pull that returns retry-later or end-of-stream, or that
    panics, leaves the bytes of the event as they were. *)
Theorem X9_writes_only_on_nil_or_fatal (io : IO) (c : PluginInstance) (evt : event) :
  (nextEvent io c evt).1.1 = Nil
  \/ fatal (nextEvent io c evt).1.1 = true
  \/ written (nextEvent io c evt).2 = written evt.
Proof.
  unfold nextEvent. destruct (fillBuffer io c) as [o c1|c1]; simpl; [auto|].
  apply nextRecord_written.
Qed.

(** *** Indexes in range *)

Lemma nextEvent_local_inRange io c evt :
  openMode c = fileMode -> inRange c ->
  (nextEvent io c evt).1.1 <> Panic
  /\ openMode (nextEvent io c evt).1.2 = fileMode
  /\ inRange (nextEvent io c evt).1.2
  /\ files (nextEvent io c evt).1.2 = files c.
Proof.
  intros Hm (Hp & Hc & Hf).
  assert (Hlen : uint32 (len (files c)) = len (files c))
    by (apply uint32_small; pose proof (len_nonneg (files c)); lia).
  assert (Hrec : forall c1, openMode c1 = fileMode -> inRange c1 -> files c1 = files c ->
            (evtJSONListPos c1 <? len (evtJSONStrings c1)) = true ->
            (nextRecord io c1 evt).1.1 <> Panic
            /\ openMode (nextRecord io c1 evt).1.2 = fileMode
            /\ inRange (nextRecord io c1 evt).1.2
            /\ files (nextRecord io c1 evt).1.2 = files c).
  { intros c1 Hm1 (Hp1 & Hc1 & Hf1) Hfs Hlt. apply Z.ltb_lt in Hlt.
    rewrite nextRecord_state by lia. simpl.
    split; [|split; [done|split; [|done]]].
    - unfold nextRecord.
      destruct (index_lt (evtJSONStrings c1) (evtJSONListPos c1)) as [d Hd]; [lia|].
      rewrite Hd. repeat case_match; simpl; congruence.
    - unfold inRange. simpl. lia. }
  unfold nextEvent, fillBuffer.
  destruct (evtJSONListPos c >=? len (evtJSONStrings c)) eqn:Hge.
  - unfold openNextFile, moreFiles. rewrite Hm, Hlen.
    destruct (curFileNum c >=? len (files c)) eqn:Hcur.
    + simpl. repeat split; done.
    + rewrite Z.geb_leb in Hcur. apply Z.leb_gt in Hcur.
      destruct (index_lt (files c) (curFileNum c)) as [file Hfile]; [lia|].
      rewrite Hfile. unfold fetchFile. simpl. rewrite Hm. unfold readFileLocal.
      assert (Hu : 0 <= uint32 (curFileNum c + 1)) by apply uint32_range.
      destruct (ioutil_ReadFile io (name file)) as [b|msg]; simpl.
      * destruct (if isCompressed file then gunzip b else Some b) as [data|]; simpl.
        -- destruct (Splitter.extractRecordStrings data []) as [|r rs] eqn:Hx.
           ++ unfold nextRecord. simpl.
              repeat split; simpl; try done; lia.
           ++ apply Hrec; simpl; try done.
              all: try (repeat split; simpl; lia).
              all: try (rewrite len_cons; apply Z.ltb_lt; pose proof (len_nonneg rs); lia).
        -- repeat split; simpl; try done; lia.
      * repeat split; simpl; try done; lia.
  - apply Hrec; try done. apply Z.ltb_lt. rewrite Z.geb_leb in Hge.
    apply Z.leb_gt in Hge. lia.
Qed.

(** X10. A session that reads local files never indexes out of range:
    from a state whose cursors are not negative and whose file list is
    shorter than [2^32], no pull of any sequence of pulls panics, whatever
    the file system and the writer answer, and the cursors stay in range
    and the file list is never changed. *)
Theorem X10_local_session_never_panics (calls : list (IO * event)) (c : PluginInstance) :
  openMode c = fileMode ->
  inRange c ->
  Forall (fun o => o <> Panic) (pulls calls c).1
  /\ inRange (pulls calls c).2
  /\ files (pulls calls c).2 = files c.
Proof.
  revert c. induction calls as [|[io evt] calls IH]; intros c Hm Hr; simpl.
  - split; [constructor|done].
  - destruct (nextEvent_local_inRange io c evt Hm Hr) as (Hp & Hm1 & Hr1 & Hf1).
    destruct (nextEvent io c evt) as [[o c1] evt1]. simpl in *.
    specialize (IH c1 Hm1 Hr1).
    destruct (pulls calls c1) as [os c2]. simpl in *.
    destruct IH as (IH1 & IH2 & IH3).
    split; [now constructor|]. split; [done|congruence].
Qed.

End PullFacts.

(** ** More on the queue poll *)

Section PollFacts.
Import Source Producer Invariant Session.
Context {X : Externals}.

Lemma initS3_bucket c c' :
  initS3 c = Some c' -> bucket (s3 c') = bucket (s3 c).
Proof. unfold initS3. intros H. repeat case_match; now simplify_eq. Qed.

Lemma initS3_total c :
  0 <= S3DownloadConcurrency (config c) -> exists c', initS3 c = Some c'.
Proof.
  intros H. unfold initS3. destruct (client (s3 c)); [eauto|].
  replace (S3DownloadConcurrency (config c) <? 0) with false
    by (symmetry; apply Z.ltb_ge; lia).
  eauto.
Qed.





Lemma getMoreSQSFiles_failed io c e c' :
  getMoreSQSFiles io c = (Err e, c') -> c' = c.
Proof.
  unfold getMoreSQSFiles. intros H. repeat case_match; now simplify_eq.
Qed.

(** X13. When a queue session with nothing buffered and no file left polls
    the queue and the poll returns an error (the receive or the delete
    fails, or the message is no well-formed notification), the pull returns
    that error, which is fatal, and leaves the session and the event exactly
    as they were: no file is added and no cursor moves. *)
Theorem X13_failed_poll_changes_nothing
    (io : IO) (c : PluginInstance) (evt : event) (e : error) :
  openMode c = sqsMode ->
  (evtJSONListPos c >=? len (evtJSONStrings c)) = true ->
  (curFileNum c >=? uint32 (len (files c))) = true ->
  (getMoreSQSFiles io c).1 = Err e ->
  nextEvent io c evt = (Err e, c, evt) /\ fatal (Err e) = true.
Proof.
  intros Hm Hp Hc He.
  destruct (getMoreSQSFiles io c) as [o c'] eqn:Hg. simpl in He. subst o.
  pose proof (getMoreSQSFiles_failed _ _ _ _ Hg) as ->.
  pose proof (getMoreSQSFiles_err _ _ _ _ Hg) as [msg ->].
  unfold nextEvent, fillBuffer, openNextFile, moreFiles.
  now rewrite Hp, Hc, Hm, Hg.
Qed.

End PollFacts.

(** ** More on the downloader *)

Section DownloadFacts.
Import Source Producer Invariant Session.
Context {X : Externals}.



Lemma slice_lookup {A} (l : list A) lo hi i :
  0 <= lo -> 0 <= i < hi - lo ->
  index (slice l lo hi) i = index l (lo + i).
Proof.
  intros Hlo Hi. unfold index, slice.
  replace (i <? 0) with false by (symmetry; apply Z.ltb_ge; lia).
  replace (lo + i <? 0) with false by (symmetry; apply Z.ltb_ge; lia).
  rewrite lookup_take_lt by lia. rewrite lookup_drop. f_equal. lia.
Qed.

Lemma slice_In {A} (l : list A) lo hi x : In x (slice l lo hi) -> In x l.
Proof.
  unfold slice. intros H. apply list_elem_of_In in H.
  apply list_elem_of_In. apply elem_of_take in H as (i & H & _).
  rewrite lookup_drop in H. eapply list_elem_of_lookup_2; eauto.
Qed.

(** The read of the file at the cursor, in a session that is aligned. *)
Lemma fetchFile_aligned (io : IO) (c : PluginInstance) (body : string -> bytes)
    (file : fileInfo) :
  openMode c <> fileMode ->
  aligned body c ->
  stocked io body c ->
  index (files c) (curFileNum c) = Some file ->
  (fetchFile io file (set_curFileNum (uint32 (curFileNum c + 1)) c)).1
  = Bytes (body (name file))
  /\ aligned body (fetchFile io file (set_curFileNum (uint32 (curFileNum c + 1)) c)).2.
Proof.
  intros Hm (HD & Hbufs & Hcb & HnD & Hk & Hfs & Hcur & Hslots) Hdl Hfile.
  pose proof Hfile as Hfile'. apply index_Some in Hfile' as [Hc0 Hlk].
  apply lookup_lt_Some in Hlk.
  assert (Hclt : curFileNum c < len (files c)) by (unfold len; lia).
  assert (Hu : uint32 (curFileNum c + 1) = curFileNum c + 1)
    by (unfold uint32; apply Z.mod_small; lia).
  rewrite Hu.
  assert (Hfetch : fetchFile io file (set_curFileNum (curFileNum c + 1) c)
                   = readNextFileS3 io (set_curFileNum (curFileNum c + 1) c)).
  { unfold fetchFile. simpl. now destruct (openMode c). }
  rewrite Hfetch. unfold readNextFileS3. simpl.
  destruct (curBuf (s3 c) <? nFilledBufs (s3 c)) eqn:Hlt.
  - apply Z.ltb_lt in Hlt.
    rewrite (Hslots (curBuf (s3 c)) file) by (try lia; now rewrite <- Hcur).
    simpl. split; [done|].
    unfold aligned. simpl. repeat split; try lia.
    intros j f Hj. apply Hslots. lia.
  - apply Z.ltb_ge in Hlt.
    assert (Heq : curFileNum c = lastDownloadedFileNum (s3 c)) by lia.
    set (D := S3DownloadConcurrency (config c)) in *.
    set (k := lastDownloadedFileNum (s3 c)) in *.
    set (n := Z.min D (len (files c) - k)).
    assert (Hn : 1 <= n <= D) by (unfold n; lia).
    replace (D <? 0) with false by (symmetry; apply Z.ltb_ge; lia).
    replace ((k <? 0) || (n <? 0)) with false
      by (symmetry; apply orb_false_iff; split; apply Z.ltb_ge; lia).
    set (batch := slice (files c) k (k + n)).
    assert (Hbatch : len batch = n) by (apply slice_length; unfold n; lia).
    rewrite (s3DownloadAll_ok io _ body batch 0 (DownloadBufs (s3 c)));
      [|intros f Hf; apply Hdl; eapply slice_In; exact Hf|unfold len in *; lia].
    simpl take. simpl app.
    replace (List.length batch) with (Z.to_nat n) by (unfold len in *; lia).
    set (bufs := map (fun f => body (name f)) batch
                 ++ drop (Z.to_nat n) (DownloadBufs (s3 c))).
    assert (Hslot : forall j f, 0 <= j < n -> index (files c) (k + j) = Some f ->
                      index bufs j = Some (body (name f))).
    { intros j f Hj Hf. rewrite <- (slice_lookup (files c) k (k + n)) in Hf by lia.
      fold batch in Hf. apply index_Some in Hf as [_ Hf].
      apply index_Some. split; [lia|]. unfold bufs.
      rewrite lookup_app_l by (rewrite length_map; unfold len in *; lia).
      rewrite list_lookup_fmap, Hf. reflexivity. }
    rewrite (Hslot 0 file) by (try lia; now rewrite Z.add_0_r, <- Heq).
    simpl. split; [done|].
    unfold aligned. simpl. fold D.
    assert (Hlb : len bufs = D).
    { unfold bufs. rewrite len_app. unfold len in *.
      rewrite length_map, length_drop. lia. }
    repeat split; try lia.
    intros j f Hj Hf. apply Hslot; [lia|].
    now replace (k + j) with (k + n - n + j) by lia.
Qed.

(** X15. In a session that reads from a bucket and whose download state
    is aligned (every download so far succeeded), when the files of the
    session download without failure, the read that a pull makes for the
    file at the file cursor returns the bytes of that very file, from a
    filled slot or from slot 0 of a new batch, without panic, and it leaves
    the download state aligned for the next file. *)
Theorem X15_fetch_returns_file_of_cursor
    (io : IO) (c : PluginInstance) (body : string -> bytes) (file : fileInfo) :
  openMode c <> fileMode ->
  aligned body c ->
  (forall f, In f (files c) -> s3_Download io (bucket (s3 c)) (name f) = OK (body (name f))) ->
  index (files c) (curFileNum c) = Some file ->
  (fetchFile io file (set_curFileNum (uint32 (curFileNum c + 1)) c)).1
  = Bytes (body (name file))
  /\ aligned body (fetchFile io file (set_curFileNum (uint32 (curFileNum c + 1)) c)).2.
Proof. apply fetchFile_aligned. Qed.

End DownloadFacts.

(** ** Sessions from the first pull to the end of the stream *)

Section DrainFacts.
Import Source Producer Invariant Session.
Context {X : Externals}.

Lemma pulls_app calls1 calls2 c :
  pulls (calls1 ++ calls2) c
  = ((pulls calls1 c).1 ++ (pulls calls2 (pulls calls1 c).2).1,
     (pulls calls2 (pulls calls1 c).2).2).
Proof.
  revert c. induction calls1 as [|[io evt] calls1 IH]; intros c; simpl.
  - now destruct (pulls calls2 c).
  - destruct (nextEvent io c evt) as [[o c1] e1]. rewrite IH.
    destruct (pulls calls1 c1) as [os c2]. simpl.
    now destruct (pulls calls2 c2).
Qed.

(** The outcome of the pull that pops a record depends on the record and
    on the writer only. *)
Lemma nextRecord_verdict io c evt evtData :
  index (evtJSONStrings c) (evtJSONListPos c) = Some evtData ->
  (nextRecord io c evt).1.1 = verdict io evtData.
Proof.
  intros Hi. unfold verdict, nextRecord.
  rewrite (index_Some_len _ _ _ Hi), Hi. simpl.
  repeat case_match; simplify_eq; reflexivity.
Qed.

Lemma set_pos_same c : set_evtJSONListPos (evtJSONListPos c) c = c.
Proof. now destruct c. Qed.

Lemma nextEvent_buffered io c evt evtData :
  index (evtJSONStrings c) (evtJSONListPos c) = Some evtData ->
  (nextEvent io c evt).1
  = (verdict io evtData, set_evtJSONListPos (evtJSONListPos c + 1) c).
Proof.
  intros Hi. pose proof Hi as Hi'. apply index_Some in Hi' as [H0 Hl].
  apply lookup_lt_Some in Hl.
  assert (Hr : 0 <= evtJSONListPos c < len (evtJSONStrings c)) by (unfold len; lia).
  unfold nextEvent, fillBuffer. rewrite Zgeb_false by lia.
  pose proof (nextRecord_state io c evt Hr) as Hs.
  pose proof (nextRecord_verdict io c evt evtData Hi) as Ho.
  destruct (nextRecord io c evt) as [[o c1] e1]. simpl in *. congruence.
Qed.

(** The pulls that pop the records left in the buffer. *)
Lemma pulls_buffered io evt (k : nat) : forall c,
  0 <= evtJSONListPos c ->
  evtJSONListPos c + Z.of_nat k = len (evtJSONStrings c) ->
  pulls (replicate k (io, evt)) c
  = (map (verdict io) (drop (Z.to_nat (evtJSONListPos c)) (evtJSONStrings c)),
     set_evtJSONListPos (len (evtJSONStrings c)) c).
Proof.
  induction k as [|k IH]; intros c H0 Hk.
  - simpl. rewrite drop_ge by (unfold len in *; lia).
    simpl. f_equal. replace (len (evtJSONStrings c)) with (evtJSONListPos c) by lia.
    now rewrite set_pos_same.
  - destruct (index_lt (evtJSONStrings c) (evtJSONListPos c)) as [d Hd]; [lia|].
    cbn [replicate pulls].
    pose proof (nextEvent_buffered io c evt d Hd) as Hn.
    destruct (nextEvent io c evt) as [[o c1] e1]. simpl in Hn.
    injection Hn as -> ->.
    rewrite IH by (simpl; lia). simpl.
    apply index_Some in Hd as [_ Hd].
    rewrite (drop_S _ d _ Hd). simpl.
    replace (Z.to_nat (evtJSONListPos c + 1)) with (S (Z.to_nat (evtJSONListPos c))) by lia.
    reflexivity.
Qed.

(** The pulls over the files of a session in one mode, for any reading of
    a file that gives its content and keeps an invariant of the session. *)
Section OneMode.
Variable io : IO.
Variable evt : event.
Variable mode : OpenMode.
Variable Inv : PluginInstance -> Prop.
Variable content : fileInfo -> fetched.
Hypothesis content_no_panic : forall f, content f <> FetchPanic.
Hypothesis Inv_range : forall c, Inv c -> 0 <= curFileNum c /\ len (files c) < 2 ^ 32.
Hypothesis Inv_fetch : forall c file,
  openMode c = mode -> Inv c ->
  index (files c) (curFileNum c) = Some file ->
  (fetchFile io file (set_curFileNum (uint32 (curFileNum c + 1)) c)).1 = content file
  /\ Inv (fetchFile io file (set_curFileNum (uint32 (curFileNum c + 1)) c)).2.
Hypothesis Inv_buffer : forall c c',
  Inv c -> config c' = config c -> files c' = files c ->
  curFileNum c' = curFileNum c -> s3 c' = s3 c -> Inv c'.

Lemma pulls_file c file :
  between mode Inv c ->
  index (files c) (curFileNum c) = Some file ->
  let outs := fileOutcomes io file (content file) in
  (pulls (replicate (List.length outs) (io, evt)) c).1 = outs
  /\ between mode Inv (pulls (replicate (List.length outs) (io, evt)) c).2
  /\ curFileNum (pulls (replicate (List.length outs) (io, evt)) c).2 = curFileNum c + 1
  /\ files (pulls (replicate (List.length outs) (io, evt)) c).2 = files c.
Proof.
  intros (Hm & HI & Hpos) Hfile outs.
  destruct (Inv_range c HI) as [Hc0 Hfs].
  pose proof Hfile as Hfile'. apply index_Some in Hfile' as [_ Hlk].
  apply lookup_lt_Some in Hlk.
  assert (Hu : uint32 (curFileNum c + 1) = curFileNum c + 1)
    by (unfold uint32; apply Z.mod_small; unfold len in *; lia).
  assert (Hul : uint32 (len (files c)) = len (files c))
    by (unfold uint32; apply Z.mod_small; unfold len in *; lia).
  destruct (Inv_fetch c file Hm HI Hfile) as [Hcont HI2].
  destruct (fetchFile io file (set_curFileNum (uint32 (curFileNum c + 1)) c))
    as [r c2] eqn:Hfetch.
  simpl in Hcont, HI2. subst r.
  pose proof (fetchFile_frame _ _ _ _ _ Hfetch) as [(Hm2 & Hcfg2 & Hcur2 & Hs2 & Hp2) Hf2].
  simpl in Hm2, Hcur2, Hs2, Hp2, Hf2. rewrite Hu in Hcur2.
  assert (Hopen : openNextFile io c
    = match content file with
      | FetchPanic => Return Panic c2
      | FetchErr err => Return (Err err) c2
      | Bytes raw =>
          match recordsOf file raw with
          | None => Return (Err ErrTimeout) c2
          | Some records =>
              Continue (set_evtJSONListPos 0 (set_evtJSONStrings records c2))
          end
      end).
  { unfold openNextFile, moreFiles. rewrite Hul.
    rewrite Zgeb_false by (unfold len; lia).
    rewrite Hfile, Hfetch. unfold recordsOf.
    destruct (content file) as [raw|err|]; try reflexivity.
    now destruct (if isCompressed file then gunzip raw else Some raw). }
  assert (Hfirst : nextEvent io c evt
    = match openNextFile io c with
      | Return o c' => (o, c', evt)
      | Continue c' => nextRecord io c' evt
      end).
  { unfold nextEvent, fillBuffer. now rewrite Zgeb_true by lia. }
  assert (Hb2 : between mode Inv c2).
  { split; [congruence|]. split; [done|]. rewrite Hs2, Hp2. done. }
  unfold outs, fileOutcomes.
  destruct (content file) as [raw|err|] eqn:Hc; [| |now destruct (content_no_panic file)].
  - destruct (recordsOf file raw) as [[|r rs]|] eqn:Hrec.
    + simpl. rewrite Hfirst, Hopen. unfold nextRecord. simpl.
      repeat split; simpl; try done; try congruence.
      now apply (Inv_buffer c2).
    + set (c3 := set_evtJSONListPos 0 (set_evtJSONStrings (r :: rs) c2)).
      change (List.length (map (verdict io) (r :: rs)))
        with (S (List.length (map (verdict io) rs))).
      cbn [replicate pulls]. rewrite Hfirst, Hopen. fold c3.
      assert (Hn : (nextEvent io c3 evt).1
                   = (verdict io r, set_evtJSONListPos 1 c3))
        by (now apply nextEvent_buffered).
      assert (Hn' : nextRecord io c3 evt = (nextEvent io c3 evt)).
      { unfold nextEvent, fillBuffer. rewrite Zgeb_false; [done|].
        unfold c3.
        cbn [evtJSONListPos evtJSONStrings set_evtJSONListPos set_evtJSONStrings].
        rewrite len_cons. pose proof (len_nonneg rs). lia. }
      rewrite Hn'. destruct (nextEvent io c3 evt) as [[o c4] e4]. simpl in Hn.
      injection Hn as -> ->.
      rewrite length_map.
      rewrite (pulls_buffered io evt (List.length rs)); simpl;
        [|lia|rewrite len_cons; unfold len; lia].
      rewrite drop_0. repeat split; simpl; try done; try congruence.
      all: try (now apply (Inv_buffer c2)).
      all: try lia.
    + simpl. rewrite Hfirst, Hopen. repeat split; simpl; try done; apply Hb2.
  - simpl. rewrite Hfirst, Hopen. repeat split; simpl; try done; apply Hb2.
Qed.

Lemma pulls_files (rest : list fileInfo) : forall c,
  between mode Inv c ->
  drop (Z.to_nat (curFileNum c)) (files c) = rest ->
  let outs := flat_map (fun f => fileOutcomes io f (content f)) rest in
  (pulls (replicate (List.length outs) (io, evt)) c).1 = outs
  /\ between mode Inv (pulls (replicate (List.length outs) (io, evt)) c).2
  /\ len (files c) <= curFileNum (pulls (replicate (List.length outs) (io, evt)) c).2
  /\ files (pulls (replicate (List.length outs) (io, evt)) c).2 = files c.
Proof.
  induction rest as [|file rest IH]; intros c Hb Hdrop outs.
  - destruct Hb as (Hm & HI & Hpos). destruct (Inv_range c HI) as [Hc0 Hfs].
    simpl. repeat split; try done.
    apply (f_equal (@List.length _)) in Hdrop. rewrite length_drop in Hdrop.
    simpl in Hdrop. unfold len. lia.
  - pose proof Hb as (Hm & HI & Hpos). destruct (Inv_range c HI) as [Hc0 Hfs].
    assert (Hfile : index (files c) (curFileNum c) = Some file).
    { apply index_Some. split; [done|].
      rewrite <- (Nat.add_0_r (Z.to_nat (curFileNum c))), <- lookup_drop, Hdrop.
      reflexivity. }
    destruct (pulls_file c file Hb Hfile) as (Ho1 & Hb1 & Hc1 & Hf1).
    unfold outs. cbn [flat_map]. rewrite length_app, replicate_add, pulls_app.
    set (c1 := (pulls (replicate (List.length (fileOutcomes io file (content file)))
                         (io, evt)) c).2) in *.
    destruct (IH c1 Hb1) as (Ho2 & Hb2 & Hc2 & Hf2).
    { rewrite Hf1, Hc1.
      replace (Z.to_nat (curFileNum c + 1)) with (S (Z.to_nat (curFileNum c))) by lia.
      change (S (Z.to_nat (curFileNum c))) with (1 + Z.to_nat (curFileNum c))%nat.
      rewrite Nat.add_comm, <- drop_drop, Hdrop. reflexivity. }
    simpl. rewrite Ho1, Ho2. split; [done|]. split; [exact Hb2|]. split; congruence.
Qed.

End OneMode.

Lemma replicate_EOF io evt c m :
  openMode c <> sqsMode ->
  len (evtJSONStrings c) <= evtJSONListPos c ->
  len (files c) <= curFileNum c -> len (files c) < 2 ^ 32 ->
  (pulls (replicate m (io, evt)) c).1 = replicate m (Err ErrEOF).
Proof.
  intros Hm Hp Hc Hf.
  rewrite pulls_EOF; [now rewrite length_replicate|done|now apply Zgeb_true|].
  apply Zgeb_true. rewrite uint32_small; [done|]. pose proof (len_nonneg (files c)). lia.
Qed.

(** X16. A session over local files, pulled again and again in a world
    that does not change, goes through its files in the order of the file
    list, from the file at the file cursor: a file that cannot be read
    takes one pull, which returns the error of the read (the next pull goes
    on with the next file); a compressed file that does not inflate and a
    file without record take one pull each, which returns retry-later; any
    other file takes one pull for each of its records, in order, with the
    outcome of that record; and once the last file is done every pull
    returns end-of-stream. *)
Theorem X16_local_session_drain
    (io : IO) (evt : event) (c : PluginInstance) (m : nat) :
  openMode c = fileMode ->
  len (evtJSONStrings c) <= evtJSONListPos c ->
  0 <= curFileNum c ->
  len (files c) < 2 ^ 32 ->
  let outs := flat_map (fun f => fileOutcomes io f (readFileLocal io (name f)))
                (drop (Z.to_nat (curFileNum c)) (files c)) in
  (pulls (replicate (List.length outs + m) (io, evt)) c).1
  = outs ++ replicate m (Err ErrEOF).
Proof.
  intros Hm Hp Hc Hf outs.
  destruct (pulls_files io evt fileMode filesInRange
              (fun f => readFileLocal io (name f))) with
    (rest := drop (Z.to_nat (curFileNum c)) (files c)) (c := c)
    as (Ho & (Hm' & HI' & Hp') & Hc' & Hf').
  - intros f. unfold readFileLocal. now destruct (ioutil_ReadFile io (name f)).
  - intros c0 H. exact H.
  - intros c0 file Hm0 [H0 H1] Hfile. unfold fetchFile. simpl. rewrite Hm0. simpl.
    split; [done|]. split; simpl; [apply uint32_range|done].
  - intros c0 c1 [H0 H1] _ Hfs Hcur _. unfold filesInRange. now rewrite Hfs, Hcur.
  - split; [done|]. split; [split; done|done].
  - reflexivity.
  - fold outs in Ho, Hm', HI', Hp', Hc', Hf'.
    rewrite replicate_add, pulls_app, Ho. simpl. f_equal.
    apply replicate_EOF; [congruence|done|congruence|congruence].
Qed.

Lemma readNextFileS3_bucket io c :
  bucket (s3 (readNextFileS3 io c).2) = bucket (s3 c).
Proof. unfold readNextFileS3. repeat case_match; reflexivity. Qed.

(** X17. A session that reads from a bucket, whose download state is
    aligned and whose files all download, pulled again and again, goes
    through its files in the order of the file list exactly as a local
    session does over files with the same bytes: the records that a pull
    pops are those of the file the file cursor was at, batch after batch,
    one pull for each record (one pull for a file without record or that
    does not inflate), no pull panics, and once the last file is done every
    pull returns end-of-stream. *)
Theorem X17_s3_session_drain (io : IO) (evt : event) (c : PluginInstance)
    (body : string -> bytes) (m : nat) :
  openMode c = s3Mode ->
  len (evtJSONStrings c) <= evtJSONListPos c ->
  aligned body c ->
  (forall f, In f (files c) -> s3_Download io (bucket (s3 c)) (name f) = OK (body (name f))) ->
  let outs := flat_map (fun f => fileOutcomes io f (Bytes (body (name f))))
                (drop (Z.to_nat (curFileNum c)) (files c)) in
  (pulls (replicate (List.length outs + m) (io, evt)) c).1
  = outs ++ replicate m (Err ErrEOF).
Proof.
  intros Hm Hp Ha Hs outs.
  change (stocked io body c) in Hs.
  destruct (pulls_files io evt s3Mode
              (fun c0 => aligned body c0 /\ stocked io body c0)
              (fun f => Bytes (body (name f)))) with
    (rest := drop (Z.to_nat (curFileNum c)) (files c)) (c := c)
    as (Ho & (Hm' & HI' & Hp') & Hc' & Hf').
  - done.
  - intros c0 [(HD & Hb & Hcb & HnD & Hk & Hfs & Hcur & _) _]. split; lia.
  - intros c0 file Hm0 [Ha0 Hs0] Hfile.
    destruct (fetchFile_aligned io c0 body file) as [H1 H2];
      [congruence|done|done|done|].
    split; [done|]. split; [done|].
    unfold stocked.
    destruct (fetchFile io file (set_curFileNum (uint32 (curFileNum c0 + 1)) c0))
      as [r c2] eqn:Hfetch.
    pose proof (fetchFile_frame _ _ _ _ _ Hfetch) as [_ Hf2]. simpl in Hf2 |- *.
    assert (Hb2 : bucket (s3 c2) = bucket (s3 c0)).
    { unfold fetchFile in Hfetch. simpl in Hfetch. rewrite Hm0 in Hfetch.
      pose proof (readNextFileS3_bucket io
                    (set_curFileNum (uint32 (curFileNum c0 + 1)) c0)) as Hb.
      rewrite Hfetch in Hb. exact Hb. }
    rewrite Hf2, Hb2. exact Hs0.
  - intros c0 c1 [Ha0 Hs0] Hcfg Hfs Hcur Hs3. split.
    + unfold aligned in *. rewrite Hcfg, Hfs, Hcur, Hs3. exact Ha0.
    + unfold stocked in *. rewrite Hfs, Hs3. exact Hs0.
  - split; [done|]. split; [split; done|done].
  - reflexivity.
  - fold outs in Ho, Hm', HI', Hp', Hc', Hf'.
    rewrite replicate_add, pulls_app, Ho. simpl. f_equal.
    destruct Ha as (_ & _ & _ & _ & _ & Hfs & _).
    apply replicate_EOF; [congruence|done|congruence|congruence].
Qed.

End DrainFacts.

(** ** Claims about malformed payloads *)

Section PayloadFacts.
Import Source Json Producer Invariant.
Context {X : Externals}.




(** *** The download state across a poll *)






(** *** Reads and records that do not crash *)










End PayloadFacts.

Section PayloadClaims.
Import Source Json Producer Invariant Scenario.





(** A message that is JSON and no notification is fatal as well. *)
Example queue_message_without_type :
  (nextEvent (X := Sample.sample) (steady [] ["{}"]) (session sqsMode 2 []) noEvent).1.1
  = Err (ErrOther "received SQS message that did not have a Type property").
Proof. vm_compute. reflexivity. Qed.

(** A message whose [Type] is no string ends the program at the type
    assertion. *)
Example queue_message_type_not_a_string :
  (nextEvent (X := Sample.sample) (steady [] [s_of (Json.render (Json.JObject [("Type", Json.JNumber 1)]))])
     (session sqsMode 2 []) noEvent).1.1
  = Panic.
Proof. vm_compute. reflexivity. Qed.

(** A notification that lists no key is no error: the pull returns
    retry-later. *)
Example queue_message_without_keys :
  (nextEvent (X := Sample.sample)
     (steady [] [Fixtures.notificationOf (Json.JObject [])])
     (session sqsMode 2 []) noEvent).1.1
  = Err ErrTimeout.
Proof. vm_compute. reflexivity. Qed.

End PayloadClaims.


(** ** More on the key lister *)

Section ChunkFacts.
Import Source Lister.

Lemma chunkLoop_concat {A} fuel : forall (rest : list A) n,
  List.concat (chunkLoop fuel rest n) = rest.
Proof.
  induction fuel as [|fuel IH]; intros rest n; simpl.
  - apply app_nil_r.
  - destruct (n <? List.length rest)%nat; simpl.
    + now rewrite IH, take_drop.
    + apply app_nil_r.
Qed.

Lemma chunkLoop_sizes {A} fuel : forall (rest : list A) (n : nat),
  (1 <= n)%nat -> rest <> [] -> (List.length rest <= fuel + n)%nat ->
  Forall (fun ch => (1 <= List.length ch <= n)%nat) (chunkLoop fuel rest n)
  /\ Z.of_nat (List.length (chunkLoop fuel rest n))
     = (Z.of_nat (List.length rest) + Z.of_nat n - 1) / Z.of_nat n.
Proof.
  induction fuel as [|fuel IH]; intros rest n Hn Hne Hlen; simpl.
  - assert (0 < List.length rest)%nat by (destruct rest; [done|simpl; lia]).
    split; [repeat constructor; lia|].
    apply Z.div_unique with (r := Z.of_nat (List.length rest) - 1); simpl; lia.
  - destruct (n <? List.length rest)%nat eqn:Hlt.
    + apply Nat.ltb_lt in Hlt.
      destruct (IH (drop n rest) n Hn) as [IH1 IH2].
      * intros E. apply (f_equal (@List.length A)) in E. rewrite length_drop in E.
        simpl in E. lia.
      * rewrite length_drop. lia.
      * split.
        -- constructor; [rewrite length_take; lia|exact IH1].
        -- simpl List.length. rewrite Nat2Z.inj_succ, IH2, length_drop.
           replace (Z.of_nat (List.length rest) + Z.of_nat n - 1)
             with (Z.of_nat (List.length rest - n) + Z.of_nat n - 1 + 1 * Z.of_nat n) by lia.
           rewrite Z.div_add by lia. lia.
    + apply Nat.ltb_ge in Hlt.
      assert (0 < List.length rest)%nat by (destruct rest; [done|simpl; lia]).
      split; [repeat constructor; lia|].
      apply Z.div_unique with (r := Z.of_nat (List.length rest) - 1); simpl; lia.
Qed.

Lemma chunkLoop_nonempty {A} fuel (rest : list A) n : 1 <= len (chunkLoop fuel rest n).
Proof.
  destruct fuel; simpl; [rewrite len_cons, len_nil; lia|].
  destruct (n <? List.length rest)%nat; rewrite len_cons;
    [pose proof (len_nonneg (chunkLoop fuel (drop n rest) n))|rewrite len_nil]; lia.
Qed.

Lemma int64_small n : - 2 ^ 63 <= n < 2 ^ 63 -> int64 n = n.
Proof. intros H. unfold int64. rewrite Z.mod_small; lia. Qed.

Lemma int64_wrapped n : 2 ^ 63 <= n < 2 ^ 64 -> int64 n = n - 2 ^ 64.
Proof.
  intros H. unfold int64.
  replace (n + 2 ^ 63) with (n - 2 ^ 63 + 1 * 2 ^ 64) by lia.
  rewrite Z.mod_add by lia. rewrite Z.mod_small; lia.
Qed.

(** While the sum does not wrap around, the array has one slot for each
    chunk. *)
Lemma chunkListOrigin_fits {A} (orgList : list A) (chunkSize : Z) :
  1 <= chunkSize ->
  orgList <> [] ->
  len orgList + chunkSize - 1 < 2 ^ 63 ->
  chunkListOrigin orgList chunkSize
  = Some (chunkLoop (List.length orgList) orgList (Z.to_nat chunkSize)).
Proof.
  intros H1 Hne Hfit. unfold chunkListOrigin.
  assert (H0 : 1 <= len orgList).
  { destruct orgList; [done|]. rewrite len_cons. pose proof (len_nonneg orgList). lia. }
  replace (len orgList =? 0) with false by (symmetry; apply Z.eqb_neq; lia).
  replace (chunkSize <? 1) with false by (symmetry; apply Z.ltb_ge; lia).
  cbn [orb]. rewrite int64_small by lia.
  rewrite Z.quot_div_nonneg by lia.
  destruct (chunkLoop_sizes (List.length orgList) orgList (Z.to_nat chunkSize))
    as [_ Hc]; [lia|done|lia|].
  rewrite Z2Nat.id in Hc by lia. fold (len orgList) in Hc.
  fold (len (chunkLoop (List.length orgList) orgList (Z.to_nat chunkSize))) in Hc.
  rewrite <- Hc.
  pose proof (chunkLoop_nonempty (List.length orgList) orgList (Z.to_nat chunkSize)).
  replace (_ <? 0) with false by (symmetry; apply Z.ltb_ge; lia).
  rewrite Z.ltb_irrefl, Z.sub_diag. simpl. now rewrite app_nil_r.
Qed.

(** X18. For a chunk size and a list length that an [int] holds,
    [chunkListOrigin] returns exactly when the list is empty or the sum
    [len(orgList)+chunkSize-1] does not exceed the largest [int]; the
    chunks it returns, put end to end, give back the list: every listing
    origin is in exactly one chunk, and the order is kept. When the sum
    wraps around the function panics. *)
Theorem X18_chunks_partition {A} (orgList : list A) (chunkSize : Z) :
  1 <= chunkSize < 2 ^ 63 ->
  len orgList < 2 ^ 63 ->
  match chunkListOrigin orgList chunkSize with
  | Some chunks =>
      List.concat chunks = orgList
      /\ (orgList = [] \/ len orgList + chunkSize - 1 < 2 ^ 63)
  | None => orgList <> [] /\ 2 ^ 63 <= len orgList + chunkSize - 1
  end.
Proof.
  intros H1 Hlen.
  destruct orgList as [|x orgList]; [simpl; auto|].
  set (l := x :: orgList) in *.
  assert (Hne : l <> []) by done.
  assert (H0 : 1 <= len l).
  { unfold l. rewrite len_cons. pose proof (len_nonneg orgList). lia. }
  destruct (Z.lt_ge_cases (len l + chunkSize - 1) (2 ^ 63)) as [Hfit|Hwrap].
  - rewrite chunkListOrigin_fits by (done || lia).
    split; [apply chunkLoop_concat|now right].
  - assert (Hq : Z.quot (int64 (len l + chunkSize - 1)) chunkSize <= 0).
    { rewrite int64_wrapped by lia.
      replace (len l + chunkSize - 1 - 2 ^ 64)
        with (- (2 ^ 64 - (len l + chunkSize - 1))) by lia.
      rewrite Z.quot_opp_l by lia.
      pose proof (Z.quot_pos (2 ^ 64 - (len l + chunkSize - 1)) chunkSize). lia. }
    unfold chunkListOrigin.
    replace (len l =? 0) with false by (symmetry; apply Z.eqb_neq; lia).
    replace (chunkSize <? 1) with false by (symmetry; apply Z.ltb_ge; lia).
    cbn [orb].
    pose proof (chunkLoop_nonempty (List.length l) l (Z.to_nat chunkSize)).
    destruct (_ <? 0) eqn:Hneg; [done|]. apply Z.ltb_ge in Hneg.
    replace (_ <? len _) with true by (symmetry; apply Z.ltb_lt; lia).
    done.
Qed.

(** X19. For a chunk size of at least 1 and a sum
    [len(orgList)+chunkSize-1] that does not exceed the largest [int],
    [chunkListOrigin] returns, every chunk holds at least one and at most
    [chunkSize] origins, and the number of chunks is the length of the list
    divided by the chunk size, rounded up: the length of the array the
    function makes, so every slot of it is assigned. *)
Theorem X19_chunk_sizes {A} (orgList : list A) (chunkSize : Z) :
  1 <= chunkSize ->
  len orgList + chunkSize - 1 < 2 ^ 63 ->
  exists chunks,
    chunkListOrigin orgList chunkSize = Some chunks
    /\ Forall (fun chunk => 1 <= len chunk <= chunkSize) chunks
    /\ len chunks = (len orgList + chunkSize - 1) / chunkSize.
Proof.
  intros H1 Hfit.
  destruct orgList as [|x orgList].
  - exists []. split; [done|]. split; [constructor|].
    change (len (@nil (list A))) with 0. change (len (@nil A)) with 0.
    symmetry. apply Z.div_small. lia.
  - set (l := x :: orgList) in *.
    exists (chunkLoop (List.length l) l (Z.to_nat chunkSize)).
    split; [now apply chunkListOrigin_fits|].
    destruct (chunkLoop_sizes (List.length l) l (Z.to_nat chunkSize))
      as [Hs Hc]; [lia|done|lia|].
    split.
    + revert Hs. apply List.Forall_impl. intros ch Hch. unfold len. lia.
    + unfold len. rewrite Hc. f_equal; lia.
Qed.

End ChunkFacts.

Section ListKeysFacts.
Import Strings Source Lister.

Lemma acceptKey_Some startTS endTS path f :
  acceptKey startTS endTS path = Some f ->
  f = FileInfo path (HasSuffix path ".json.gz")
  /\ (Ext path = ".json"%string \/ HasSuffix path ".json.gz" = true).
Proof.
  unfold acceptKey. intros H.
  destruct (if negb (String.eqb startTS "") then _ else true); [|done].
  destruct (String.eqb (Ext path) ".json") eqn:He;
    destruct (HasSuffix path ".json.gz") eqn:Hs; simpl in H; simplify_eq;
    (split; [done|]); try (left; now apply String.eqb_eq); now right.
Qed.

Lemma listKeys_app pages1 pages2 startTS endTS : forall fs,
  (listKeys pages1 startTS endTS fs).2 = None ->
  listKeys (pages1 ++ pages2) startTS endTS fs
  = listKeys pages2 startTS endTS (listKeys pages1 startTS endTS fs).1.
Proof.
  induction pages1 as [|[contents|err] pages1 IH]; intros fs H; simpl in *; [done| |done].
  now apply IH.
Qed.

(** X20. A page that fails ends the listing of [listKeys]: the files of
    the pages before it stay appended, the pages after it are not read, and
    the error sent to the error channel is the one of that page. *)
Theorem X20_page_failure_ends_listing
    (pages later : list (listing (list string))) (err : awsError)
    (startTS endTS : string) (fs : list fileInfo) :
  (listKeys pages startTS endTS fs).2 = None ->
  listKeys (pages ++ ListFailed err :: later) startTS endTS fs
  = ((listKeys pages startTS endTS fs).1, Some err).
Proof. intros H. now rewrite listKeys_app. Qed.

End ListKeysFacts.

(** ** More on the source resolver *)

Ltac strings_eq :=
  apply chars_of_inj; repeat rewrite chars_of_app; simpl;
  repeat rewrite <- app_assoc; simpl; try reflexivity.

Section OpenS3Facts.
Import Strings Regexp Source Lister Invariant Opener.
Context {X : Externals}.
Local Infix "@" := String.append (at level 60, right associativity).

Lemma length_chars_of s : List.length (chars_of s) = String.length s.
Proof. induction s as [|c s IH]; [done|]. unfold chars_of in *. simpl. now rewrite IH. Qed.

Lemma from_app a b : from (a @ b) (Z.of_nat (String.length a)) = b.
Proof.
  unfold from. rewrite chars_of_app, Nat2Z.id, <- length_chars_of, drop_app_length.
  apply of_chars_of.
Qed.

Lemma indexFrom_none sep l : forall i,
  indexFrom sep l i = -1 -> 0 <= i -> Forall (fun ch => Ascii.eqb ch sep = false) l.
Proof.
  induction l as [|ch l IH]; intros i H Hi; simpl in H; [constructor|].
  destruct (Ascii.eqb ch sep) eqn:E; [lia|].
  constructor; [done|]. apply (IH (i + 1)); [done|lia].
Qed.

Lemma indexFrom_found sep l1 l2 : forall i,
  Forall (fun ch => Ascii.eqb ch sep = false) l1 ->
  indexFrom sep (l1 ++ sep :: l2) i = i + len l1.
Proof.
  induction l1 as [|ch l1 IH]; intros i H; simpl.
  - rewrite Ascii.eqb_refl. rewrite len_nil. lia.
  - inversion H as [|? ? Hc Hl]; subst. rewrite Hc, IH by done. rewrite len_cons. lia.
Qed.

(** The locator of a bucket: what [openS3] takes for the bucket and for
    the prefix. *)
Lemma locator_with_prefix scheme b p :
  String.length scheme = 5%nat -> Index b "/" = -1 ->
  let input' := from (scheme @ b @ "/" @ p) 5 in
  (String.length (scheme @ b @ "/" @ p) <? 5)%nat = false
  /\ (Index input' "/" =? -1) = false
  /\ substr input' 0 (Index input' "/") = b
  /\ from input' (Index input' "/" + 1) = p.
Proof.
  intros Hs Hb input'.
  assert (Hi : input' = b @ "/" @ p).
  { unfold input'. change 5 with (Z.of_nat 5). rewrite <- Hs. apply from_app. }
  assert (Hnone : Forall (fun ch => Ascii.eqb ch "/" = false) (chars_of b))
    by (apply (indexFrom_none _ _ 0); [exact Hb|lia]).
  assert (Hidx : Index input' "/" = len (chars_of b)).
  { rewrite Hi. unfold Index. rewrite chars_of_app.
    change (chars_of ("/" @ p)) with ("/"%char :: chars_of p).
    rewrite (indexFrom_found "/"%char (chars_of b) (chars_of p) 0 Hnone). lia. }
  split; [|split; [|split]].
  - apply Nat.ltb_ge. rewrite <- length_chars_of, chars_of_app, length_app, length_chars_of. lia.
  - rewrite Hidx. apply Z.eqb_neq. pose proof (len_nonneg (chars_of b)). lia.
  - rewrite Hidx, Hi. unfold substr, slice. rewrite chars_of_app, drop_0.
    rewrite Z.sub_0_r. unfold len. rewrite Nat2Z.id, take_app_length. apply of_chars_of.
  - rewrite Hidx, Hi. unfold from. rewrite chars_of_app.
    change (chars_of ("/" @ p)) with ("/"%char :: chars_of p).
    replace (Z.to_nat (len (chars_of b) + 1)) with (List.length (chars_of b) + 1)%nat
      by (unfold len; lia).
    rewrite <- drop_drop, drop_app_length. simpl. rewrite drop_0. apply of_chars_of.
Qed.

Lemma locator_without_prefix scheme b :
  String.length scheme = 5%nat -> Index b "/" = -1 ->
  let input' := from (scheme @ b) 5 in
  (String.length (scheme @ b) <? 5)%nat = false
  /\ (Index input' "/" =? -1) = true /\ input' = b.
Proof.
  intros Hs Hb input'.
  assert (Hi : input' = b).
  { unfold input'. change 5 with (Z.of_nat 5). rewrite <- Hs. apply from_app. }
  split; [|split; [|done]].
  - apply Nat.ltb_ge. rewrite <- length_chars_of, chars_of_app, length_app, length_chars_of. lia.
  - rewrite Hi, Hb. reflexivity.
Qed.

Lemma initS3_positive c :
  1 <= S3DownloadConcurrency (config c) ->
  exists c', initS3 c = Some c'
    /\ openMode c' = openMode c /\ config c' = config c /\ files c' = files c
    /\ curFileNum c' = curFileNum c /\ evtJSONStrings c' = evtJSONStrings c
    /\ evtJSONListPos c' = evtJSONListPos c /\ bucket (s3 c') = bucket (s3 c).
Proof.
  intros H. destruct (initS3_total c) as [c' Hc']; [lia|].
  exists c'. split; [done|]. pose proof (initS3_bucket _ _ Hc').
  apply initS3_frame in Hc' as [(? & ? & ? & ? & ?) ?]. done.
Qed.

(** X21. [openS3] drops the first five bytes of its input, whatever they
    are, and takes what comes before the first slash of the rest for the
    bucket: for a concurrency of at least 1 and a bucket name without
    slash, the bucket of the session after the call is that name, with and
    without a prefix after it, also when the call fails later. *)
Theorem X21_locator_bucket (w : S3) (scheme b p : string) (c : PluginInstance) :
  1 <= S3DownloadConcurrency (config c) ->
  String.length scheme = 5%nat ->
  Index b "/" = -1 ->
  bucket (s3 (openS3 w (scheme @ b @ "/" @ p) c).2) = b
  /\ bucket (s3 (openS3 w (scheme @ b) c).2) = b.
Proof.
  intros HD Hs Hb. split.
  - destruct (locator_with_prefix scheme b p Hs Hb) as (H1 & H2 & H3 & H4).
    unfold openS3. cbn [config set_openMode].
    replace (S3DownloadConcurrency (config c) <? 1) with false
      by (symmetry; apply Z.ltb_ge; lia).
    rewrite H1, H2, H3, H4.
    destruct (initS3_positive (set_s3 (set_bucket b (s3 (set_openMode s3Mode c)))
                                 (set_openMode s3Mode c)))
      as (c1 & -> & _ & _ & _ & _ & _ & _ & Hbk); [exact HD|].
    simpl in Hbk. repeat case_match; simpl; exact Hbk.
  - destruct (locator_without_prefix scheme b Hs Hb) as (H1 & H2 & H3).
    unfold openS3. cbn [config set_openMode].
    replace (S3DownloadConcurrency (config c) <? 1) with false
      by (symmetry; apply Z.ltb_ge; lia).
    rewrite H1, H2, H3.
    destruct (initS3_positive (set_s3 (set_bucket b (s3 (set_openMode s3Mode c)))
                                 (set_openMode s3Mode c)))
      as (c1 & -> & _ & _ & _ & _ & _ & _ & Hbk); [exact HD|].
    simpl in Hbk. repeat case_match; simpl; exact Hbk.
Qed.

(** *** Listings that find no region *)



Lemma chunkListOrigin_one {A} (x : A) n :
  1 <= n < 2 ^ 63 -> chunkListOrigin [x] n = Some [[x]].
Proof.
  intros H. rewrite chunkListOrigin_fits; [|lia|done|rewrite len_cons, len_nil; lia].
  simpl. replace (Z.to_nat n <? 1)%nat with false; [done|].
  symmetry. apply Nat.ltb_ge. lia.
Qed.


(** *** Configuration errors *)


(** *** What [openS3] leaves alone *)

Lemma listChunk_files w b chunk startTS endTS : forall fs,
  exists keys,
    (listChunk w b chunk startTS endTS fs).1
    = fs ++ omap (acceptKey startTS endTS) keys.
Proof.
  induction chunk as [|params chunk IH]; intros fs; simpl.
  - exists []. now rewrite app_nil_r.
  - pose proof (listKeys_files (objectPages w b (prefix params) (startAfter params))
                  startTS endTS fs) as Hk.
    destruct (listKeys _ startTS endTS fs) as [fs1 err]. simpl in Hk.
    destruct (IH fs1) as [keys Hkeys].
    destruct (listChunk w b chunk startTS endTS fs1) as [fs2 errs]. simpl in *.
    eexists. rewrite Hkeys, Hk, <- app_assoc, <- omap_app. reflexivity.
Qed.

Lemma listChunks_files w b chunks startTS endTS : forall fs,
  exists keys,
    (listChunks w b chunks startTS endTS fs).1
    = fs ++ omap (acceptKey startTS endTS) keys.
Proof.
  induction chunks as [|chunk chunks IH]; intros fs; simpl.
  - exists []. now rewrite app_nil_r.
  - destruct (listChunk_files w b chunk startTS endTS fs) as [keys1 H1].
    destruct (listChunk w b chunk startTS endTS fs) as [fs1 [|err errs]]; simpl in *.
    + destruct (IH fs1) as [keys2 H2]. eexists.
      rewrite H2, H1, <- app_assoc, <- omap_app. reflexivity.
    + eauto.
Qed.

Lemma openS3_frame (w : S3) (input : string) (c : PluginInstance) :
  (exists new,
     files (openS3 w input c).2 = files c ++ new
     /\ Forall (fun f =>
                  (Ext (name f) = ".json"%string \/ HasSuffix (name f) ".json.gz" = true)
                  /\ isCompressed f = HasSuffix (name f) ".json.gz") new)
  /\ openMode (openS3 w input c).2 = s3Mode
  /\ config (openS3 w input c).2 = config c
  /\ curFileNum (openS3 w input c).2 = curFileNum c
  /\ evtJSONStrings (openS3 w input c).2 = evtJSONStrings c
  /\ evtJSONListPos (openS3 w input c).2 = evtJSONListPos c.
Proof.
  assert (Hnil : exists new : list fileInfo,
            files c = files c ++ new
            /\ Forall (fun f =>
                  (Ext (name f) = ".json"%string \/ HasSuffix (name f) ".json.gz" = true)
                  /\ isCompressed f = HasSuffix (name f) ".json.gz") new)
    by (exists []; split; [now rewrite app_nil_r|constructor]).
  unfold openS3. cbn [config set_openMode].
  destruct (S3DownloadConcurrency (config c) <? 1) eqn:HD; [done|].
  destruct (String.length input <? 5)%nat; [done|].
  match goal with |- context [initS3 ?c0] =>
    destruct (initS3 c0) as [c1|] eqn:Hi; [|done] end.
  apply initS3_frame in Hi as [(Hm & Hcfg & Hcur & Hs & Hp) Hfs].
  simpl in Hm, Hcfg, Hcur, Hs, Hp, Hfs.
  assert (Hdone : forall o : outcome, let r := (o, c1) in
    (exists new,
       files r.2 = files c ++ new
       /\ Forall (fun f =>
                    (Ext (name f) = ".json"%string \/ HasSuffix (name f) ".json.gz" = true)
                    /\ isCompressed f = HasSuffix (name f) ".json.gz") new)
    /\ openMode r.2 = s3Mode /\ config r.2 = config c /\ curFileNum r.2 = curFileNum c
    /\ evtJSONStrings r.2 = evtJSONStrings c /\ evtJSONListPos r.2 = evtJSONListPos c).
  { intros o r. simpl. rewrite Hfs. done. }
  destruct (ParseInterval _) as [[st et]|msg]; [|apply Hdone].
  destruct (negb _); [apply Hdone|].
  destruct (intervalPrefixes _ _ _ _) as [l|msg]; [|apply Hdone].
  destruct (timestampWindow _ _ _ _) as [[[startTS endTS] params]|msg]; [|apply Hdone].
  destruct (chunkListOrigin _ _) as [chunks|]; [|apply Hdone].
  match goal with |- context [listChunks ?w ?b ?ch ?s ?e ?fs] =>
    destruct (listChunks_files w b ch s e fs) as [keys Hk];
    destruct (listChunks w b ch s e fs) as [fs' err] end.
  simpl in Hk.
  assert (Hnew : exists new,
     fs' = files c ++ new
     /\ Forall (fun f =>
                  (Ext (name f) = ".json"%string \/ HasSuffix (name f) ".json.gz" = true)
                  /\ isCompressed f = HasSuffix (name f) ".json.gz") new).
  { exists (omap (acceptKey startTS endTS) keys). rewrite Hk, Hfs. split; [done|].
    apply Forall_forall. intros f Hf. apply list_elem_of_omap in Hf as (path & _ & Hf).
    apply acceptKey_Some in Hf as [-> Hext]. done. }
  destruct err; simpl; done.
Qed.

(** X24. Whatever its input and whatever the bucket answers, [openS3]
    only appends to the file list, every file it appends has a name that
    ends in [.json.gz] or has the extension [.json], and is flagged as
    compressed exactly in the first case; the mode of the session is S3
    after the call, and the configuration, the file cursor and the record
    buffer are as before. *)
Theorem X24_openS3_appends_json_files (w : S3) (input : string) (c : PluginInstance) :
  (exists new,
     files (openS3 w input c).2 = files c ++ new
     /\ Forall (fun f =>
                  (Ext (name f) = ".json"%string \/ HasSuffix (name f) ".json.gz" = true)
                  /\ isCompressed f = HasSuffix (name f) ".json.gz") new)
  /\ openMode (openS3 w input c).2 = s3Mode
  /\ config (openS3 w input c).2 = config c
  /\ curFileNum (openS3 w input c).2 = curFileNum c
  /\ evtJSONStrings (openS3 w input c).2 = evtJSONStrings c
  /\ evtJSONListPos (openS3 w input c).2 = evtJSONListPos c.
Proof. apply openS3_frame. Qed.

Lemma openS3_state w input c :
  client (s3 c) = false ->
  (openS3 w input c).1 = Nil ->
  1 <= S3DownloadConcurrency (config c)
  /\ DownloadBufs (s3 (openS3 w input c).2)
     = replicate (Z.to_nat (S3DownloadConcurrency (config c))) []
  /\ lastDownloadedFileNum (s3 (openS3 w input c).2) = lastDownloadedFileNum (s3 c)
  /\ nFilledBufs (s3 (openS3 w input c).2) = nFilledBufs (s3 c)
  /\ curBuf (s3 (openS3 w input c).2) = curBuf (s3 c).
Proof.
  intros Hcl. unfold openS3. cbn [config set_openMode].
  destruct (S3DownloadConcurrency (config c) <? 1) eqn:HD; [done|].
  apply Z.ltb_ge in HD.
  destruct (String.length input <? 5)%nat; [done|].
  unfold initS3. cbn [s3 set_s3 set_bucket client config set_openMode]. rewrite Hcl.
  replace (S3DownloadConcurrency (config c) <? 0) with false
    by (symmetry; apply Z.ltb_ge; lia).
  cbn [s3 set_s3 set_bucket client config set_openMode bucket lastDownloadedFileNum
       nFilledBufs curBuf].
  repeat case_match; simpl; intros Hnil; try done.
Qed.

(** X25. A session whose fields have their zero values and that [openS3]
    opens without error has the download state the pulls rely on: the
    buffer array has one slot for each concurrent download, no slot is
    filled, and the cursors are at the first file with nothing buffered:
    the state from which a session over a bucket is drained file by file. *)
Theorem X25_openS3_establishes_alignment (w : S3) (input : string) (c : PluginInstance)
    (body : string -> bytes) :
  fresh c ->
  (openS3 w input c).1 = Nil ->
  len (files (openS3 w input c).2) < 2 ^ 32 ->
  aligned body (openS3 w input c).2
  /\ openMode (openS3 w input c).2 = s3Mode
  /\ curFileNum (openS3 w input c).2 = 0
  /\ len (evtJSONStrings (openS3 w input c).2) <= evtJSONListPos (openS3 w input c).2.
Proof.
  intros (Hf & Hc & Hs & Hp & Hs3) Hnil Hlen.
  destruct (openS3_state w input c) as (HD & Hb & Hl & Hn & Hcb); [now rewrite Hs3|done|].
  destruct (openS3_frame w input c) as (_ & Hm & Hcfg & Hcur & Hstr & Hpos).
  rewrite Hs3 in Hl, Hn, Hcb. simpl in Hl, Hn, Hcb.
  split; [|split; [done|split; [congruence|]]].
  - unfold aligned. rewrite Hcfg, Hb, Hl, Hn, Hcb, Hcur, Hc.
    unfold len at 1. rewrite length_replicate.
    pose proof (len_nonneg (files (openS3 w input c).2)).
    repeat split; try lia.
  - rewrite Hstr, Hpos, Hs, Hp. done.
Qed.

(** *** The accounts of an organization *)

Lemma accountPrefixes_listed raw : forall acc,
  accountPrefixes (map Listed raw) acc
  = OK (acc ++ map (fun path => path @ "CloudTrail/")
                 (filter (fun path => MatchString awsLogsRE path = true) (List.concat raw))).
Proof.
  induction raw as [|page raw IH]; intros acc; simpl.
  - now rewrite app_nil_r.
  - rewrite IH, filter_app, map_app, app_assoc. reflexivity.
Qed.

Lemma accountPrefixes_failed raw err later : forall acc,
  accountPrefixes (map Listed raw ++ ListFailed err :: later) acc
  = Failed (friendly "accounts" err).
Proof.
  induction raw as [|page raw IH]; intros acc; simpl; [done|]. apply IH.
Qed.

Lemma intervalPrefixes_org w bucketName pre o slash :
  isOrgId o = true ->
  intervalPrefixes w bucketName (orgPrefix pre o @ trailing slash) ""
  = accountPrefixes (commonPrefixPages w bucketName (orgPrefix pre o @ "/")) [].
Proof.
  intros Ho. unfold intervalPrefixes.
  now rewrite awsLogsRE_orgPrefix, awsLogsOrgRE_orgPrefix, withSlash_orgPrefix by done.
Qed.

(** X26. For a prefix that ends in the directory of an organization, with
    or without a trailing slash, and an empty account list, the listing
    prefixes are found in the bucket: the common prefixes one level below
    the organization are listed page by page, those that end in a 12-digit
    account directory are kept, in order, each followed by [CloudTrail/],
    and the others are skipped. *)
Theorem X26_account_discovery (w : S3) (bucketName pre o : string) (slash : bool)
    (raw : list (list string)) :
  isOrgId o = true ->
  commonPrefixPages w bucketName (orgPrefix pre o @ "/") = map Listed raw ->
  intervalPrefixes w bucketName (orgPrefix pre o @ trailing slash) ""
  = OK (map (fun path => path @ "CloudTrail/")
          (filter (fun path => MatchString awsLogsRE path = true) (List.concat raw))).
Proof.
  intros Ho Hpages. now rewrite intervalPrefixes_org, Hpages, accountPrefixes_listed.
Qed.

(** X27. When a page of the listing of the accounts of an organization
    fails, the classification fails with the message made of that error,
    whatever the pages before it held and whatever comes after; unlike a
    failure of the listing of regions, it ends the open. *)
Theorem X27_account_listing_failure (w : S3) (bucketName pre o : string) (slash : bool)
    (raw : list (list string)) (err : awsError) (later : list (listing (list string))) :
  isOrgId o = true ->
  commonPrefixPages w bucketName (orgPrefix pre o @ "/")
  = map Listed raw ++ ListFailed err :: later ->
  intervalPrefixes w bucketName (orgPrefix pre o @ trailing slash) ""
  = Failed (friendly "accounts" err).
Proof.
  intros Ho Hpages. now rewrite intervalPrefixes_org, Hpages, accountPrefixes_failed.
Qed.

End OpenS3Facts.

(** ** Opening a local directory and a queue *)

Section OpenerFacts.
Import Strings Source Producer Lister Invariant Session Opener.
Context {X : Externals}.
Local Infix "@" := String.append (at level 60, right associativity).

Lemma walkFn_byExtension fs entry :
  walkFn fs entry = fs ++ omap byExtension (visited [entry]).
Proof.
  destruct entry as [path [[|]|]]; unfold walkFn, visited, byExtension; simpl;
    try (now rewrite app_nil_r);
    destruct (String.eqb (Ext path) ".json"), (HasSuffix path ".json.gz"); simpl;
    now rewrite ?app_nil_r.
Qed.

Lemma visited_cons entry entries :
  visited (entry :: entries) = visited [entry] ++ visited entries.
Proof.
  unfold visited. simpl.
  now destruct (match entry.2 with Some true => false | _ => true end).
Qed.

Lemma fold_walkFn entries : forall fs,
  fold_left walkFn entries fs = fs ++ omap byExtension (visited entries).
Proof.
  induction entries as [|entry entries IH]; intros fs; simpl.
  - now rewrite app_nil_r.
  - rewrite IH, walkFn_byExtension, (visited_cons entry entries), omap_app.
    now rewrite <- app_assoc.
Qed.

(** X28. For a directory that is given and exists, [openLocal] appends
    one file for each path the walk visits that is no directory and that
    ends in [.json.gz] or has the extension [.json], in the order of the
    walk, flagged as compressed exactly in the first case, by the same test
    on the name as the listing of a bucket; the mode is local after the
    call and the file cursor is not moved; the call returns [nil] when the
    file list is not empty after it and a fatal error when it is. *)
Theorem X28_openLocal_discovers (h : Host) (params : string) (c : PluginInstance)
    (entries : list (string * option bool)) :
  params <> EmptyString ->
  os_Stat h params = None ->
  filepath_Walk h params = (entries, None) ->
  let found := files c ++ omap byExtension (visited entries) in
  files (openLocal h params c).2 = found
  /\ openMode (openLocal h params c).2 = fileMode
  /\ curFileNum (openLocal h params c).2 = curFileNum c
  /\ (openLocal h params c).1
     = match found with
       | [] => Err (ErrOther (fmt_Errorf h (PluginName
                                @ " plugin error: no json files found in " @ params)))
       | _ :: _ => Nil
       end.
Proof.
  intros Hp Hs Hw found. unfold openLocal, dirExists.
  replace (String.length params =? 0)%nat with false
    by (symmetry; apply Nat.eqb_neq; destruct params; [done|simpl; lia]).
  rewrite Hs, Hw. cbn [negb files set_openMode set_files].
  rewrite fold_walkFn. fold found.
  assert (Hl : forall (f : fileInfo) fs, (len (f :: fs) =? 0) = false).
  { intros f fs. rewrite len_cons. apply Z.eqb_neq. pose proof (len_nonneg fs). lia. }
  destruct found as [|f fs]; [done|].
  cbn [files set_files set_openMode]. rewrite Hl. done.
Qed.

Lemma getMoreSQSFiles_empty io c :
  sqs_ReceiveMessage io = OK [] -> getMoreSQSFiles io c = (Nil, c).
Proof. intros H. unfold getMoreSQSFiles. now rewrite H. Qed.

Lemma emptyPolls_empty_queue calls c :
  Forall (fun call => sqs_ReceiveMessage call.1 = OK []) calls -> emptyPolls calls c.
Proof.
  induction 1 as [|[io evt] calls Hio Hall IH]; simpl; [done|].
  simpl in Hio. rewrite (getMoreSQSFiles_empty io c Hio). simpl. done.
Qed.

(** X29. [openSQS] drops the first six bytes of its input, asks for the
    URL of the queue named by the rest, with the owner account when one is
    configured, and polls the queue at that URL once. A queue that is empty
    then is no error: the call returns [nil], adds no file and changes the
    mode only, and every later pull that finds the queue empty returns
    retry-later. *)
Theorem X29_openSQS_empty_queue
    (h : Host) (sqsOwnerAccount scheme queueName url : string)
    (c : PluginInstance) (calls : list (IO * event)) :
  String.length scheme = 6%nat ->
  fresh c ->
  sqs_GetQueueUrl h queueName
    (if String.eqb sqsOwnerAccount "" then None else Some sqsOwnerAccount) = OK url ->
  sqs_ReceiveMessage (answers h url) = OK [] ->
  Forall (fun call => sqs_ReceiveMessage call.1 = OK []) calls ->
  openSQS h sqsOwnerAccount (scheme @ queueName) c = (Nil, set_openMode sqsMode c, Some url)
  /\ (pulls calls (set_openMode sqsMode c)).1
     = replicate (List.length calls) (Err ErrTimeout).
Proof.
  intros Hs (Hf & Hc & Hstr & Hp & Hs3) Hurl Hrecv Hcalls. split.
  - unfold openSQS.
    replace (String.length (scheme @ queueName) <? 6)%nat with false
      by (symmetry; apply Nat.ltb_ge;
          rewrite <- length_chars_of, chars_of_app, length_app, !length_chars_of; lia).
    change 6 with (Z.of_nat 6). rewrite <- Hs, from_app.
    replace (if negb (String.eqb sqsOwnerAccount "") then Some sqsOwnerAccount else None)
      with (if String.eqb sqsOwnerAccount "" then None else Some sqsOwnerAccount)
      by (now destruct (String.eqb sqsOwnerAccount "")).
    rewrite Hurl, (getMoreSQSFiles_empty _ _ Hrecv). reflexivity.
  - apply pulls_emptyPolls; simpl.
    + reflexivity.
    + rewrite Hstr, Hp. reflexivity.
    + rewrite Hf, Hc. reflexivity.
    + now apply emptyPolls_empty_queue.
Qed.

End OpenerFacts.

(** ** The properties on the sample sessions *)

Section SplitterSamples.
Import Splitter Shapes Json Scenario Fixtures.

(** The two sample records on lines of their own, between an opening brace
    and a closing bracket and brace, with a line end after the last brace. *)
Lemma X3_splitter_spaced_records_witness :
  extractRecordStrings
    ([lbrace] ++ spaced prettyItems ++ ([x0a] ++ b_of "]") ++ [rbrace] ++ [x0a]) []
  = [] ++ map snd prettyItems.
Proof.
  apply (X3_splitter_spaced_records prettyItems ([x0a] ++ b_of "]") [x0a] []).
  - repeat constructor.
  - reflexivity.
  - reflexivity.
Defined.

(** The same file cut right after a third record. *)
Lemma X4_splitter_truncated_file_witness :
  extractRecordStrings
    ([lbrace] ++ spaced prettyItems ++ (b_of "," ++ [x0a])
     ++ render (JObject [("eventType", JString "AwsApiCall")])) []
  = [] ++ map snd prettyItems.
Proof.
  apply (X4_splitter_truncated_file prettyItems (b_of "," ++ [x0a])
           (render (JObject [("eventType", JString "AwsApiCall")])) []).
  - repeat constructor.
  - reflexivity.
  - reflexivity.
Defined.

End SplitterSamples.

Section PullSamples.
Import Source Producer Invariant Session Json Scenario Fixtures.

(** The sample session after its first pull: three records are left. *)
Lemma X5_pull_consumes_one_record_witness :
  (nextEvent (X := Sample.sample) trailWorld (afterPulls 1) noEvent).1.2
  = set_evtJSONListPos (evtJSONListPos (afterPulls 1) + 1) (afterPulls 1).
Proof.
  apply (X5_pull_consumes_one_record (X := Sample.sample) trailWorld (afterPulls 1) noEvent).
  vm_compute. split; [discriminate|reflexivity].
Defined.

(** The first pull of the sample session, which emits the first record. *)
Lemma X6_nil_means_record_written_witness :
  exists c1 evtData cr timeVal t1 typeVal n,
    fillBuffer (X := Sample.sample) trailWorld trailSession = Continue c1
    /\ index (evtJSONStrings c1) (evtJSONListPos c1) = Some evtData
    /\ @fastjson_Parse Sample.sample (s_of evtData) = Some cr
    /\ GetStringBytes cr "eventTime" = Some timeVal
    /\ @time_Parse Sample.sample (s_of timeVal) = Some t1
    /\ GetStringBytes cr "eventType" = Some typeVal
    /\ s_of typeVal <> "AwsCloudTrailInsight"%string
    /\ evt_Write trailWorld evtData = (n, None) /\ len evtData <= n
    /\ nextEvent (X := Sample.sample) trailWorld trailSession noEvent
       = (Nil, set_evtJSONListPos (evtJSONListPos c1 + 1) c1,
          Event (Some (uint64 t1)) (written noEvent ++ evtData)).
Proof.
  apply (X6_nil_means_record_written (X := Sample.sample) trailWorld trailSession noEvent).
  vm_compute. reflexivity.
Defined.

(** The first record of the sample file. *)
Lemma X7_valid_record_emitted_witness :
  let c1 := set_evtJSONListPos 0
              (set_evtJSONStrings (Splitter.extractRecordStrings trailBytes [])
                 (set_curFileNum 1 trailSession)) in
  let evtData := render (JObject [("eventTime", JString "2024-01-01T00:00:00Z");
                                  ("eventType", JString "AwsApiCall")]) in
  nextEvent (X := Sample.sample) trailWorld trailSession noEvent
  = (Nil, set_evtJSONListPos (evtJSONListPos c1 + 1) c1,
     Event (Some (if 0 <=? 1704067200000000000 then 1704067200000000000
                  else 2 ^ 64 + 1704067200000000000))
           (written noEvent ++ evtData)).
Proof.
  apply (X7_valid_record_emitted (X := Sample.sample) trailWorld trailSession noEvent
           (set_evtJSONListPos 0
              (set_evtJSONStrings (Splitter.extractRecordStrings trailBytes [])
                 (set_curFileNum 1 trailSession)))
           (render (JObject [("eventTime", JString "2024-01-01T00:00:00Z");
                             ("eventType", JString "AwsApiCall")]))
           (b_of "2024-01-01T00:00:00Z") (b_of "AwsApiCall")
           (JObject [("eventTime", JString "2024-01-01T00:00:00Z");
                     ("eventType", JString "AwsApiCall")])
           1704067200000000000).
  - vm_compute. reflexivity.
  - vm_compute. reflexivity.
  - vm_compute. reflexivity.
  - reflexivity.
  - vm_compute. reflexivity.
  - lia.
  - reflexivity.
  - intros E. vm_compute in E. discriminate E.
  - vm_compute. reflexivity.
Defined.

(** The second record of the sample file, an insight event. *)
Lemma X8_insight_record_dropped_witness :
  let c := afterPulls 1 in
  let cr := JObject [("eventTime", JString "2024-01-01T00:00:01Z");
                     ("eventType", JString "AwsCloudTrailInsight")] in
  (nextEvent (X := Sample.sample) trailWorld c noEvent).1.1 = Err ErrTimeout
  /\ (nextEvent (X := Sample.sample) trailWorld c noEvent).1.2
     = set_evtJSONListPos (evtJSONListPos c + 1) c
  /\ written (nextEvent (X := Sample.sample) trailWorld c noEvent).2 = written noEvent
  /\ timestamp (nextEvent (X := Sample.sample) trailWorld c noEvent).2
     = match GetStringBytes cr "eventTime" with
       | Some timeVal =>
           match @time_Parse Sample.sample (s_of timeVal) with
           | Some t1 => Some (uint64 t1)
           | None => timestamp noEvent
           end
       | None => timestamp noEvent
       end.
Proof.
  apply (X8_insight_record_dropped (X := Sample.sample) trailWorld (afterPulls 1) noEvent
           (afterPulls 1)
           (render (JObject [("eventTime", JString "2024-01-01T00:00:01Z");
                             ("eventType", JString "AwsCloudTrailInsight")]))
           (b_of "AwsCloudTrailInsight")
           (JObject [("eventTime", JString "2024-01-01T00:00:01Z");
                     ("eventType", JString "AwsCloudTrailInsight")])).
  - vm_compute. reflexivity.
  - vm_compute. reflexivity.
  - vm_compute. reflexivity.
  - reflexivity.
  - reflexivity.
Defined.

(** Six pulls of the sample session. *)
Lemma X10_local_session_never_panics_witness :
  Forall (fun o => o <> Panic)
    (pulls (X := Sample.sample) (replicate 6 (trailWorld, noEvent)) trailSession).1
  /\ inRange (pulls (X := Sample.sample) (replicate 6 (trailWorld, noEvent)) trailSession).2
  /\ files (pulls (X := Sample.sample) (replicate 6 (trailWorld, noEvent)) trailSession).2
     = files trailSession.
Proof.
  apply (X10_local_session_never_panics (X := Sample.sample)
           (replicate 6 (trailWorld, noEvent)) trailSession).
  - reflexivity.
  - vm_compute. repeat split; discriminate.
Defined.

End PullSamples.

Section PollSamples.
Import Source Producer Invariant Session Json Scenario Fixtures.



(** A queue session that receives a message that is no JSON. *)
Lemma X13_failed_poll_changes_nothing_witness :
  let io := steady [] ["not json"] in
  let c := session sqsMode 2 [] in
  nextEvent (X := Sample.sample) io c noEvent
  = (Err (ErrOther "json: syntax error"), c, noEvent)
  /\ fatal (Err (ErrOther "json: syntax error")) = true.
Proof.
  apply (X13_failed_poll_changes_nothing (X := Sample.sample) (steady [] ["not json"])
           (session sqsMode 2 []) noEvent (ErrOther "json: syntax error")).
  - reflexivity.
  - reflexivity.
  - reflexivity.
  - vm_compute. reflexivity.
Defined.

End PollSamples.

Section DownloadSamples.
Import Source Producer Invariant Session Json Scenario Fixtures.


Lemma aligned_session body D fs :
  1 <= D -> len fs < 2 ^ 32 -> aligned body (session s3Mode D fs).
Proof.
  intros HD Hfs. unfold aligned, session. simpl.
  unfold len at 1. rewrite length_replicate.
  pose proof (len_nonneg fs). repeat split; try lia.
Qed.

(** The first read of a session over three files, two downloads at a time. *)
Lemma X15_fetch_returns_file_of_cursor_witness :
  let c := session s3Mode 2 threeFiles in
  let io := world threeStore [] in
  (fetchFile io (FileInfo trailFile false) (set_curFileNum (uint32 (curFileNum c + 1)) c)).1
  = Bytes (bodyOf threeStore (name (FileInfo trailFile false)))
  /\ aligned (bodyOf threeStore)
       (fetchFile io (FileInfo trailFile false)
          (set_curFileNum (uint32 (curFileNum c + 1)) c)).2.
Proof.
  apply (X15_fetch_returns_file_of_cursor (world threeStore [])
           (session s3Mode 2 threeFiles) (bodyOf threeStore) (FileInfo trailFile false)).
  - discriminate.
  - apply aligned_session; [lia|vm_compute; reflexivity].
  - intros f Hf. vm_compute in Hf. destruct Hf as [<-|[<-|[<-|[]]]]; reflexivity.
  - reflexivity.
Defined.

End DownloadSamples.

Section DrainSamples.
Import Source Producer Invariant Session Json Scenario Fixtures.

(** The sample file and a file that is not on disk, and two more pulls. *)
Lemma X16_local_session_drain_witness :
  let io := trailWorld in
  let c := session fileMode 1 [FileInfo trailFile false; FileInfo "missing.json" false] in
  let outs := flat_map (fun f => fileOutcomes (X := Sample.sample) io f
                                   (readFileLocal io (name f)))
                (drop (Z.to_nat (curFileNum c)) (files c)) in
  (pulls (X := Sample.sample) (replicate (List.length outs + 2) (io, noEvent)) c).1
  = outs ++ replicate 2 (Err ErrEOF).
Proof.
  apply (X16_local_session_drain (X := Sample.sample) trailWorld noEvent
           (session fileMode 1 [FileInfo trailFile false; FileInfo "missing.json" false]) 2).
  - reflexivity.
  - vm_compute. discriminate.
  - vm_compute. discriminate.
  - vm_compute. reflexivity.
Defined.

(** Three files in a bucket, two downloads at a time. *)
Lemma X17_s3_session_drain_witness :
  let io := world threeStore [] in
  let c := session s3Mode 2 threeFiles in
  let outs := flat_map (fun f => fileOutcomes (X := Sample.sample) io f
                                   (Bytes (bodyOf threeStore (name f))))
                (drop (Z.to_nat (curFileNum c)) (files c)) in
  (pulls (X := Sample.sample) (replicate (List.length outs + 1) (io, noEvent)) c).1
  = outs ++ replicate 1 (Err ErrEOF).
Proof.
  apply (X17_s3_session_drain (X := Sample.sample) (world threeStore []) noEvent
           (session s3Mode 2 threeFiles) (bodyOf threeStore) 1).
  - reflexivity.
  - vm_compute. discriminate.
  - apply aligned_session; [lia|vm_compute; reflexivity].
  - intros f Hf. vm_compute in Hf. destruct Hf as [<-|[<-|[<-|[]]]]; reflexivity.
Defined.

(** The outcomes of these two sessions. *)
Example drained_sessions :
  (pulls (X := Sample.sample) (replicate 7 (trailWorld, noEvent))
     (session fileMode 1 [FileInfo trailFile false; FileInfo "missing.json" false])).1
  = [Nil; Err ErrTimeout; Err ErrTimeout; Err ErrTimeout;
     Err (ErrOther "NoSuchKey"); Err ErrEOF; Err ErrEOF]
  /\ (pulls (X := Sample.sample) (replicate 7 (world threeStore [], noEvent))
        (session s3Mode 2 threeFiles)).1
     = [Nil; Err ErrTimeout; Err ErrTimeout; Err ErrTimeout;
        Err ErrTimeout; Err ErrTimeout; Err ErrEOF].
Proof. vm_compute. split; reflexivity. Qed.

End DrainSamples.

Section ListerSamples.
Import Source Strings Regexp Producer Lister Invariant Session Json Scenario Opener Fixtures.
Local Infix "@" := String.append (at level 60, right associativity).
#[local] Existing Instance Sample.sample.

(** Five origins in chunks of two. *)
Lemma X18_chunks_partition_witness :
  match chunkListOrigin [1; 2; 3; 4; 5] 2 with
  | Some chunks =>
      List.concat chunks = [1; 2; 3; 4; 5]
      /\ ([1; 2; 3; 4; 5] = [] \/ len [1; 2; 3; 4; 5] + 2 - 1 < 2 ^ 63)
  | None => [1; 2; 3; 4; 5] <> [] /\ 2 ^ 63 <= len [1; 2; 3; 4; 5] + 2 - 1
  end.
Proof.
  apply (X18_chunks_partition [1; 2; 3; 4; 5] 2); [lia|vm_compute; reflexivity].
Defined.

Lemma X19_chunk_sizes_witness :
  exists chunks,
    chunkListOrigin [1; 2; 3; 4; 5] 2 = Some chunks
    /\ Forall (fun chunk => 1 <= len chunk <= 2) chunks
    /\ len chunks = (len [1; 2; 3; 4; 5] + 2 - 1) / 2.
Proof.
  apply (X19_chunk_sizes [1; 2; 3; 4; 5] 2); [lia|vm_compute; reflexivity].
Defined.

(** The chunks of these five origins; two origins and the largest chunk
    size that an [int] holds, where the sum wraps around and the function
    panics; and one origin, where it does not. *)
Example chunks_of_five :
  chunkListOrigin [1; 2; 3; 4; 5] 2 = Some [[1; 2]; [3; 4]; [5]]
  /\ chunkListOrigin [1; 2] (2 ^ 63 - 1) = None
  /\ chunkListOrigin [1] (2 ^ 63 - 1) = Some [[1]].
Proof.
  split; [vm_compute; reflexivity|].
  split; [lazy; reflexivity|apply chunkListOrigin_one; lia].
Qed.

(** A page of two keys, a page that fails, and a page that is not asked for. *)
Lemma X20_page_failure_ends_listing_witness :
  let pages := [Listed [keyAt "20240101T0000"; "notes.txt"%string]] in
  listKeys (pages ++ ListFailed (OtherError "timeout") :: [Listed [keyAt "20240101T0100"]])
    "" "" []
  = ((listKeys pages "" "" []).1, Some (OtherError "timeout")).
Proof.
  apply (X20_page_failure_ends_listing
           [Listed [keyAt "20240101T0000"; "notes.txt"%string]]
           [Listed [keyAt "20240101T0100"]] (OtherError "timeout") "" "" []).
  reflexivity.
Defined.

End ListerSamples.

Section OpenS3Samples.
Import Source Strings Regexp Producer Lister Invariant Session Json Scenario Opener Fixtures.
Local Infix "@" := String.append (at level 60, right associativity).
#[local] Existing Instance Sample.sample.

Lemma X21_locator_bucket_witness :
  bucket (s3 (openS3 (X := Sample.sample) emptyBucket
                ("s3://" @ "trail-bucket" @ "/" @ "logs") unopened).2)
  = "trail-bucket"%string
  /\ bucket (s3 (openS3 (X := Sample.sample) emptyBucket
                   ("s3://" @ "trail-bucket") unopened).2)
     = "trail-bucket"%string.
Proof.
  apply (X21_locator_bucket (X := Sample.sample) emptyBucket "s3://" "trail-bucket" "logs"
           unopened).
  - vm_compute. discriminate.
  - reflexivity.
  - vm_compute. reflexivity.
Defined.



Lemma X25_openS3_establishes_alignment_witness :
  let r := openS3 (X := Sample.sample) (flatBucket [keyAt "20240101T0000"])
             "s3://trail-bucket/logs" unopened in
  aligned (bodyOf threeStore) r.2
  /\ openMode r.2 = s3Mode
  /\ curFileNum r.2 = 0
  /\ len (evtJSONStrings r.2) <= evtJSONListPos r.2.
Proof.
  apply (X25_openS3_establishes_alignment (X := Sample.sample)
           (flatBucket [keyAt "20240101T0000"]) "s3://trail-bucket/logs" unopened
           (bodyOf threeStore)).
  - repeat split.
  - vm_compute. reflexivity.
  - vm_compute. reflexivity.
Defined.

(** The accounts of an organization: the digest directory is no account. *)
Lemma X26_account_discovery_witness :
  intervalPrefixes (orgBucket [Listed orgDirs]) "trail-bucket"
    (orgPrefix "logs" "exampleorgid" @ trailing true) ""
  = OK (map (fun path => path @ "CloudTrail/")
          (filter (fun path => MatchString awsLogsRE path = true)
             (List.concat [orgDirs]))).
Proof.
  apply (X26_account_discovery (orgBucket [Listed orgDirs]) "trail-bucket" "logs"
           "exampleorgid" true [orgDirs]).
  - reflexivity.
  - reflexivity.
Defined.

Lemma X27_account_listing_failure_witness :
  intervalPrefixes
    (orgBucket [Listed orgDirs; ListFailed (APIError "AccessDenied" "denied"); Listed orgDirs])
    "trail-bucket" (orgPrefix "logs" "exampleorgid" @ trailing false) ""
  = Failed (friendly "accounts" (APIError "AccessDenied" "denied")).
Proof.
  apply (X27_account_listing_failure
           (orgBucket [Listed orgDirs; ListFailed (APIError "AccessDenied" "denied");
                       Listed orgDirs])
           "trail-bucket" "logs" "exampleorgid" false [orgDirs]
           (APIError "AccessDenied" "denied") [Listed orgDirs]).
  - reflexivity.
  - reflexivity.
Defined.

End OpenS3Samples.

Section OpenerSamples.
Import Source Strings Regexp Producer Lister Invariant Session Json Scenario Opener Fixtures.
Local Infix "@" := String.append (at level 60, right associativity).
#[local] Existing Instance Sample.sample.

(** A directory with two JSON files, a text file, a directory with a JSON
    name and an entry without information. *)
Lemma X28_openLocal_discovers_witness :
  let c := zeroSession (configOf 1) in
  let found := files c ++ omap byExtension (visited logEntries) in
  files (openLocal (X := Sample.sample) host "/logs" c).2 = found
  /\ openMode (openLocal (X := Sample.sample) host "/logs" c).2 = fileMode
  /\ curFileNum (openLocal (X := Sample.sample) host "/logs" c).2 = curFileNum c
  /\ (openLocal (X := Sample.sample) host "/logs" c).1
     = match found with
       | [] => Err (ErrOther (fmt_Errorf host (PluginName
                                @ " plugin error: no json files found in " @ "/logs")))
       | _ :: _ => Nil
       end.
Proof.
  apply (X28_openLocal_discovers (X := Sample.sample) host "/logs" (zeroSession (configOf 1))
           logEntries).
  - discriminate.
  - reflexivity.
  - reflexivity.
Defined.

(** The files that this directory gives. *)
Example openLocal_logs :
  (openLocal (X := Sample.sample) host "/logs" (zeroSession (configOf 1))).1 = Nil
  /\ files (openLocal (X := Sample.sample) host "/logs" (zeroSession (configOf 1))).2
     = [FileInfo "/logs/a.json" false; FileInfo "/logs/b.json.gz" true;
        FileInfo "/logs/c.json" false].
Proof. vm_compute. split; reflexivity. Qed.

(** An empty queue, opened and polled three times. *)
Lemma X29_openSQS_empty_queue_witness :
  let c := zeroSession (queueConfig false) in
  let calls := replicate 3 (steady [] [], noEvent) in
  openSQS (X := Sample.sample) host "" ("sqs://" @ "trail-queue") c
  = (Nil, set_openMode sqsMode c, Some "https://sqs.example/trail-queue"%string)
  /\ (pulls (X := Sample.sample) calls (set_openMode sqsMode c)).1
     = replicate (List.length calls) (Err ErrTimeout).
Proof.
  apply (X29_openSQS_empty_queue (X := Sample.sample) host "" "sqs://" "trail-queue"
           "https://sqs.example/trail-queue" (zeroSession (queueConfig false))
           (replicate 3 (steady [] [], noEvent))).
  - reflexivity.
  - repeat split.
  - reflexivity.
  - reflexivity.
  - repeat constructor.
Defined.

End OpenerSamples.
